(** * A shallow embedding of the schema-directed ASN.1 decoder

    The development follows the Go sources file by file:
    - [asn1.go]    : the two error kinds, the package-level facade,
                     [setDefaultValue];
    - [options.go] : the option record, [parseOptions] and [validate];
    - [context.go] : the [Context], the choice registry, [SetDer];
    - [decode.go]  : the resolver ([getUniversalTag], [getExpectedElement]),
                     the SEQUENCE / SET engine and the main [decode].

    Go's [uint] and [int] are 64-bit integers, modelled as [Z] with the
    wrap-around of every conversion written out.  A [reflect.Value] is a
    typed, possibly settable slot; decoders return the new content of the
    slot instead of mutating it. *)

From Stdlib Require Import ZArith Lia Ascii String List Sorting.Sorted Sorting.Permutation.
From stdpp Require Import base option list strings gmap sorting.

Set Warnings "-register-all".
Local Open Scope string_scope.
Local Open Scope Z_scope.

(** ** Errors ([asn1.go])

    The messages are kept as structured templates: the constructor is the
    format string, the arguments are the values printed into it. *)

Inductive Msg : Type :=
  (* options.go *)
  | MsgTagMustBeSpecified (class : string)
  | MsgTagNegative (tag : Z)
  | MsgChoiceEmpty
  | MsgInvalidOption (name : string)
  | MsgNoArguments (name : string)
  | MsgMissingArgument
  | MsgInvalidValue (value name : string)
  (* asn1.go *)
  | MsgDefaultOnlyIntegers
  (* context.go *)
  | MsgInvalidChoice (choice : string)
  | MsgInvalidChoiceTag (class tag : Z) (choice : string)
  | MsgChoiceAlreadyRegistered (choice : string) (class tag : Z)
  | MsgNestedChoice (inner outer : string)
  (* decode.go *)
  | MsgReadOnly
  | MsgIndefiniteInDer
  | MsgExpectedTag (eclass etag rclass rtag : Z)
  | MsgTypeNotSupported
  | MsgSetNotApplicable
  | MsgTooManyItems
  | MsgMissingValue (class tag : Z)
  | MsgDuplicatedTag (class tag : Z)
  | MsgMissingElements
  | MsgTooManyElements
  (* raised by the other files of the package *)
  | MsgOther (text : string).

(** [SyntaxError] and [ParseError] are the package's two error types;
    [PlainError] is a value built by [fmt.Errorf] (neither of the two);
    [Panic] is a run-time panic of the [reflect] package; [OutOfFuel] is
    the only constructor that does not exist in Go: the interpreter of
    decoder closures below is bounded by a step counter. *)
Inductive error : Type :=
  | SyntaxError (m : Msg)
  | ParseError (m : Msg)
  | PlainError (m : Msg)
  | Panic (m : Msg)
  | OutOfFuel.

Definition syntaxError (m : Msg) : error := SyntaxError m.
Definition parseError (m : Msg) : error := ParseError m.

Definition isSyntaxError (e : error) : bool :=
  match e with SyntaxError _ => true | _ => false end.
Definition isParseError (e : error) : bool :=
  match e with ParseError _ => true | _ => false end.

Inductive result (A : Type) : Type :=
  | Ok (a : A)
  | Err (e : error).
Arguments Ok {A} a.
Arguments Err {A} e.

Definition bind {A B : Type} (r : result A) (k : A -> result B) : result B :=
  match r with
  | Ok a => k a
  | Err e => Err e
  end.

Declare Scope result_scope.
Delimit Scope result_scope with result.
Notation "'do' x <- r ; k" := (bind r (fun x => k))
  (at level 20, x pattern, r at level 100, k at level 200) : result_scope.
Local Open Scope result_scope.

Definition isOk {A : Type} (r : result A) : bool :=
  match r with Ok _ => true | Err _ => false end.

(** ** Strings of the Go standard library used by [options.go] *)

Module GoStrings.

(** [strings.Split(s, sep)] for a one-character separator: the pieces
    between the separators, always at least one piece. *)
Fixpoint Split (s : string) (sep : ascii) : list string :=
  match s with
  | EmptyString => [EmptyString]
  | String c s' =>
      if Ascii.eqb c sep then EmptyString :: Split s' sep
      else match Split s' sep with
           | [] => [String c EmptyString]
           | piece :: pieces => String c piece :: pieces
           end
  end.

(** The white space of [strings.TrimSpace] inside ASCII: tab, line feed,
    vertical tab, form feed, carriage return and space.  (Go also trims
    the white space code points beyond ASCII; annotations are
    treated here as byte strings.) *)
Definition isSpace (c : ascii) : bool :=
  let n := nat_of_ascii c in
  ((9 <=? n) && (n <=? 13))%nat || (n =? 32)%nat.

Fixpoint trimLeft (s : string) : string :=
  match s with
  | EmptyString => EmptyString
  | String c s' => if isSpace c then trimLeft s' else s
  end.

Fixpoint trimRight (s : string) : string :=
  match s with
  | EmptyString => EmptyString
  | String c s' =>
      match trimRight s' with
      | EmptyString => if isSpace c then EmptyString else String c EmptyString
      | t => String c t
      end
  end.

Definition TrimSpace (s : string) : string := trimRight (trimLeft s).

Definition digit (c : ascii) : option Z :=
  let n := nat_of_ascii c in
  if ((48 <=? n) && (n <=? 57))%nat then Some (Z.of_nat n - 48) else None.

Fixpoint digits (acc : Z) (s : string) : option Z :=
  match s with
  | EmptyString => Some acc
  | String c s' =>
      match digit c with
      | Some d => digits (10 * acc + d) s'
      | None => None
      end
  end.

Definition minInt : Z := - 2 ^ 63.
Definition maxInt : Z := 2 ^ 63 - 1.

(** [strconv.Atoi]: an optional sign, then one or more decimal digits;
    [None] stands for its syntax and range errors. *)
Definition Atoi (s : string) : option Z :=
  let unsigned (t : string) : option Z :=
    match t with
    | EmptyString => None
    | _ => digits 0 t
    end in
  let signed :=
    match s with
    | String "-" t => Z.opp <$> unsigned t
    | String "+" t => unsigned t
    | _ => unsigned s
    end in
  match signed with
  | Some v => if (minInt <=? v) && (v <=? maxInt) then Some v else None
  | None => None
  end.

End GoStrings.

(** ** Field options ([options.go]) *)

Record fieldOptions : Type := mkFieldOptions {
  universal : bool;
  application : bool;
  explicit : bool;
  indefinite : bool;
  optional : bool;
  set : bool;
  tag : option Z;
  defaultValue : option Z;
  choice : option string
}.

(** The zero value of the struct ([var opts fieldOptions]). *)
Definition zeroOptions : fieldOptions :=
  mkFieldOptions false false false false false false None None None.

(** [p == nil] for a Go pointer. *)
Definition isNil {A : Type} (p : option A) : bool :=
  match p with None => true | Some _ => false end.

(** [validate] returns an error if any option is invalid. *)
Definition validate (opts : fieldOptions) : option error :=
  let tagError (class : string) := syntaxError (MsgTagMustBeSpecified class) in
  if universal opts && isNil (tag opts) then
    Some (tagError "universal")
  else if application opts && isNil (tag opts) then
    Some (tagError "application")
  else if match tag opts with Some t => t <? 0 | None => false end then
    Some (syntaxError (MsgTagNegative (default 0 (tag opts))))
  else if match choice opts with Some c => String.eqb c "" | None => false end then
    Some (syntaxError MsgChoiceEmpty)
  else None.

(** [parseBoolOption] just checks that no arguments were given. *)
Definition parseBoolOption (args : list string) : result bool :=
  if (1 <? length args)%nat
  then Err (syntaxError (MsgNoArguments (hd "" args)))
  else Ok true.

(** [parseIntOption] parses an integer argument. *)
Definition parseIntOption (args : list string) : result (option Z) :=
  match args with
  | [name; value] =>
      match GoStrings.Atoi value with
      | Some num => Ok (Some num)
      | None => Err (syntaxError (MsgInvalidValue value name))
      end
  | _ => Err (syntaxError MsgMissingArgument)
  end.

(** [parseStringOption] parses a string argument. *)
Definition parseStringOption (args : list string) : result (option string) :=
  match args with
  | [_; value] => Ok (Some value)
  | _ => Err (syntaxError MsgMissingArgument)
  end.

(** [parseOption] parses a single option.  In Go the field is assigned even
    when the helper fails; [parseOptions] then drops the whole record, so
    only the error is kept here. *)
Definition parseOption (opts : fieldOptions) (args : list string) : result fieldOptions :=
  let name := hd "" args in
  if String.eqb name "" then Ok opts
  else if String.eqb name "universal" then
    do b <- parseBoolOption args;
    Ok (mkFieldOptions b (application opts) (explicit opts) (indefinite opts)
          (optional opts) (set opts) (tag opts) (defaultValue opts) (choice opts))
  else if String.eqb name "application" then
    do b <- parseBoolOption args;
    Ok (mkFieldOptions (universal opts) b (explicit opts) (indefinite opts)
          (optional opts) (set opts) (tag opts) (defaultValue opts) (choice opts))
  else if String.eqb name "explicit" then
    do b <- parseBoolOption args;
    Ok (mkFieldOptions (universal opts) (application opts) b (indefinite opts)
          (optional opts) (set opts) (tag opts) (defaultValue opts) (choice opts))
  else if String.eqb name "indefinite" then
    do b <- parseBoolOption args;
    Ok (mkFieldOptions (universal opts) (application opts) (explicit opts) b
          (optional opts) (set opts) (tag opts) (defaultValue opts) (choice opts))
  else if String.eqb name "optional" then
    do b <- parseBoolOption args;
    Ok (mkFieldOptions (universal opts) (application opts) (explicit opts)
          (indefinite opts) b (set opts) (tag opts) (defaultValue opts) (choice opts))
  else if String.eqb name "set" then
    do b <- parseBoolOption args;
    Ok (mkFieldOptions (universal opts) (application opts) (explicit opts)
          (indefinite opts) (optional opts) b (tag opts) (defaultValue opts) (choice opts))
  else if String.eqb name "tag" then
    do t <- parseIntOption args;
    Ok (mkFieldOptions (universal opts) (application opts) (explicit opts)
          (indefinite opts) (optional opts) (set opts) t (defaultValue opts) (choice opts))
  else if String.eqb name "default" then
    do d <- parseIntOption args;
    Ok (mkFieldOptions (universal opts) (application opts) (explicit opts)
          (indefinite opts) (optional opts) (set opts) (tag opts) d (choice opts))
  else if String.eqb name "choice" then
    do c <- parseStringOption args;
    Ok (mkFieldOptions (universal opts) (application opts) (explicit opts)
          (indefinite opts) (optional opts) (set opts) (tag opts) (defaultValue opts) c)
  else Err (syntaxError (MsgInvalidOption name)).

(** The loop of [parseOptions] over the comma-separated tokens. *)
Fixpoint parseTokens (opts : fieldOptions) (tokens : list string) : result fieldOptions :=
  match tokens with
  | [] => Ok opts
  | token :: tokens' =>
      let args := GoStrings.Split (GoStrings.TrimSpace token) ":" in
      do opts' <- parseOption opts args;
      parseTokens opts' tokens'
  end.

(** [parseOptions] returns a parsed [fieldOptions] or an error. *)
Definition parseOptions (s : string) : result fieldOptions :=
  do opts <- parseTokens zeroOptions (GoStrings.Split s ",");
  match validate opts with
  | Some err => Err err
  | None => Ok opts
  end.

(** ** Go types and values as [reflect] shows them *)

Inductive IntKind : Type := Int | Int8 | Int16 | Int32 | Int64.
Inductive UintKind : Type := Uint | Uint8 | Uint16 | Uint32 | Uint64.

(** [reflect.StructField]: [asn1Tag] is [Tag.Get(tagKey)], the annotation
    under the key ["asn1"]; [Exported] is [PkgPath == ""]. *)
Record StructField (T : Type) : Type := mkStructField {
  Name : string;
  Exported : bool;
  FieldType : T;
  asn1Tag : string
}.
Arguments mkStructField {T}.
Arguments Name {T}.
Arguments Exported {T}.
Arguments FieldType {T}.
Arguments asn1Tag {T}.

(** [reflect.Type].  [TBigInt], [TOid] and [TNull] are the three types the
    package singles out ([bigIntType], [oidType], [nullType]);
    [TUnsupported] stands for every kind the resolver has no case for
    (floats, maps, pointers, channels, functions, ...). *)
Inductive GoType : Type :=
  | TBool
  | TString
  | TInt (k : IntKind)
  | TUint (k : UintKind)
  | TStruct (fields : list (StructField GoType))
  | TArray (len : nat) (elem : GoType)
  | TSlice (elem : GoType)
  | TInterface
  | TBigInt
  | TOid
  | TNull
  | TUnsupported (name : string).

Definition IntKind_eqb (a b : IntKind) : bool :=
  match a, b with
  | Int, Int | Int8, Int8 | Int16, Int16 | Int32, Int32 | Int64, Int64 => true
  | _, _ => false
  end.

Definition UintKind_eqb (a b : UintKind) : bool :=
  match a, b with
  | Uint, Uint | Uint8, Uint8 | Uint16, Uint16 | Uint32, Uint32 | Uint64, Uint64 => true
  | _, _ => false
  end.

(** Identity of types ([t1 == t2] on [reflect.Type]). *)
Fixpoint GoType_eqb (a b : GoType) {struct a} : bool :=
  match a, b with
  | TBool, TBool | TString, TString | TInterface, TInterface
  | TBigInt, TBigInt | TOid, TOid | TNull, TNull => true
  | TInt k, TInt k' => IntKind_eqb k k'
  | TUint k, TUint k' => UintKind_eqb k k'
  | TArray n e, TArray n' e' => (n =? n')%nat && GoType_eqb e e'
  | TSlice e, TSlice e' => GoType_eqb e e'
  | TUnsupported n, TUnsupported n' => String.eqb n n'
  | TStruct fs, TStruct fs' =>
      (fix fields_eqb (l : list (StructField GoType)) (l' : list (StructField GoType)) : bool :=
         match l, l' with
         | [], [] => true
         | f :: r, f' :: r' =>
             String.eqb (Name f) (Name f') && Bool.eqb (Exported f) (Exported f')
             && GoType_eqb (FieldType f) (FieldType f')
             && String.eqb (asn1Tag f) (asn1Tag f') && fields_eqb r r'
         | _, _ => false
         end) fs fs'
  | _, _ => false
  end.

Definition intBits (k : IntKind) : Z :=
  match k with Int => 64 | Int8 => 8 | Int16 => 16 | Int32 => 32 | Int64 => 64 end.
Definition uintBits (k : UintKind) : Z :=
  match k with Uint => 64 | Uint8 => 8 | Uint16 => 16 | Uint32 => 32 | Uint64 => 64 end.

(** Conversion to an unsigned, resp. signed, integer of [bits] bits. *)
Definition wrapUnsigned (bits z : Z) : Z := z mod 2 ^ bits.
Definition wrapSigned (bits z : Z) : Z :=
  (z + 2 ^ (bits - 1)) mod 2 ^ bits - 2 ^ (bits - 1).

Inductive Value : Type :=
  | VBool (b : bool)
  | VInt (n : Z)
  | VUint (n : Z)
  | VString (s : list Byte.byte)
  | VBytes (bs : list Byte.byte)
  | VBigInt (n : option Z)
  | VOid (arcs : list Z)
  | VNull
  | VStruct (fields : list Value)
  | VList (elems : list Value)
  | VInterface (dynamic : option (GoType * Value))
  | VOpaque.

(** [reflect.New(t).Elem()]: the zero value of a type. *)
Fixpoint zeroValue (t : GoType) : Value :=
  match t with
  | TBool => VBool false
  | TString => VString []
  | TInt _ => VInt 0
  | TUint _ => VUint 0
  | TStruct fs => VStruct (map (fun f => zeroValue (FieldType f)) fs)
  | TArray n (TUint Uint8) => VBytes (repeat Byte.x00 n)
  | TArray n e => VList (repeat (zeroValue e) n)
  | TSlice (TUint Uint8) => VBytes []
  | TSlice _ => VList []
  | TInterface => VInterface None
  | TBigInt => VBigInt None
  | TOid => VOid []
  | TNull => VNull
  | TUnsupported _ => VOpaque
  end.

(** A [reflect.Value]: a slot of a given type, its current content and
    whether [CanSet] holds for it. *)
Record reflectValue : Type := mkReflectValue {
  rtype : GoType;
  rvalue : Value;
  CanSet : bool
}.

(** [reflect.New(t).Elem()] as a slot: settable, holding the zero value. *)
Definition newValue (t : GoType) : reflectValue :=
  mkReflectValue t (zeroValue t) true.

(** ** Wire-level constants and the raw TLV

    The class and tag constants and the [RawValue] struct are declared in
    a file of the package other than the four embedded here; their values
    are those of the data model and of the table of universal types. *)

(** Modelled from the spec: class Universal = 0. *)
Definition ClassUniversal : Z := 0.
(** Modelled from the spec: class Application = 1. *)
Definition ClassApplication : Z := 1.
(** Modelled from the spec: class ContextSpecific = 2. *)
Definition ClassContextSpecific : Z := 2.
(** Modelled from the spec: class Private = 3. *)
Definition ClassPrivate : Z := 3.

(** Modelled from the spec: universal tag of BOOLEAN. *)
Definition TagBoolean : Z := 1.
(** Modelled from the spec: universal tag of INTEGER. *)
Definition TagInteger : Z := 2.
(** Modelled from the spec: universal tag of OCTET STRING. *)
Definition TagOctetString : Z := 4.
(** Modelled from the spec: universal tag of NULL. *)
Definition TagNull : Z := 5.
(** Modelled from the spec: universal tag of OBJECT IDENTIFIER. *)
Definition TagOid : Z := 6.
(** Modelled from the spec: universal tag of SEQUENCE. *)
Definition TagSequence : Z := 16.
(** Modelled from the spec: universal tag of SET. *)
Definition TagSet : Z := 17.

(** Modelled from the spec: the raw TLV of the data model, with the field
    names the decoder uses ([raw.Class], [raw.Tag], [raw.Indefinite],
    [raw.Content]). *)
Record RawValue : Type := mkRawValue {
  Class : Z;
  Tag : Z;
  Constructed : bool;
  Indefinite : bool;
  Content : list Byte.byte
}.

(** [RawValue{}] *)
Definition zeroRawValue : RawValue := mkRawValue 0 0 false false [].

(** [uint(x)] for an [int] [x]. *)
Definition uint (x : Z) : Z := wrapUnsigned 64 x.

(** ** Decoder functions

    A [decoderFunction] is a Go function value
    [func(data []byte, value reflect.Value) error].  The resolver only ever
    builds four sorts of them, kept here as data and run by [applyDecoder]
    further down:
    - the method values of the primitive codecs ([ctx.decodeBool], ...),
      whose bodies are in another file of the package;
    - the method values [ctx.decodeStruct], [ctx.decodeStructAsSet],
      [ctx.decodeArray] and [ctx.decodeSlice];
    - the closure installed for [explicit], which captures [opts];
    - the closure installed for [choice], which captures [entry] and uses
      its [typ] and [decoder]. *)

Inductive primitiveCodec : Type :=
  | decodeBigInt | decodeOid | decodeNull | decodeBool
  | decodeString | decodeInt | decodeUint | decodeOctetString.

Inductive decoderFunction : Type :=
  | PrimitiveDecoder (p : primitiveCodec)
  | StructDecoder
  | StructAsSetDecoder
  | ArrayDecoder
  | SliceDecoder
  | ExplicitDecoder (opts : fieldOptions)
  | ChoiceDecoder (entryTyp : GoType) (entryDecoder : option decoderFunction).

(** Expected values ([decode.go]); [decoder = None] is the nil function. *)
Record expectedElement : Type := mkExpectedElement {
  class : Z;
  etag : Z;
  decoder : option decoderFunction
}.

(** Internal register with information about each CHOICE ([context.go]). *)
Record choiceEntry : Type := mkChoiceEntry {
  entryElement : expectedElement;
  typ : GoType;
  entryOpts : fieldOptions
}.

(** One option available for a CHOICE element. *)
Record Choice : Type := mkChoice {
  ChoiceType : GoType;
  Options : string
}.

Record derFlags : Type := mkDer {
  encoding : bool;
  decoding : bool
}.

(** [Context] keeps the global options.  The logger is left out: its
    only use is [Printf], which has no effect on any result. *)
Record Context : Type := mkContext {
  choices : gmap string (list choiceEntry);
  der : derFlags
}.

(** [SetDer] sets DER mode for encoding and decoding. *)
Definition SetDer (this : Context) (encoding decoding : bool) : Context :=
  mkContext (choices this) (mkDer encoding decoding).

(** [NewContext] creates and initializes a new context. *)
Definition NewContext : Context :=
  let ctx := mkContext ∅ (mkDer false false) in
  SetDer ctx true false.

(** [getChoices] returns the list of choices for a given name; an absent
    key reads as the nil slice. *)
Definition getChoices (ctx : Context) (name : string) : result (list choiceEntry) :=
  match choices ctx !! name with
  | None => Err (syntaxError (MsgInvalidChoice name))
  | Some entries => Ok entries
  end.

(** [getChoiceByType] returns the choice associated to a given name and
    type: the first registered entry whose [typ] is the type [t]. *)
Definition getChoiceByType (ctx : Context) (name : string) (t : GoType)
  : result choiceEntry :=
  do entries <- getChoices ctx name;
  match List.find (fun current => GoType_eqb (typ current) t) entries with
  | Some current => Ok current
  | None => Err (syntaxError (MsgOther ("Invalid Go type for choice " ++ name)))
  end.

(** The test of the search loops of [getChoiceByTag] and [addChoiceEntry]:
    [current.class == class && current.tag == tag]. *)
Definition sameTag (cls tg : Z) (current : choiceEntry) : bool :=
  (class (entryElement current) =? cls) && (etag (entryElement current) =? tg).

(** [getChoiceByTag] returns the choice associated to a given tag. *)
Definition getChoiceByTag (ctx : Context) (name : string) (cls tg : Z)
  : result choiceEntry :=
  do entries <- getChoices ctx name;
  match List.find (sameTag cls tg) entries with
  | Some current => Ok current
  | None => Err (syntaxError (MsgInvalidChoiceTag cls tg name))
  end.

(** [addChoiceEntry] adds a single choice to the list associated to a given
    name.  The map is updated in place: the new context is returned next to
    the error. *)
Definition addChoiceEntry (this : Context) (name : string) (entry : choiceEntry)
  : Context * option error :=
  let registered := default [] (choices this !! name) in
  let cls := class (entryElement entry) in
  let tg := etag (entryElement entry) in
  match List.find (sameTag cls tg) registered with
  | Some _ => (this, Some (PlainError (MsgChoiceAlreadyRegistered name cls tg)))
  | None =>
      (mkContext (<[name := (registered ++ [entry])%list]> (choices this)) (der this), None)
  end.

(** ** The schema resolver ([decode.go]) *)

Definition isUint8 (t : GoType) : bool :=
  match t with TUint Uint8 => true | _ => false end.

(** [getUniversalTag] maps a type to an ASN.1 universal type. *)
Definition getUniversalTag (objType : GoType) (opts : fieldOptions) : result expectedElement :=
  let prim tag p := mkExpectedElement ClassUniversal tag (Some (PrimitiveDecoder p)) in
  let elem :=
    match objType with
    (* Special types: *)
    | TBigInt => prim TagInteger decodeBigInt
    | TOid => prim TagOid decodeOid
    | TNull => prim TagNull decodeNull
    (* Generic types: *)
    | TBool => prim TagBoolean decodeBool
    | TString => prim TagOctetString decodeString
    | TInt _ => prim TagInteger decodeInt
    | TUint _ => prim TagInteger decodeUint
    | TStruct _ =>
        mkExpectedElement ClassUniversal TagSequence
          (Some (if set opts then StructAsSetDecoder else StructDecoder))
    | TArray _ e =>
        if isUint8 e then prim TagOctetString decodeOctetString
        else mkExpectedElement ClassUniversal TagSequence (Some ArrayDecoder)
    | TSlice e =>
        if isUint8 e then prim TagOctetString decodeOctetString
        else mkExpectedElement ClassUniversal TagSequence (Some SliceDecoder)
    | TInterface | TUnsupported _ => mkExpectedElement ClassUniversal 0 None
    end in
  (* Check options for universal types *)
  if set opts then
    if negb (etag elem =? TagSequence) then Err (syntaxError MsgSetNotApplicable)
    else Ok (mkExpectedElement (class elem) TagSet (decoder elem))
  else Ok elem.

(** [getExpectedElement] returns the expected element for a given type;
    [raw] is only used as a hint when decoding choices. *)
Definition getExpectedElement (ctx : Context) (raw : RawValue) (elemType : GoType)
    (opts : fieldOptions) : result expectedElement :=
  (* Get the expected universal tag and its decoder for the given Go type *)
  do elem <- getUniversalTag elemType opts;
  (* Modify the expected tag and decoder function based on the given options *)
  let elem :=
    match tag opts with
    | Some t => mkExpectedElement ClassContextSpecific (uint t) (decoder elem)
    | None => elem
    end in
  let elem :=
    if universal opts then mkExpectedElement ClassUniversal (etag elem) (decoder elem)
    else elem in
  let elem :=
    if application opts then mkExpectedElement ClassApplication (etag elem) (decoder elem)
    else elem in
  if explicit opts then
    Ok (mkExpectedElement (class elem) (etag elem) (Some (ExplicitDecoder opts)))
  else
    do elem <-
      match choice opts with
      | Some name =>
          (* Get the registered choices *)
          do entry <- getChoiceByTag ctx name (Class raw) (Tag raw);
          (* Get the decoder for the new value *)
          Ok (mkExpectedElement (Class raw) (Tag raw)
                (Some (ChoiceDecoder (typ entry) (decoder (entryElement entry)))))
      | None => Ok elem
      end;
    (* At this point a decoder function must already be found *)
    if isNil (decoder elem) then Err (parseError MsgTypeNotSupported)
    else Ok elem.

(** [AddChoice] registers the entries one after the other; entries added
    before a failing one stay registered. *)
Fixpoint AddChoice (ctx : Context) (name : string) (entries : list Choice)
  : Context * option error :=
  match entries with
  | [] => (ctx, None)
  | e :: entries' =>
      match parseOptions (Options e) with
      | Err err => (ctx, Some err)
      | Ok opts =>
          match choice opts with
          | Some inner => (ctx, Some (syntaxError (MsgNestedChoice inner name)))
          | None =>
              match getExpectedElement ctx zeroRawValue (ChoiceType e) opts with
              | Err err => (ctx, Some err)
              | Ok elem =>
                  match addChoiceEntry ctx name (mkChoiceEntry elem (ChoiceType e) opts) with
                  | (ctx', Some err) => (ctx', Some err)
                  | (ctx', None) => AddChoice ctx' name entries'
                  end
              end
          end
      end
  end.

(** ** The composite engine ([decode.go], [asn1.go]) *)

(** Expected values for fields.  The Go struct holds the [reflect.Value] of
    the field; here it is the position of the field in the record being
    filled, with the type and settability [reflect] reports for it.  The
    alternatives a choice expands into share one position, i.e. one
    storage. *)
Record expectedFieldElement : Type := mkExpectedFieldElement {
  element : expectedElement;
  fieldIndex : nat;
  fieldType : GoType;
  fieldCanSet : bool;
  fopts : fieldOptions
}.

(** [eValues[i].decoder = nil] *)
Definition clearDecoder (e : expectedFieldElement) : expectedFieldElement :=
  mkExpectedFieldElement
    (mkExpectedElement (class (element e)) (etag (element e)) None)
    (fieldIndex e) (fieldType e) (fieldCanSet e) (fopts e).

(** Modelled from the spec: the order "by (class, tag) ascending" of the
    two sortable slice types, whose [Less] methods are declared in a file
    of the package that is not embedded here. *)
Definition tagLess (c1 t1 c2 t2 : Z) : bool :=
  (c1 <? c2) || ((c1 =? c2) && (t1 <? t2)).

(** Modelled from the spec: [Less] of [expectedFieldElementSlice]. *)
Definition expectedFieldElementSlice_Less (a b : expectedFieldElement) : bool :=
  tagLess (class (element a)) (etag (element a)) (class (element b)) (etag (element b)).

(** Modelled from the spec: [Less] of [rawValueSlice]. *)
Definition rawValueSlice_Less (a b : RawValue) : bool :=
  tagLess (Class a) (Tag a) (Class b) (Tag b).

(** [setDefaultValue] sets a reflected value to its default value based on
    the field options.  [SetInt] and [SetUint] truncate to the width of the
    field and panic on a slot that cannot be set. *)
Definition setDefaultValue (value : reflectValue) (opts : fieldOptions) : result Value :=
  match rtype value with
  | TInt k =>
      match defaultValue opts with
      | Some d =>
          if CanSet value then Ok (VInt (wrapSigned (intBits k) (wrapSigned 64 d)))
          else Err (Panic (MsgOther "reflect: SetInt using unaddressable value"))
      | None => Err (Panic (MsgOther "nil pointer dereference"))
      end
  | TUint k =>
      match defaultValue opts with
      | Some d =>
          if CanSet value then Ok (VUint (wrapUnsigned (uintBits k) (wrapUnsigned 64 d)))
          else Err (Panic (MsgOther "reflect: SetUint using unaddressable value"))
      | None => Err (Panic (MsgOther "nil pointer dereference"))
      end
  | _ => Err (syntaxError MsgDefaultOnlyIntegers)
  end.

(** [newDefaultValue] creates a new reflected value and sets it to its
    default value.  Go returns the value next to the error, also when the
    error is not nil. *)
Definition newDefaultValue (objType : GoType) (opts : fieldOptions)
  : reflectValue * option error :=
  let value := newValue objType in
  if isNil (defaultValue opts) then (value, None)
  else
    match setDefaultValue value opts with
    | Ok v => (mkReflectValue (rtype value) v (CanSet value), None)
    | Err err => (value, Some err)
    end.

Definition structFields (t : GoType) : list (StructField GoType) :=
  match t with TStruct fs => fs | _ => [] end.

Definition fieldValues (v : Value) : list Value :=
  match v with VStruct vs => vs | _ => [] end.

(** The inner loop of [getExpectedFieldElements] that expands a choice:
    one expected element per registered alternative. *)
Fixpoint expandChoice (ctx : Context) (i : nat) (f : StructField GoType)
    (opts : fieldOptions) (entries : list choiceEntry)
    (expectedValues : list expectedFieldElement) : result (list expectedFieldElement) :=
  match entries with
  | [] => Ok expectedValues
  | entry :: entries' =>
      let raw := mkRawValue (class (entryElement entry)) (etag (entryElement entry))
                   false false [] in
      do elem <- getExpectedElement ctx raw (FieldType f) opts;
      expandChoice ctx i f opts entries'
        (expectedValues ++ [mkExpectedFieldElement elem i (FieldType f) (Exported f) opts])%list
  end.

(** The loop of [getExpectedFieldElements] from field [i] on. *)
Fixpoint fieldLoop (ctx : Context) (value : reflectValue) (i : nat)
    (fields : list (StructField GoType))
    (expectedValues : list expectedFieldElement) : result (list expectedFieldElement) :=
  match fields with
  | [] => Ok expectedValues
  | f :: fields' =>
      if CanSet value then
        (* Get field and options *)
        do opts <- parseOptions (asn1Tag f);
        (* Expand choices *)
        match choice opts with
        | None =>
            do elem <- getExpectedElement ctx zeroRawValue (FieldType f) opts;
            fieldLoop ctx value (S i) fields'
              (expectedValues ++ [mkExpectedFieldElement elem i (FieldType f) (Exported f) opts])%list
        | Some name =>
            do entries <- getChoices ctx name;
            do expectedValues' <- expandChoice ctx i f opts entries expectedValues;
            fieldLoop ctx value (S i) fields' expectedValues'
        end
      else fieldLoop ctx value (S i) fields' expectedValues
  end.

Definition getExpectedFieldElements (ctx : Context) (value : reflectValue)
  : result (list expectedFieldElement) :=
  fieldLoop ctx value 0 (structFields (rtype value)) [].

(** [c != nil && *c == *e.opts.choice] *)
Definition sameChoice (name : string) (e : expectedFieldElement) : bool :=
  match choice (fopts e) with
  | Some c => String.eqb c name
  | None => false
  end.

(** The loop that removes the other options of a matched choice:
    [n] iterations from index [i] on. *)
Fixpoint invalidateLoop (n i : nat) (name : string)
    (eValues : list expectedFieldElement) : list expectedFieldElement :=
  match n with
  | O => eValues
  | S n' =>
      let eValues' :=
        match eValues !! i with
        | Some c => if sameChoice name c then <[i := clearDecoder c]> eValues else eValues
        | None => eValues
        end in
      invalidateLoop n' (S i) name eValues'
  end.

(** [for i := eIndex + 1; i < len(eValues); i++ { ... }] *)
Definition invalidateSiblings (eIndex : nat) (name : string)
    (eValues : list expectedFieldElement) : list expectedFieldElement :=
  invalidateLoop (length eValues - (eIndex + 1)) (eIndex + 1) name eValues.

(** The duplicate check of [decodeStructAsSet] over neighbours. *)
Fixpoint checkDuplicated (expectedElements : list expectedFieldElement) : option error :=
  match expectedElements with
  | prev :: (curr :: _) as rest =>
      if (class (element curr) =? class (element prev))
         && (etag (element curr) =? etag (element prev))
      then Some (syntaxError (MsgDuplicatedTag (class (element curr)) (etag (element curr))))
      else checkDuplicated rest
  | _ => None
  end.

(** What the embedded files call but do not define: the raw TLV reader
    [decodeRawValue], the bodies of the primitive codecs, and the sorting
    algorithm behind [sort.Sort].  The engine is stated over any of them;
    [sortContract] is what [sort.Sort] promises for a [Less] that is a
    strict weak order (ascending order, no stability). *)

Record strictWeakOrder {A : Type} (less : A -> A -> bool) : Prop := {
  less_asym : forall x y, less x y = true -> less y x = false;
  less_negtrans : forall x y z, less y x = false -> less z y = false -> less z x = false
}.

Definition sortContract (sort_Sort : forall A : Type, (A -> A -> bool) -> list A -> list A) : Prop :=
  forall (A : Type) (less : A -> A -> bool) (l : list A),
    Permutation l (sort_Sort A less l)
    /\ (strictWeakOrder less ->
        StronglySorted (fun x y => less y x = false) (sort_Sort A less l)).

Section Engine.

Variable decodeRawValue : list Byte.byte -> result (RawValue * list Byte.byte).
Variable primitive : primitiveCodec -> Context -> list Byte.byte -> reflectValue -> result Value.
Variable sort_Sort : forall A : Type, (A -> A -> bool) -> list A -> list A.

(** The functions below call decoder functions through [call]; the knot
    is tied by [applyDecoder]. *)
Section WithCall.

Variable call : decoderFunction -> list Byte.byte -> reflectValue -> result Value.

(** The loop of [getRawValuesFromBytes]: [n] iterations left. *)
Fixpoint rawLoop (n : nat) (reader : list Byte.byte) (rawValues : list RawValue)
  : result (list RawValue) :=
  match n with
  | O => Err (parseError MsgTooManyItems)
  | S n' =>
      (* Parse an ASN.1 element *)
      do (raw, reader') <- decodeRawValue reader;
      let rawValues := (rawValues ++ [raw])%list in
      if (length reader' =? 0)%nat then Ok rawValues
      else rawLoop n' reader' rawValues
  end.

(** [getRawValuesFromBytes] reads up to [max] values from the bytes. *)
Definition getRawValuesFromBytes (data : list Byte.byte) (max : nat)
  : result (list RawValue) :=
  rawLoop max data [].

(** The slot [e.value], read from the record being filled. *)
Definition fieldSlot (fields : list Value) (e : expectedFieldElement) : reflectValue :=
  mkReflectValue (fieldType e) (default VOpaque (fields !! fieldIndex e)) (fieldCanSet e).

(** The loop of [matchExpectedValues]: [n] iterations left, at
    [eIndex].  [fields] is the content of the record being filled. *)
Fixpoint matchLoop (n eIndex : nat) (eValues : list expectedFieldElement)
    (rValues : list RawValue) (rIndex : nat) (fields : list Value)
  : result (list Value) :=
  match n with
  | O => Ok fields
  | S n' =>
      match eValues !! eIndex with
      | None => Ok fields
      | Some e =>
          match decoder (element e) with
          | None =>
              (* Using nil decoder to skip matched choices *)
              matchLoop n' (S eIndex) eValues rValues rIndex fields
          | Some d =>
              let found :=
                match rValues !! rIndex with
                | Some raw =>
                    if (class (element e) =? Class raw) && (etag (element e) =? Tag raw)
                    then Some raw else None
                | None => None
                end in
              match found with
              | Some raw =>
                  do v <- call d (Content raw) (fieldSlot fields e);
                  (* Mark as found and advance raw values index *)
                  let fields' := <[fieldIndex e := v]> fields in
                  (* Remove other options for the matched choice *)
                  let eValues' :=
                    match choice (fopts e) with
                    | Some name => invalidateSiblings eIndex name eValues
                    | None => eValues
                    end in
                  matchLoop n' (S eIndex) eValues' rValues (S rIndex) fields'
              | None =>
                  (* missing *)
                  if optional (fopts e) || negb (isNil (choice (fopts e))) then
                    matchLoop n' (S eIndex) eValues rValues rIndex fields
                  else if negb (isNil (defaultValue (fopts e))) then
                    do v <- setDefaultValue (fieldSlot fields e) (fopts e);
                    matchLoop n' (S eIndex) eValues rValues rIndex
                      (<[fieldIndex e := v]> fields)
                  else
                    Err (parseError (MsgMissingValue (class (element e)) (etag (element e))))
              end
          end
      end
  end.

(** [matchExpectedValues] tries to decode a sequence of raw values
    based on the expected elements. *)
Definition matchExpectedValues (eValues : list expectedFieldElement)
    (rValues : list RawValue) (fields : list Value) : result (list Value) :=
  matchLoop (length eValues) 0 eValues rValues 0 fields.

(** [decodeStruct] decodes struct fields in order. *)
Definition decodeStruct (ctx : Context) (data : list Byte.byte) (value : reflectValue)
  : result Value :=
  do expectedValues <- getExpectedFieldElements ctx value;
  do rawValues <- getRawValuesFromBytes data (length expectedValues);
  do fields <- matchExpectedValues expectedValues rawValues (fieldValues (rvalue value));
  Ok (VStruct fields).

(** [decodeStructAsSet] decodes a struct as an ASN.1 SET. *)
Definition decodeStructAsSet (ctx : Context) (data : list Byte.byte) (value : reflectValue)
  : result Value :=
  (* Get the expected values *)
  do expectedElements <- getExpectedFieldElements ctx value;
  let expectedElements := sort_Sort _ expectedFieldElementSlice_Less expectedElements in
  (* Check duplicated tags *)
  match checkDuplicated expectedElements with
  | Some err => Err err
  | None =>
      (* Get the raw values *)
      do rawValues <- getRawValuesFromBytes data (length expectedElements);
      let rawValues :=
        if negb (decoding (der ctx)) then sort_Sort _ rawValueSlice_Less rawValues
        else rawValues in
      do fields <- matchExpectedValues expectedElements rawValues (fieldValues (rvalue value));
      Ok (VStruct fields)
  end.

(** Main decode function: reads one TLV from [reader] and returns the
    new content of [value] with what is left in the reader. *)
Definition decode (ctx : Context) (reader : list Byte.byte) (value : reflectValue)
    (opts : fieldOptions) : result (Value * list Byte.byte) :=
  (* Parse an ASN.1 element *)
  do (raw, reader') <- decodeRawValue reader;
  if decoding (der ctx) && Indefinite raw then
    Err (parseError MsgIndefiniteInDer)
  else
    do elem <- getExpectedElement ctx raw (rtype value) opts;
    (* And tag must match *)
    if negb (Class raw =? class elem) || negb (Tag raw =? etag elem) then
      Err (parseError (MsgExpectedTag (class elem) (etag elem) (Class raw) (Tag raw)))
    else
      match decoder elem with
      | Some d => do v <- call d (Content raw) value; Ok (v, reader')
      | None => Err (Panic (MsgOther "call of nil function"))
      end.

(** The body of the method [DecodeWithOptions]; [obj] is the value the
    given reference points to ([reflect.ValueOf(obj).Elem()]). *)
Definition decodeWithOptions (ctx : Context) (data : list Byte.byte) (obj : reflectValue)
    (options : string) : result (Value * list Byte.byte) :=
  do opts <- parseOptions options;
  if negb (CanSet obj) then Err (syntaxError MsgReadOnly)
  else decode ctx data obj opts.

(** The loop of [decodeSlice].  Every round of the Go loop consumes
    input, so [length data] rounds are enough; [n] counts them. *)
Fixpoint sliceLoop (n : nat) (ctx : Context) (elemType : GoType)
    (data : list Byte.byte) (slice : list Value) : result (list Value) :=
  match data with
  | [] => Ok slice
  | _ :: _ =>
      match n with
      | O => Err OutOfFuel
      | S n' =>
          do (elem, data') <- decodeWithOptions ctx data (newValue elemType) "";
          sliceLoop n' ctx elemType data' (slice ++ [elem])%list
      end
  end.

(** [decodeSlice] decodes a SET(OF) as a slice. *)
Definition decodeSlice (ctx : Context) (data : list Byte.byte) (value : reflectValue)
  : result Value :=
  match rtype value with
  | TSlice elemType =>
      do slice <- sliceLoop (length data) ctx elemType data [];
      if CanSet value then Ok (VList slice)
      else Err (Panic (MsgOther "reflect: Set using unaddressable value"))
  | _ => Err (Panic (MsgOther "reflect: Elem of invalid type"))
  end.

(** The loop of [decodeArray]: [n] elements left, at index [i]. *)
Fixpoint arrayLoop (n i : nat) (ctx : Context) (value : reflectValue) (elemType : GoType)
    (data : list Byte.byte) (elems : list Value) : result (list Value * list Byte.byte) :=
  match n with
  | O => Ok (elems, data)
  | S n' =>
      if (length data =? 0)%nat then Err (parseError MsgMissingElements)
      else
        do (elem, data') <- decodeWithOptions ctx data (newValue elemType) "";
        if CanSet value then
          arrayLoop n' (S i) ctx value elemType data' (<[i := elem]> elems)
        else Err (Panic (MsgOther "reflect: Set using unaddressable value"))
  end.

(** [decodeArray] decodes a SET(OF) as an array. *)
Definition decodeArray (ctx : Context) (data : list Byte.byte) (value : reflectValue)
  : result Value :=
  match rtype value with
  | TArray len elemType =>
      let elems := match rvalue value with VList l => l | _ => [] end in
      do (elems', data') <- arrayLoop len 0 ctx value elemType data elems;
      if (0 <? length data')%nat then Err (parseError MsgTooManyElements)
      else Ok (VList elems')
  | _ => Err (Panic (MsgOther "reflect: Len of invalid type"))
  end.

End WithCall.

(** [value.Set(x)] for an [x] of type [xType]: panics unless the slot can
    be set and [xType] is assignable to its type. *)
Definition reflectSet (value : reflectValue) (xType : GoType) (x : Value) : result Value :=
  if negb (CanSet value) then
    Err (Panic (MsgOther "reflect: Set using unaddressable value"))
  else
    match rtype value, xType with
    | TInterface, TInterface => Ok x
    | TInterface, _ => Ok (VInterface (Some (xType, x)))
    | t, _ =>
        if GoType_eqb t xType then Ok x
        else Err (Panic (MsgOther "reflect: value is not assignable to type"))
    end.

(** The options as the explicit closure leaves them:
    [opts.explicit = false; opts.tag = nil; opts.application = false]. *)
Definition unsetExplicit (opts : fieldOptions) : fieldOptions :=
  mkFieldOptions (universal opts) false false (indefinite opts) (optional opts)
    (set opts) None (defaultValue opts) (choice opts).

(** Running a decoder function.  [fuel] bounds the nesting of calls. *)
Fixpoint applyDecoder (fuel : nat) (ctx : Context) (d : decoderFunction)
    (data : list Byte.byte) (value : reflectValue) {struct fuel} : result Value :=
  match fuel with
  | O => Err OutOfFuel
  | S fuel' =>
      let call := applyDecoder fuel' ctx in
      match d with
      | PrimitiveDecoder p => primitive p ctx data value
      | StructDecoder => decodeStruct call ctx data value
      | StructAsSetDecoder => decodeStructAsSet call ctx data value
      | ArrayDecoder => decodeArray call ctx data value
      | SliceDecoder => decodeSlice call ctx data value
      | ExplicitDecoder opts =>
          (* Unset previous flags, parse child *)
          do (v, _) <- decode call ctx data value (unsetExplicit opts);
          Ok v
      | ChoiceDecoder entryTyp entryDecoder =>
          (* Allocate a new value and set to the current one *)
          let nestedValue := newValue entryTyp in
          match entryDecoder with
          | Some d' =>
              do v <- call d' data nestedValue;
              reflectSet value entryTyp v
          | None => Err (Panic (MsgOther "call of nil function"))
          end
      end
  end.

(** The methods of [Context] ([decode.go]). *)
Definition Context_DecodeWithOptions (fuel : nat) (ctx : Context) (data : list Byte.byte)
    (obj : reflectValue) (options : string) : result (Value * list Byte.byte) :=
  decodeWithOptions (applyDecoder fuel ctx) ctx data obj options.

Definition Context_Decode (fuel : nat) (ctx : Context) (data : list Byte.byte)
    (obj : reflectValue) : result (Value * list Byte.byte) :=
  Context_DecodeWithOptions fuel ctx data obj "".

(** The package-level facade ([asn1.go]): each call uses a new default
    context.  [Context_EncodeWithOptions] is the encoder method, whose
    body is in another file of the package. *)
Variable Context_EncodeWithOptions : Context -> GoType * Value -> string -> result (list Byte.byte).

Definition Encode (obj : GoType * Value) : result (list Byte.byte) :=
  let ctx := NewContext in
  Context_EncodeWithOptions ctx obj "".

Definition EncodeWithOptions (obj : GoType * Value) (options : string)
  : result (list Byte.byte) :=
  let ctx := NewContext in
  Context_EncodeWithOptions ctx obj options.

Definition Decode (fuel : nat) (data : list Byte.byte) (obj : reflectValue)
  : result (Value * list Byte.byte) :=
  let ctx := NewContext in
  Context_DecodeWithOptions fuel ctx data obj "".

Definition DecodeWithOptions (fuel : nat) (data : list Byte.byte) (obj : reflectValue)
    (options : string) : result (Value * list Byte.byte) :=
  let ctx := NewContext in
  Context_DecodeWithOptions fuel ctx data obj options.

End Engine.

(** ** The matching procedure in the words of the spec

    This definition follows the section of the spec on SEQUENCE
    matching, not the source: the expected elements are scanned in order
    against the raw values with one advancing raw-index;
    - an element that has been invalidated is skipped;
    - an element whose (class, tag) equals the current raw value's has its
      codec invoked, the raw-index advances, and if it belongs to a choice
      group all other siblings in that group are invalidated;
    - otherwise the element is missing: it is skipped if optional or part of
      a choice group, assigned its default if it has one, and else the
      matching fails with ParseError "missing value for (class, tag)". *)

(** [e] belongs to one of the choice groups [groups]. *)
Definition inGroups (groups : list string) (e : expectedFieldElement) : bool :=
  match choice (fopts e) with
  | Some c => existsb (String.eqb c) groups
  | None => false
  end.

(** [groups] are the choice groups of which an alternative has been
    matched: their other siblings are invalidated. *)
Fixpoint sequenceMatching (call : decoderFunction -> list Byte.byte -> reflectValue -> result Value)
    (expected : list expectedFieldElement) (groups : list string)
    (rValues : list RawValue) (rIndex : nat) (fields : list Value) : result (list Value) :=
  match expected with
  | [] => Ok fields
  | e :: rest =>
      match (if inGroups groups e then None else decoder (element e)) with
      | None => sequenceMatching call rest groups rValues rIndex fields
      | Some codec =>
          let current :=
            match rValues !! rIndex with
            | Some raw =>
                if (class (element e) =? Class raw) && (etag (element e) =? Tag raw)
                then Some raw else None
            | None => None
            end in
          match current with
          | Some raw =>
              do v <- call codec (Content raw) (fieldSlot fields e);
              let groups' :=
                match choice (fopts e) with
                | Some name => name :: groups
                | None => groups
                end in
              sequenceMatching call rest groups' rValues (S rIndex)
                (<[fieldIndex e := v]> fields)
          | None =>
              if optional (fopts e) || negb (isNil (choice (fopts e))) then
                sequenceMatching call rest groups rValues rIndex fields
              else if negb (isNil (defaultValue (fopts e))) then
                do v <- setDefaultValue (fieldSlot fields e) (fopts e);
                sequenceMatching call rest groups rValues rIndex
                  (<[fieldIndex e := v]> fields)
              else
                Err (parseError (MsgMissingValue (class (element e)) (etag (element e))))
          end
      end
  end.

(** ** A reference runtime

    The raw TLV reader [decodeRawValue] and the primitive codecs
    ([decodeBool], [decodeInt], ...) are defined in files of the package
    that are not embedded here.  The definitions of this module follow the
    sections of the spec on the wire primitives and on the universal-type
    codecs; the general theorems do not depend on them, they serve to run
    the engine on concrete bytes. *)

Module Reference.

(** The value of a byte. *)
Definition byteZ (b : Byte.byte) : Z := Z.of_N (Byte.to_N b).

(** Modelled from the spec: malformed wire data is a ParseError. *)
Definition malformed (what : string) : error := parseError (MsgOther what).

(** Modelled from the spec: long-form tag number, base-128, big-endian,
    the top bit of every byte but the last is set; the reader fails when
    the continuation does not end before the input does. *)
Fixpoint longTag (acc : Z) (data : list Byte.byte) : result (Z * list Byte.byte) :=
  match data with
  | [] => Err (malformed "malformed tag")
  | b :: rest =>
      let acc' := uint (acc * 128 + Z.land (byteZ b) 127) in
      if Z.testbit (byteZ b) 7 then longTag acc' rest else Ok (acc', rest)
  end.

(** Modelled from the spec: identifier octets, class in the two high bits,
    constructed in bit 5, tag number in the low five bits or in long form
    (a leading long-form byte [0x00] is rejected). *)
Definition decodeIdentifier (data : list Byte.byte)
  : result (Z * Z * bool * list Byte.byte) :=
  match data with
  | [] => Err (malformed "unexpected end of input")
  | b :: rest =>
      let cls := Z.shiftr (byteZ b) 6 in
      let constructed := Z.testbit (byteZ b) 5 in
      let low := Z.land (byteZ b) 31 in
      if low =? 31 then
        match rest with
        | Byte.x00 :: _ => Err (malformed "malformed tag")
        | _ => do (tg, rest') <- longTag 0 rest; Ok (cls, tg, constructed, rest')
        end
      else Ok (cls, low, constructed, rest)
  end.

(** Big-endian value of a byte string. *)
Fixpoint bigEndian (acc : Z) (bs : list Byte.byte) : Z :=
  match bs with
  | [] => acc
  | b :: bs' => bigEndian (acc * 256 + byteZ b) bs'
  end.

(** Modelled from the spec: length octets, short form, long form with 1
    to 126 length bytes, or the indefinite form [0x80]. *)
Definition decodeLength (data : list Byte.byte)
  : result (Z * bool * list Byte.byte) :=
  match data with
  | [] => Err (malformed "unexpected end of input")
  | b :: rest =>
      let l := byteZ b in
      if l <? 128 then Ok (l, false, rest)
      else if l =? 128 then Ok (0, true, rest)
      else
        let n := Z.to_nat (Z.land l 127) in
        if (126 <? n)%nat then Err (malformed "invalid length")
        else if (length rest <? n)%nat then Err (malformed "unexpected end of input")
        else Ok (uint (bigEndian 0 (take n rest)), false, drop n rest)
  end.

(** Modelled from the spec: raw TLV read.  With the indefinite form the
    content is made of the child TLVs up to the end-of-contents octets
    [00 00], and the outer TLV must be constructed. *)
Fixpoint readTLV (fuel : nat) (data : list Byte.byte) {struct fuel}
  : result (RawValue * list Byte.byte) :=
  match fuel with
  | O => Err OutOfFuel
  | S fuel' =>
      do (cls, tg, constructed, data1) <- decodeIdentifier data;
      do (len, indef, data2) <- decodeLength data1;
      if indef then
        if negb constructed then Err (malformed "indefinite length on a primitive value")
        else
          let fix children (n : nat) (data : list Byte.byte) (content : list Byte.byte)
            : result (list Byte.byte * list Byte.byte) :=
            match n with
            | O => Err (malformed "unexpected end of input")
            | S n' =>
                match data with
                | Byte.x00 :: Byte.x00 :: rest => Ok (content, rest)
                | _ =>
                    do (_, rest) <- readTLV fuel' data;
                    children n' rest
                      (content ++ take (length data - length rest) data)%list
                end
            end in
          do (content, rest) <- children (length data2) data2 [];
          Ok (mkRawValue cls tg constructed true content, rest)
      else if (Z.of_nat (length data2) <? len) then Err (malformed "unexpected end of input")
      else Ok (mkRawValue cls tg constructed false (take (Z.to_nat len) data2),
               drop (Z.to_nat len) data2)
  end.

(** Modelled from the spec: the reader, with the nesting bounded by the
    length of the input. *)
Definition decodeRawValue (data : list Byte.byte) : result (RawValue * list Byte.byte) :=
  readTLV (S (length data)) data.

(** Modelled from the spec: two's-complement value of an INTEGER content. *)
Definition twosComplement (data : list Byte.byte) : Z :=
  wrapSigned (8 * Z.of_nat (length data)) (bigEndian 0 data).

(** Modelled from the spec: the leading-byte rule of DER, no redundant
    [0x00] or [0xFF]. *)
Definition redundantLead (data : list Byte.byte) : bool :=
  match data with
  | Byte.x00 :: b :: _ => negb (Z.testbit (byteZ b) 7)
  | Byte.xff :: b :: _ => Z.testbit (byteZ b) 7
  | _ => false
  end.

(** Modelled from the spec: INTEGER content, rejected when empty and,
    under DER, when not minimal. *)
Definition integerContent (der : bool) (data : list Byte.byte) : result Z :=
  match data with
  | [] => Err (malformed "zero-length integer")
  | _ =>
      if der && redundantLead data then Err (malformed "integer not minimally encoded")
      else Ok (twosComplement data)
  end.

(** Assignment to a slot through [reflect]. *)
Definition settable (value : reflectValue) (v : Value) : result Value :=
  if CanSet value then Ok v
  else Err (Panic (MsgOther "reflect: Set using unaddressable value")).

(** Modelled from the spec: the arcs of an OID after the first byte,
    base-128 with continuation bit; a leading [0x80] is not minimal. *)
Fixpoint arcs (n : nat) (data : list Byte.byte) : result (list Z) :=
  match n with
  | O => Err OutOfFuel
  | S n' =>
      match data with
      | [] => Ok []
      | Byte.x80 :: _ => Err (malformed "oid arc not minimally encoded")
      | _ =>
          do (arc, rest) <- longTag 0 data;
          do more <- arcs n' rest;
          Ok (arc :: more)
      end
  end.

(** Modelled from the spec: the primitive codecs of the table of universal
    types.  BOOLEAN: one byte, any non-zero byte is true in BER, [0xFF] in
    DER; INTEGER: rejected when it exceeds the width of the target; OCTET
    STRING: the raw bytes; NULL: the length must be 0; OID: first byte
    [40 * v1 + v2]. *)
Definition primitive (p : primitiveCodec) (ctx : Context) (data : list Byte.byte)
    (value : reflectValue) : result Value :=
  let der := decoding (der ctx) in
  match p with
  | decodeBool =>
      match data with
      | [b] =>
          if der && negb ((byteZ b =? 0) || (byteZ b =? 255))
          then Err (malformed "invalid boolean")
          else settable value (VBool (negb (byteZ b =? 0)))
      | _ => Err (malformed "invalid boolean")
      end
  | decodeInt =>
      do n <- integerContent der data;
      match rtype value with
      | TInt k =>
          if (n <? - 2 ^ (intBits k - 1)) || (2 ^ (intBits k - 1) <=? n)
          then Err (malformed "integer too large")
          else settable value (VInt n)
      | _ => Err (Panic (MsgOther "reflect: SetInt of non-int value"))
      end
  | decodeUint =>
      do n <- integerContent der data;
      match rtype value with
      | TUint k =>
          if (n <? 0) || (2 ^ uintBits k <=? n)
          then Err (malformed "integer too large")
          else settable value (VUint n)
      | _ => Err (Panic (MsgOther "reflect: SetUint of non-uint value"))
      end
  | decodeBigInt =>
      do n <- integerContent der data;
      settable value (VBigInt (Some n))
  | decodeString => settable value (VString data)
  | decodeOctetString =>
      match rtype value with
      | TArray len _ =>
          if (length data =? len)%nat then settable value (VBytes data)
          else Err (malformed "wrong octet string length")
      | _ => settable value (VBytes data)
      end
  | decodeNull =>
      match data with
      | [] => Ok (rvalue value)
      | _ => Err (malformed "null with content")
      end
  | decodeOid =>
      match data with
      | [] => Err (malformed "zero-length oid")
      | _ =>
          do (first, rest) <- longTag 0 data;
          do more <- arcs (S (length rest)) rest;
          let v1 := if first <? 40 then 0 else if first <? 80 then 1 else 2 in
          settable value (VOid (v1 :: (first - 40 * v1) :: more))
      end
  end.

(** Insertion of [x] at the right end of a sorted prefix, kept reversed:
    [x] moves left while it is [Less] than its left neighbour. *)
Fixpoint insertLeft {A : Type} (less : A -> A -> bool) (x : A) (revPrefix : list A) : list A :=
  match revPrefix with
  | [] => [x]
  | y :: rest => if less x y then y :: insertLeft less x rest else x :: revPrefix
  end.

(** [sort.Sort] as the insertion sort the Go library runs on short slices. *)
Definition sort_Sort (A : Type) (less : A -> A -> bool) (l : list A) : list A :=
  rev (fold_left (fun revPrefix x => insertLeft less x revPrefix) l []).

(** A stand-in for the encoder method, which no statement below runs. *)
Definition Context_EncodeWithOptions (ctx : Context) (obj : GoType * Value)
    (options : string) : result (list Byte.byte) :=
  Err (PlainError (MsgOther "encoder not embedded")).

End Reference.

(** * The vocabulary of the statements *)

Definition failsWith {A : Type} (P : error -> bool) (r : result A) : Prop :=
  match r with
  | Ok _ => True
  | Err e => P e = true
  end.

(** The four invariants of an option record. *)
Definition validOptions (opts : fieldOptions) : Prop :=
  (universal opts = true -> tag opts <> None)
  /\ (application opts = true -> tag opts <> None)
  /\ (forall t, tag opts = Some t -> 0 <= t)
  /\ (forall c, choice opts = Some c -> c <> "").

Definition tagInRange (opts : fieldOptions) : Prop :=
  forall t, tag opts = Some t -> GoStrings.minInt <= t <= GoStrings.maxInt.

(** The class the three override tests leave behind when a tag is set. *)
Definition overriddenClass (opts : fieldOptions) : Z :=
  if application opts then ClassApplication
  else if universal opts then ClassUniversal
  else ClassContextSpecific.

Definition intChoiceX : Context :=
  fst (AddChoice NewContext "X" [mkChoice (TInt Int) ""]).

Definition intEntry (t : GoType) : choiceEntry :=
  mkChoiceEntry (mkExpectedElement ClassUniversal TagInteger
                   (Some (PrimitiveDecoder decodeInt))) t zeroOptions.

(** Ascending order of expected elements and of raw values. *)
Definition expectedAscending : list expectedFieldElement -> Prop :=
  StronglySorted (fun a b => expectedFieldElementSlice_Less b a = false).

Definition rawAscending : list RawValue -> Prop :=
  StronglySorted (fun a b => rawValueSlice_Less b a = false).

Definition expectedKey (e : expectedFieldElement) : Z * Z :=
  (class (element e), etag (element e)).

Definition rawKey (raw : RawValue) : Z * Z := (Class raw, Tag raw).

(** An element still takes part in the matching: its decoder is not nil. *)
Definition live (e : expectedFieldElement) : Prop := decoder (element e) <> None.

(** An element that has to be present: neither optional, nor part of a
    choice, nor defaulted. *)
Definition required (e : expectedFieldElement) : Prop :=
  optional (fopts e) = false /\ choice (fopts e) = None /\ defaultValue (fopts e) = None.

(** (class, tag) pairs in ascending order. *)
Definition keyLe (k1 k2 : Z * Z) : Prop := tagLess (fst k2) (snd k2) (fst k1) (snd k1) = false.

(** What the invalidation loop does to the element at index [k] when the
    element at [eIndex] has matched an alternative of the choice [name]. *)
Definition invalidated (eIndex : nat) (name : option string) (k : nat)
    (x : expectedFieldElement) : expectedFieldElement :=
  match name with
  | Some c => if (eIndex <? k)%nat && sameChoice c x then clearDecoder x else x
  | None => x
  end.

(** The current raw TLV has the class and tag of [e]. *)
Definition matches (e : expectedFieldElement) (rValues : list RawValue) (rIndex : nat)
    (raw : RawValue) : Prop :=
  rValues !! rIndex = Some raw
  /\ class (element e) = Class raw /\ etag (element e) = Tag raw.

(** There is no current raw TLV, or it has another class or tag. *)
Definition missing (e : expectedFieldElement) (rValues : list RawValue) (rIndex : nat) : Prop :=
  forall raw, ~ matches e rValues rIndex raw.

(** Two raw values that differ at most in their [Constructed] flag. *)
Definition sameButConstructed (raw1 raw2 : RawValue) : Prop :=
  Class raw1 = Class raw2 /\ Tag raw1 = Tag raw2
  /\ Indefinite raw1 = Indefinite raw2 /\ Content raw1 = Content raw2.

(** The state of an expected element once the groups [groups] are matched. *)
Definition invalidateGroups (groups : list string) (x : expectedFieldElement)
  : expectedFieldElement :=
  if inGroups groups x then clearDecoder x else x.

(** [e] stands for a field of [fields]: it carries the position, the type
    and the parsed annotation of that field. *)
Definition fromField (fields : list (StructField GoType)) (e : expectedFieldElement) : Prop :=
  exists f, fields !! fieldIndex e = Some f
            /\ fieldType e = FieldType f /\ fieldCanSet e = Exported f
            /\ parseOptions (asn1Tag f) = Ok (fopts e).

(** ** Concrete runs with the reference runtime *)

Module Examples.

Import Byte.

Definition derContext : Context := SetDer NewContext true true.

Definition run (fuel : nat) (ctx : Context) :=
  applyDecoder Reference.decodeRawValue Reference.primitive Reference.sort_Sort fuel ctx.

(** [struct { A string; B int }] *)
Definition recordAB : reflectValue :=
  newValue (TStruct [mkStructField "A" true TString ""; mkStructField "B" true (TInt Int) ""]).

(** [struct { A int `asn1:"optional"`; B string }] *)
Definition recordOptAB : reflectValue :=
  newValue (TStruct [mkStructField "A" true (TInt Int) "optional";
                     mkStructField "B" true TString ""]).

(** [struct { A int; B int `asn1:"optional"`; C int `asn1:"default:5"` }] *)
Definition recordABC : reflectValue :=
  newValue (TStruct [mkStructField "A" true (TInt Int) "";
                     mkStructField "B" true (TInt Int) "optional";
                     mkStructField "C" true (TInt Int) "default:5"]).

(** [struct { A int `asn1:"optional"`; B int `asn1:"default:5"` }] *)
Definition recordOptDef : reflectValue :=
  newValue (TStruct [mkStructField "A" true (TInt Int) "optional";
                     mkStructField "B" true (TInt Int) "default:5"]).

(** [struct { A string `asn1:"default:5"` }] *)
Definition recordS : reflectValue :=
  newValue (TStruct [mkStructField "A" true TString "default:5"]).

(** [struct { A string `asn1:"default:5"`; B int }] *)
Definition recordSB : reflectValue :=
  newValue (TStruct [mkStructField "A" true TString "default:5";
                     mkStructField "B" true (TInt Int) ""]).

(** [struct {}] *)
Definition recordEmpty : reflectValue := newValue (TStruct []).

(** [struct { A int; B int }] *)
Definition recordII : reflectValue :=
  newValue (TStruct [mkStructField "A" true (TInt Int) ""; mkStructField "B" true (TInt Int) ""]).

(** The expected elements of a record, [[]] when their enumeration fails. *)
Definition expected (ctx : Context) (value : reflectValue) : list expectedFieldElement :=
  match getExpectedFieldElements ctx value with
  | Ok es => es
  | Err _ => []
  end.

Definition expectedABC : list expectedFieldElement :=
  Eval vm_compute in expected NewContext recordABC.

Definition expectedSB : list expectedFieldElement :=
  Eval vm_compute in expected NewContext recordSB.

(** The OCTET STRING "a" followed by the INTEGER 7: not in ascending tag order. *)
Definition stringThenInt : list byte := [x04; x01; x61; x02; x01; x07].

Definition rawString : RawValue := mkRawValue ClassUniversal TagOctetString false false [x61].
Definition rawInt : RawValue := mkRawValue ClassUniversal TagInteger false false [x07].

End Examples.

(** * The vocabulary of the further properties *)

(** A string all of whose characters satisfy [P]. *)
Fixpoint allOf (P : ascii -> bool) (s : string) : bool :=
  match s with
  | EmptyString => true
  | String c s' => P c && allOf P s'
  end.

(** An annotation made of commas and white space only. *)
Definition blank (s : string) : bool :=
  allOf (fun c => Ascii.eqb c "," || GoStrings.isSpace c) s.

(** Nothing that [opts] sets is unset in [opts']. *)
Definition keeps (opts opts' : fieldOptions) : Prop :=
  (universal opts = true -> universal opts' = true)
  /\ (application opts = true -> application opts' = true)
  /\ (explicit opts = true -> explicit opts' = true)
  /\ (indefinite opts = true -> indefinite opts' = true)
  /\ (optional opts = true -> optional opts' = true)
  /\ (set opts = true -> set opts' = true)
  /\ (tag opts <> None -> tag opts' <> None)
  /\ (defaultValue opts <> None -> defaultValue opts' <> None)
  /\ (choice opts <> None -> choice opts' <> None).

(** The option names [parseOption] has a case for; the empty name is
    ignored. *)
Definition knownOption (name : string) : bool :=
  existsb (String.eqb name)
    [""; "universal"; "application"; "explicit"; "indefinite"; "optional"; "set";
     "tag"; "default"; "choice"].

(** The (class, tag) under which a choice entry is registered. *)
Definition entryKey (entry : choiceEntry) : Z * Z :=
  (class (entryElement entry), etag (entryElement entry)).

(** A decoder function other than the closure installed for a choice. *)
Definition plainDecoder (d : decoderFunction) : bool :=
  match d with ChoiceDecoder _ _ => false | _ => true end.

(** An entry as [AddChoice] builds them: no choice option, and a decoder
    that is not itself the closure of a choice. *)
Definition plainEntry (entry : choiceEntry) : Prop :=
  choice (entryOpts entry) = None
  /\ exists d, decoder (entryElement entry) = Some d /\ plainDecoder d = true.

(** The invariant of the choice registry: no name is bound to an empty
    list, the entries under one name have distinct (class, tag) pairs, and
    every entry is plain. *)
Definition registryOk (ctx : Context) : Prop :=
  forall name entries, choices ctx !! name = Some entries ->
    entries <> [] /\ NoDup (entryKey <$> entries) /\ Forall plainEntry entries.

(** The values of an integer kind of Go. *)
Definition inIntRange (k : IntKind) (n : Z) : Prop :=
  - 2 ^ (intBits k - 1) <= n < 2 ^ (intBits k - 1).

Definition inUintRange (k : UintKind) (n : Z) : Prop :=
  0 <= n < 2 ^ uintBits k.

(** The kinds [setDefaultValue] has a case for. *)
Definition isIntegerType (t : GoType) : bool :=
  match t with TInt _ | TUint _ => true | _ => false end.

(** The types [getUniversalTag] has no case for. *)
Definition unmapped (t : GoType) : bool :=
  match t with TInterface | TUnsupported _ => true | _ => false end.

(** [rs] are the raw values of [data]: what the reader returns when it is
    run again and again on what it has left, until no byte is left. *)
Fixpoint readsAs (decodeRawValue : list Byte.byte -> result (RawValue * list Byte.byte))
    (data : list Byte.byte) (rs : list RawValue) : Prop :=
  match rs with
  | [] => False
  | raw :: rs' =>
      exists rest,
        decodeRawValue data = Ok (raw, rest)
        /\ match rs' with
           | [] => rest = []
           | _ :: _ => rest <> [] /\ readsAs decodeRawValue rest rs'
           end
  end.

(** The end-of-contents octets [00 00] at the head of [data], and what
    follows them. *)
Definition endOfContents (data : list Byte.byte) : option (list Byte.byte) :=
  match data with
  | Byte.x00 :: Byte.x00 :: rest => Some rest
  | _ => None
  end.

(** The loop of the reference reader over the children of an
    indefinite-length value, with the reader of a child as a parameter. *)
Fixpoint childrenUntilEnd (read : list Byte.byte -> result (RawValue * list Byte.byte))
    (n : nat) (data content : list Byte.byte) : result (list Byte.byte * list Byte.byte) :=
  match n with
  | O => Err (Reference.malformed "unexpected end of input")
  | S n' =>
      match endOfContents data with
      | Some rest => Ok (content, rest)
      | None =>
          do (_, rest) <- read data;
          childrenUntilEnd read n' rest (content ++ take (length data - length rest) data)%list
      end
  end.

(** [r'] is the result [r], unless [r] is the failure of a run that was
    cut short by its step counter. *)
Definition refines {A : Type} (r r' : result A) : Prop :=
  r = Err OutOfFuel \/ r = r'.

(** A run that was not cut short by its step counter. *)
Definition completes {A : Type} (r : result A) : Prop := r <> Err OutOfFuel.

(** A decoder function whose choice closure, if it is one, holds a decoder
    that is not a choice closure again. *)
Definition flatDecoder (d : decoderFunction) : bool :=
  match d with
  | ChoiceDecoder _ (Some d') => plainDecoder d'
  | _ => true
  end.

(** The nesting a decoder function needs on [data]: twice the length of
    the input, one more for the call itself and one more for a choice. *)
Definition nesting (d : decoderFunction) (data : list Byte.byte) : nat :=
  2 * length data + (if plainDecoder d then 1 else 2).

(** ** More concrete inputs *)

Module Inputs.

Import Byte.

(** [struct { A int `asn1:"optional"`; B string `asn1:"optional"` }] *)
Definition recordOptional : reflectValue :=
  newValue (TStruct [mkStructField "A" true (TInt Int) "optional";
                     mkStructField "B" true TString "optional"]).

Definition expectedOptional : list expectedFieldElement :=
  Eval vm_compute in Examples.expected NewContext recordOptional.

Definition expectedAB : list expectedFieldElement :=
  Eval vm_compute in Examples.expected NewContext Examples.recordAB.

(** The BOOLEAN true. *)
Definition rawBool : RawValue := mkRawValue ClassUniversal TagBoolean false false [xff].

(** The INTEGER 7 followed by the OCTET STRING "a". *)
Definition intThenString : list byte := [x02; x01; x07; x04; x01; x61].

(** The INTEGERs 1 and 2. *)
Definition twoInts : list byte := [x02; x01; x01; x02; x01; x02].

(** The annotation ["set"]. *)
Definition setOptions : fieldOptions :=
  mkFieldOptions false false false false false true None None None.

End Inputs.

(** ** Matching by position *)

(** Matching by position: every expected element takes the raw value at
    its own position, and a raw value with another class or tag, or none at
    all, is the error of a missing value.  (An element without decoder is
    passed over.) *)
Fixpoint positionalMatching
    (call : decoderFunction -> list Byte.byte -> reflectValue -> result Value)
    (expected : list expectedFieldElement) (rValues : list RawValue) (fields : list Value)
  : result (list Value) :=
  match expected with
  | [] => Ok fields
  | e :: rest =>
      match decoder (element e) with
      | None => positionalMatching call rest rValues fields
      | Some d =>
          match rValues with
          | raw :: rValues' =>
              if (class (element e) =? Class raw) && (etag (element e) =? Tag raw) then
                do v <- call d (Content raw) (fieldSlot fields e);
                positionalMatching call rest rValues' (<[fieldIndex e := v]> fields)
              else Err (parseError (MsgMissingValue (class (element e)) (etag (element e))))
          | [] => Err (parseError (MsgMissingValue (class (element e)) (etag (element e))))
          end
      end
  end.

(** ** The table-driven [parseOptions] ([options.go])

    [options.go] comes in a second version, in which [parseOptions] walks a
    table of option definitions for every token and has no separate
    [validate].  Its messages are kept under the constructors of the
    messages of the first version that carry the same arguments. *)

Module TableDriven.

(** [strings.HasPrefix(s, prefix)], with [s[len(prefix):]] when it holds. *)
Fixpoint cutPrefix (prefix s : string) : option string :=
  match prefix, s with
  | EmptyString, _ => Some s
  | String c prefix', String c' s' => if Ascii.eqb c c' then cutPrefix prefix' s' else None
  | String _ _, EmptyString => None
  end.

(** The field of the record an entry of the table points to ([ptr]); the
    type switches of the loop tell the three pointer types apart. *)
Inductive optionPtr : Type :=
  | BoolPtr (store : bool -> fieldOptions -> fieldOptions)
  | IntPtr (store : option Z -> fieldOptions -> fieldOptions)
  | StringPtr (store : option string -> fieldOptions -> fieldOptions).

Record optionDef : Type := mkOptionDef {
  name : string;
  args : nat;
  ptr : optionPtr
}.

Definition storeUniversal (b : bool) (opts : fieldOptions) : fieldOptions :=
  mkFieldOptions b (application opts) (explicit opts) (indefinite opts) (optional opts)
    (set opts) (tag opts) (defaultValue opts) (choice opts).
Definition storeApplication (b : bool) (opts : fieldOptions) : fieldOptions :=
  mkFieldOptions (universal opts) b (explicit opts) (indefinite opts) (optional opts)
    (set opts) (tag opts) (defaultValue opts) (choice opts).
Definition storeExplicit (b : bool) (opts : fieldOptions) : fieldOptions :=
  mkFieldOptions (universal opts) (application opts) b (indefinite opts) (optional opts)
    (set opts) (tag opts) (defaultValue opts) (choice opts).
Definition storeIndefinite (b : bool) (opts : fieldOptions) : fieldOptions :=
  mkFieldOptions (universal opts) (application opts) (explicit opts) b (optional opts)
    (set opts) (tag opts) (defaultValue opts) (choice opts).
Definition storeOptional (b : bool) (opts : fieldOptions) : fieldOptions :=
  mkFieldOptions (universal opts) (application opts) (explicit opts) (indefinite opts) b
    (set opts) (tag opts) (defaultValue opts) (choice opts).
Definition storeSet (b : bool) (opts : fieldOptions) : fieldOptions :=
  mkFieldOptions (universal opts) (application opts) (explicit opts) (indefinite opts)
    (optional opts) b (tag opts) (defaultValue opts) (choice opts).
Definition storeTag (t : option Z) (opts : fieldOptions) : fieldOptions :=
  mkFieldOptions (universal opts) (application opts) (explicit opts) (indefinite opts)
    (optional opts) (set opts) t (defaultValue opts) (choice opts).
Definition storeDefault (d : option Z) (opts : fieldOptions) : fieldOptions :=
  mkFieldOptions (universal opts) (application opts) (explicit opts) (indefinite opts)
    (optional opts) (set opts) (tag opts) d (choice opts).
Definition storeChoice (c : option string) (opts : fieldOptions) : fieldOptions :=
  mkFieldOptions (universal opts) (application opts) (explicit opts) (indefinite opts)
    (optional opts) (set opts) (tag opts) (defaultValue opts) c.

(** The table [defs]. *)
Definition defs : list optionDef :=
  [ (* Flags *)
    mkOptionDef "universal" 0 (BoolPtr storeUniversal);
    mkOptionDef "application" 0 (BoolPtr storeApplication);
    mkOptionDef "explicit" 0 (BoolPtr storeExplicit);
    mkOptionDef "indefinite" 0 (BoolPtr storeIndefinite);
    mkOptionDef "optional" 0 (BoolPtr storeOptional);
    (* Values *)
    mkOptionDef "set" 0 (BoolPtr storeSet);
    mkOptionDef "tag" 1 (IntPtr storeTag);
    mkOptionDef "default" 1 (IntPtr storeDefault);
    mkOptionDef "choice" 1 (StringPtr storeChoice) ].

(** The loop over the table for one token: [None] when it ends with
    [invalid] still true, else what the entry that matched did. *)
Fixpoint applyDefs (defs : list optionDef) (token : string) (opts : fieldOptions)
  : option (result fieldOptions) :=
  match defs with
  | [] => None
  | opt :: defs' =>
      if (args opt =? 0)%nat then
        if String.eqb token (name opt) then
          match ptr opt with
          | BoolPtr store => Some (Ok (store true opts))
          | _ => Some (Err (Panic (MsgOther "Invalid field option type.")))
          end
        else applyDefs defs' token opts
      else
        match cutPrefix (name opt ++ ":") token with
        | Some value =>
            match ptr opt with
            | IntPtr store =>
                match GoStrings.Atoi value with
                | Some i => Some (Ok (store (Some i) opts))
                | None => Some (Err (syntaxError (MsgInvalidValue value (name opt))))
                end
            | StringPtr store => Some (Ok (store (Some value) opts))
            | BoolPtr _ => Some (Err (Panic (MsgOther "Invalid field option type.")))
            end
        | None => applyDefs defs' token opts
        end
  end.

(** The loop over the comma-separated tokens. *)
Fixpoint parseTokens (opts : fieldOptions) (tokens : list string) : result fieldOptions :=
  match tokens with
  | [] => Ok opts
  | token :: tokens' =>
      let token := GoStrings.TrimSpace token in
      if (String.length token =? 0)%nat then parseTokens opts tokens'
      else
        match applyDefs defs token opts with
        | Some r => do opts' <- r; parseTokens opts' tokens'
        | None => Err (syntaxError (MsgInvalidOption token))
        end
  end.

Definition parseOptions (s : string) : result fieldOptions :=
  do opts <- parseTokens zeroOptions (GoStrings.Split s ",");
  let tagError (class : string) := syntaxError (MsgTagMustBeSpecified class) in
  if universal opts && isNil (tag opts) then Err (tagError "universal")
  else if application opts && isNil (tag opts) then Err (tagError "application")
  else Ok opts.

End TableDriven.

(** An entry of the table whose pointer has the type its case of the loop
    expects. *)
Definition typed (opt : TableDriven.optionDef) : bool :=
  match TableDriven.ptr opt with
  | TableDriven.BoolPtr _ => (TableDriven.args opt =? 0)%nat
  | _ => negb (TableDriven.args opt =? 0)%nat
  end.

(** The pieces of [strings.Split] put together again. *)
Fixpoint join (sep : ascii) (pieces : list string) : string :=
  match pieces with
  | [] => EmptyString
  | [piece] => piece
  | piece :: pieces' => piece ++ String sep (join sep pieces')
  end.

(** A token that is empty or does not start with a colon. *)
Definition named (token : string) : Prop :=
  hd "" (GoStrings.Split (GoStrings.TrimSpace token) ":") = "" ->
  GoStrings.TrimSpace token = "".

(** * Properties *)

(** ** Option records ([options.go]) *)

Lemma bind_failsWith {A B : Type} (P : error -> bool) (r : result A) (k : A -> result B) :
  failsWith P r -> (forall a, r = Ok a -> failsWith P (k a)) -> failsWith P (bind r k).
Proof.
  destruct r as [a|e]; simpl; intros Hr Hk.
  - now apply Hk.
  - exact Hr.
Qed.

Lemma parseBoolOption_syntax args : failsWith isSyntaxError (parseBoolOption args).
Proof. unfold parseBoolOption. now destruct (1 <? length args)%nat. Qed.

Lemma parseIntOption_syntax args : failsWith isSyntaxError (parseIntOption args).
Proof.
  unfold parseIntOption.
  destruct args as [|name [|value [|? ?]]]; simpl; trivial.
  now destruct (GoStrings.Atoi value).
Qed.

Lemma parseStringOption_syntax args : failsWith isSyntaxError (parseStringOption args).
Proof.
  unfold parseStringOption.
  now destruct args as [|name [|value [|? ?]]].
Qed.

Lemma parseOption_syntax opts args : failsWith isSyntaxError (parseOption opts args).
Proof.
  unfold parseOption.
  repeat match goal with
         | |- failsWith _ (if ?c then _ else _) => destruct c
         | |- failsWith _ (bind _ _) => apply bind_failsWith; [|intros; simpl; trivial]
         end;
    simpl; trivial;
    auto using parseBoolOption_syntax, parseIntOption_syntax, parseStringOption_syntax.
Qed.

Lemma parseTokens_syntax tokens : forall opts,
  failsWith isSyntaxError (parseTokens opts tokens).
Proof.
  induction tokens as [|token tokens IH]; intros opts; simpl; trivial.
  apply bind_failsWith; [apply parseOption_syntax | intros; apply IH].
Qed.

Lemma validate_syntax opts err : validate opts = Some err -> isSyntaxError err = true.
Proof.
  unfold validate.
  repeat match goal with
         | |- context [if ?c then _ else _] => destruct c
         end; intros H; inversion H; reflexivity.
Qed.

Lemma validate_valid opts : validate opts = None -> validOptions opts.
Proof.
  unfold validate, validOptions.
  destruct (universal opts), (application opts), (tag opts) as [t|], (choice opts) as [c|];
    simpl; try discriminate;
    try (destruct (Z.ltb_spec t 0); try discriminate);
    try (destruct (String.eqb_spec c ""); try discriminate);
    intros _; repeat split; intros; try congruence; try discriminate.
Qed.

(** C3.  For every annotation string, [parseOptions] either fails with a
    [SyntaxError] or returns an option record in which [universal] and
    [application] come with a tag, a tag is not negative, and a choice name
    is not empty. *)
Theorem parseOptions_validated (s : string) :
  match parseOptions s with
  | Err e => isSyntaxError e = true
  | Ok opts =>
      (universal opts = true -> tag opts <> None)
      /\ (application opts = true -> tag opts <> None)
      /\ (forall t, tag opts = Some t -> 0 <= t)
      /\ (forall c, choice opts = Some c -> c <> "")
  end.
Proof.
  unfold parseOptions.
  pose proof (parseTokens_syntax (GoStrings.Split s ",") zeroOptions) as Htok.
  destruct (parseTokens zeroOptions (GoStrings.Split s ",")) as [opts|e]; simpl in *.
  - destruct (validate opts) as [err|] eqn:Hv.
    + now apply validate_syntax with opts.
    + now apply validate_valid.
  - exact Htok.
Qed.

(** ** The resolver ([decode.go]) *)

Lemma Atoi_range s v : GoStrings.Atoi s = Some v -> GoStrings.minInt <= v <= GoStrings.maxInt.
Proof.
  unfold GoStrings.Atoi.
  match goal with |- context [match ?x with Some _ => _ | None => _ end] => destruct x as [w|] end;
    [|discriminate].
  destruct (Z.leb_spec GoStrings.minInt w), (Z.leb_spec w GoStrings.maxInt);
    simpl; intros Hv; inversion Hv; subst; lia.
Qed.

Lemma parseIntOption_range args t :
  parseIntOption args = Ok (Some t) -> GoStrings.minInt <= t <= GoStrings.maxInt.
Proof.
  unfold parseIntOption.
  destruct args as [|name [|value [|? ?]]]; try discriminate.
  destruct (GoStrings.Atoi value) as [num|] eqn:Ha; [|discriminate].
  intros H; inversion H; subst. now apply Atoi_range with value.
Qed.

Lemma parseIntOption_some args r : parseIntOption args = Ok r -> exists t, r = Some t.
Proof.
  unfold parseIntOption.
  destruct args as [|name [|value [|? ?]]]; try discriminate.
  destruct (GoStrings.Atoi value) as [num|]; [|discriminate].
  intros H; inversion H; eauto.
Qed.

Lemma parseOption_tagInRange opts args opts' :
  tagInRange opts -> parseOption opts args = Ok opts' -> tagInRange opts'.
Proof.
  unfold parseOption, tagInRange. intros Hin.
  repeat match goal with
         | |- context [if ?c then _ else _] => destruct c
         end;
    try (intros H; inversion H; subst; exact Hin);
    try discriminate;
    try (match goal with
         | |- bind ?r _ = _ -> _ => destruct r as [x|] eqn:Hr; simpl; [|discriminate]
         end;
         intros H; inversion H; subst; simpl; try exact Hin).
  intros t Ht; subst. now apply parseIntOption_range with args.
Qed.

Lemma parseTokens_tagInRange tokens : forall opts opts',
  tagInRange opts -> parseTokens opts tokens = Ok opts' -> tagInRange opts'.
Proof.
  induction tokens as [|token tokens IH]; simpl; intros opts opts' Hin H.
  - inversion H; subst; exact Hin.
  - destruct (parseOption opts _) as [o|] eqn:Ho; simpl in H; [|discriminate].
    eapply IH; [|exact H]. eapply parseOption_tagInRange; eauto.
Qed.

Lemma parseOptions_Ok s opts :
  parseOptions s = Ok opts -> validOptions opts /\ tagInRange opts.
Proof.
  intros H. unfold parseOptions in H.
  destruct (parseTokens zeroOptions _) as [o|] eqn:Ht; simpl in H; [|discriminate].
  destruct (validate o) eqn:Hv; inversion H; subst. split.
  - now apply validate_valid.
  - eapply parseTokens_tagInRange; [|exact Ht]. intros t Hz; discriminate.
Qed.

Lemma uint_small t : GoStrings.minInt <= t <= GoStrings.maxInt -> 0 <= t -> uint t = t.
Proof.
  unfold uint, wrapUnsigned, GoStrings.minInt, GoStrings.maxInt. intros [_ Hmax] Hpos.
  apply Z.mod_small. split; [exact Hpos|].
  change (2 ^ 64) with (2 * 2 ^ 63). lia.
Qed.

(** C4, as amended.  For a parsed option record with a tag the resolver
    accepts: unless a choice is dispatched (no [explicit], [choice] set), the
    expected tag is the option tag and the expected class is Application
    with [application], else Universal with [universal], else
    ContextSpecific; when a choice is dispatched, class and tag are those of
    the raw value that selected the alternative. *)
Theorem getExpectedElement_overrides ctx raw elemType s opts elem t :
  parseOptions s = Ok opts ->
  getExpectedElement ctx raw elemType opts = Ok elem ->
  tag opts = Some t ->
  (explicit opts = true \/ choice opts = None ->
   etag elem = t /\ class elem = overriddenClass opts)
  /\ (explicit opts = false -> choice opts <> None ->
      class elem = Class raw /\ etag elem = Tag raw).
Proof.
  intros Hparse Hget Htag.
  destruct (parseOptions_Ok _ _ Hparse) as [(_ & _ & Hpos & _) Hrange].
  assert (Hu : uint t = t) by (apply uint_small; auto).
  unfold getExpectedElement in Hget.
  destruct (getUniversalTag elemType opts) as [u|] eqn:Hu'; simpl in Hget; [|discriminate].
  rewrite Htag in Hget. unfold overriddenClass.
  destruct (explicit opts) eqn:He.
  - split; [intros _|discriminate].
    destruct (universal opts), (application opts); simpl in Hget;
      inversion Hget; subst; simpl; auto.
  - split.
    + intros [Habs|Hc]; [discriminate|]. rewrite Hc in Hget. simpl in Hget.
      destruct (universal opts), (application opts); simpl in Hget;
        destruct (isNil (decoder u)); inversion Hget; subst; simpl; auto.
    + intros _ Hc. destruct (choice opts) as [name|]; [|congruence].
      destruct (getChoiceByTag ctx name (Class raw) (Tag raw)) as [entry|];
        simpl in Hget; inversion Hget; subst; simpl; auto.
Qed.

(** The resolver at two inputs where the override rule read without its
    exceptions fails: with both class flags the class is Application although
    [universal] is set, and with a choice the tag option is not the expected
    tag. *)
Lemma getExpectedElement_overrides_counterexample :
  (exists opts elem,
      parseOptions "universal,application,tag:5" = Ok opts
      /\ getExpectedElement NewContext zeroRawValue (TInt Int) opts = Ok elem
      /\ universal opts = true /\ tag opts = Some 5
      /\ class elem = ClassApplication /\ class elem <> ClassUniversal)
  /\ (exists opts elem,
      parseOptions "choice:X,tag:3" = Ok opts
      /\ getExpectedElement intChoiceX (mkRawValue ClassUniversal TagInteger false false [])
           TInterface opts = Ok elem
      /\ tag opts = Some 3
      /\ class elem = ClassUniversal /\ etag elem = TagInteger
      /\ class elem <> ClassContextSpecific /\ etag elem <> 3).
Proof.
  split.
  - eexists; eexists. split; [reflexivity|]. split; [vm_compute; reflexivity|].
    repeat split; discriminate.
  - eexists; eexists. split; [reflexivity|]. split; [vm_compute; reflexivity|].
    repeat split; discriminate.
Qed.

(** The amended statement at a concrete annotation. *)
Lemma getExpectedElement_overrides_witness :
  exists opts elem,
    parseOptions "application,tag:5" = Ok opts
    /\ getExpectedElement NewContext zeroRawValue (TInt Int) opts = Ok elem
    /\ tag opts = Some 5
    /\ ((explicit opts = true \/ choice opts = None ->
         etag elem = 5 /\ class elem = overriddenClass opts)
        /\ (explicit opts = false -> choice opts <> None ->
            class elem = Class zeroRawValue /\ etag elem = Tag zeroRawValue)).
Proof.
  eexists; eexists.
  split; [reflexivity|]. split; [vm_compute; reflexivity|]. split; [reflexivity|].
  apply (getExpectedElement_overrides NewContext zeroRawValue (TInt Int)
           "application,tag:5" _ _ 5); reflexivity.
Defined.

(** ** The choice registry ([context.go]) *)

(** C5.  Registering a variant whose (class, tag) is already registered
    under the same name fails and leaves the registry as it was; the error
    is the plain value built by [fmt.Errorf], which is not a
    [SyntaxError]. *)
Theorem addChoiceEntry_duplicate (this : Context) (name : string) (entry current : choiceEntry)
    (entries : list choiceEntry) :
  choices this !! name = Some entries ->
  In current entries ->
  class (entryElement current) = class (entryElement entry) ->
  etag (entryElement current) = etag (entryElement entry) ->
  exists err,
    addChoiceEntry this name entry = (this, Some err)
    /\ err = PlainError (MsgChoiceAlreadyRegistered name
                           (class (entryElement entry)) (etag (entryElement entry)))
    /\ isSyntaxError err = false.
Proof.
  intros Hreg Hin Hc Ht. unfold addChoiceEntry. rewrite Hreg. simpl.
  destruct (find _ entries) as [found|] eqn:Hfind.
  - eexists. repeat split.
  - exfalso. pose proof (find_none _ _ Hfind current Hin) as Hnone.
    unfold sameTag in Hnone. rewrite Hc, Ht, !Z.eqb_refl in Hnone. discriminate.
Qed.

(** [AddChoice] on two variants that both resolve to (Universal, INTEGER):
    the second registration fails with the plain error. *)
Lemma AddChoice_duplicate_example :
  snd (AddChoice NewContext "X" [mkChoice (TInt Int) ""; mkChoice (TInt Int64) ""])
  = Some (PlainError (MsgChoiceAlreadyRegistered "X" ClassUniversal TagInteger)).
Proof. vm_compute. reflexivity. Qed.

Lemma addChoiceEntry_duplicate_witness :
  exists err,
    addChoiceEntry intChoiceX "X" (intEntry (TInt Int64)) = (intChoiceX, Some err)
    /\ err = PlainError (MsgChoiceAlreadyRegistered "X" ClassUniversal TagInteger)
    /\ isSyntaxError err = false.
Proof.
  apply (addChoiceEntry_duplicate intChoiceX "X" (intEntry (TInt Int64))
           (intEntry (TInt Int)) [intEntry (TInt Int)]).
  - vm_compute. reflexivity.
  - simpl. left. reflexivity.
  - reflexivity.
  - reflexivity.
Defined.

(** ** Ordering by (class, tag) *)

Lemma tagLess_true c1 t1 c2 t2 :
  tagLess c1 t1 c2 t2 = true <-> c1 < c2 \/ (c1 = c2 /\ t1 < t2).
Proof.
  unfold tagLess.
  destruct (Z.ltb_spec c1 c2), (Z.eqb_spec c1 c2), (Z.ltb_spec t1 t2); simpl;
    split; intros; try discriminate; try reflexivity; lia.
Qed.

Lemma tagLess_false c1 t1 c2 t2 :
  tagLess c1 t1 c2 t2 = false <-> c2 < c1 \/ (c1 = c2 /\ t2 <= t1).
Proof.
  unfold tagLess.
  destruct (Z.ltb_spec c1 c2), (Z.eqb_spec c1 c2), (Z.ltb_spec t1 t2); simpl;
    split; intros; try discriminate; try reflexivity; lia.
Qed.

Lemma tagLess_strictWeakOrder {A : Type} (cls tg : A -> Z) :
  strictWeakOrder (fun a b => tagLess (cls a) (tg a) (cls b) (tg b)).
Proof.
  split.
  - intros x y. rewrite tagLess_true, tagLess_false. lia.
  - intros x y z. rewrite !tagLess_false. lia.
Qed.

Lemma expectedLess_strictWeakOrder : strictWeakOrder expectedFieldElementSlice_Less.
Proof. exact (tagLess_strictWeakOrder (fun e => class (element e)) (fun e => etag (element e))). Qed.

Lemma rawLess_strictWeakOrder : strictWeakOrder rawValueSlice_Less.
Proof. exact (tagLess_strictWeakOrder Class Tag). Qed.

(** The reference [sort_Sort] keeps its promise. *)
Section InsertionSort.

Context {A : Type} (less : A -> A -> bool).

Lemma insertLeft_Permutation x l :
  Permutation (x :: l) (Reference.insertLeft less x l).
Proof.
  induction l as [|y l IH]; simpl; [reflexivity|].
  destruct (less x y); [|reflexivity].
  rewrite perm_swap. now constructor.
Qed.

Lemma fold_insertLeft_Permutation l : forall acc,
  Permutation (rev l ++ acc)
    (fold_left (fun revPrefix x => Reference.insertLeft less x revPrefix) l acc).
Proof.
  induction l as [|x l IH]; intros acc; simpl; [reflexivity|].
  rewrite <- IH, <- insertLeft_Permutation, <- app_assoc. reflexivity.
Qed.

Hypothesis Hless : strictWeakOrder less.

Lemma insertLeft_descending x l :
  StronglySorted (fun a b => less a b = false) l ->
  StronglySorted (fun a b => less a b = false) (Reference.insertLeft less x l).
Proof.
  induction l as [|y l IH]; simpl; intros Hl.
  - repeat constructor.
  - apply StronglySorted_inv in Hl as [Hl Hy].
    destruct (less x y) eqn:Hxy.
    + constructor; [now apply IH|].
      rewrite <- (insertLeft_Permutation x l). constructor; [|exact Hy].
      now apply (less_asym _ Hless).
    + constructor; [now constructor|]. constructor; [exact Hxy|].
      eapply Forall_impl; [exact Hy|]. intros z Hyz. simpl in Hyz.
      exact (less_negtrans _ Hless z y x Hyz Hxy).
Qed.

Lemma fold_insertLeft_descending l : forall acc,
  StronglySorted (fun a b => less a b = false) acc ->
  StronglySorted (fun a b => less a b = false)
    (fold_left (fun revPrefix x => Reference.insertLeft less x revPrefix) l acc).
Proof.
  induction l as [|x l IH]; intros acc Hacc; simpl; [exact Hacc|].
  apply IH. now apply insertLeft_descending.
Qed.

Lemma StronglySorted_rev (R : A -> A -> Prop) l :
  StronglySorted R l -> StronglySorted (fun a b => R b a) (rev l).
Proof.
  induction 1 as [|x l Hl IH Hx]; simpl; [constructor|].
  apply StronglySorted_app_2; [|exact IH|repeat constructor].
  intros a b Ha Hb. apply list_elem_of_singleton in Hb as ->.
  rewrite Forall_forall in Hx. apply Hx.
  apply list_elem_of_In in Ha. apply in_rev in Ha. apply list_elem_of_In. exact Ha.
Qed.

End InsertionSort.

Lemma Reference_sortContract : sortContract Reference.sort_Sort.
Proof.
  intros A less l. unfold Reference.sort_Sort. split.
  - rewrite <- (fold_insertLeft_Permutation less l []), app_nil_r, rev_involutive.
    reflexivity.
  - intros Hless.
    apply (StronglySorted_rev (fun a b => less a b = false)).
    apply fold_insertLeft_descending; [exact Hless|constructor].
Qed.

(** ** SET decoding: duplicated tags *)

Lemma checkDuplicated_error l err :
  checkDuplicated l = Some err -> exists c t, err = SyntaxError (MsgDuplicatedTag c t).
Proof.
  induction l as [|prev [|curr rest] IH]; simpl; try discriminate.
  destruct ((_ =? _) && (_ =? _)).
  - intros H; inversion H; eauto.
  - exact IH.
Qed.

Lemma expectedLess_false a b :
  expectedFieldElementSlice_Less b a = false <->
  class (element a) < class (element b)
  \/ (class (element a) = class (element b) /\ etag (element a) <= etag (element b)).
Proof. unfold expectedFieldElementSlice_Less. rewrite tagLess_false. lia. Qed.

Lemma checkDuplicated_None_NoDup l :
  expectedAscending l -> checkDuplicated l = None -> NoDup (expectedKey <$> l).
Proof.
  unfold expectedAscending.
  induction l as [|prev rest IH]; intros Hs Hc; [constructor|].
  apply StronglySorted_inv in Hs as [Hs Hprev].
  assert (Hrest : checkDuplicated rest = None /\
                  forall curr, head rest = Some curr -> expectedKey curr <> expectedKey prev).
  { destruct rest as [|curr rest']; [split; [reflexivity|discriminate]|].
    simpl in Hc.
    destruct (Z.eqb_spec (class (element curr)) (class (element prev)));
      destruct (Z.eqb_spec (etag (element curr)) (etag (element prev)));
      simpl in Hc; try discriminate;
      (split; [exact Hc|]); intros c Hh; inversion Hh; subst;
      unfold expectedKey; congruence. }
  destruct Hrest as [Hc' Hhead].
  rewrite fmap_cons. constructor; [|now apply IH].
  intros Hin. apply list_elem_of_fmap in Hin as (y & Hky & Hy).
  destruct rest as [|curr rest']; [now apply elem_of_nil in Hy|].
  specialize (Hhead curr eq_refl).
  apply StronglySorted_inv in Hs as [_ Hcurr].
  apply Forall_cons in Hprev as [Hpc Hprev].
  apply expectedLess_false in Hpc.
  assert (Hcy : expectedFieldElementSlice_Less y curr = false \/ y = curr).
  { apply elem_of_cons in Hy as [->|Hy]; [now right|left].
    rewrite Forall_forall in Hcurr. now apply Hcurr. }
  unfold expectedKey in *.
  destruct Hcy as [Hcy| ->]; [|congruence].
  apply expectedLess_false in Hcy.
  inversion Hky as [[Hk1 Hk2]].
  apply Hhead. f_equal; lia.
Qed.

Section SetDuplicates.

Variable decodeRawValue : list Byte.byte -> result (RawValue * list Byte.byte).
Variable sort_Sort : forall A : Type, (A -> A -> bool) -> list A -> list A.
Variable call : decoderFunction -> list Byte.byte -> reflectValue -> result Value.
Hypothesis Hsort : sortContract sort_Sort.

Lemma sorted_expected es :
  Permutation es (sort_Sort _ expectedFieldElementSlice_Less es)
  /\ expectedAscending (sort_Sort _ expectedFieldElementSlice_Less es).
Proof.
  destruct (Hsort _ expectedFieldElementSlice_Less es) as [Hp Hs].
  split; [exact Hp|]. apply Hs, expectedLess_strictWeakOrder.
Qed.

Lemma sorted_raw rs :
  Permutation rs (sort_Sort _ rawValueSlice_Less rs)
  /\ rawAscending (sort_Sort _ rawValueSlice_Less rs).
Proof.
  destruct (Hsort _ rawValueSlice_Less rs) as [Hp Hs].
  split; [exact Hp|]. apply Hs, rawLess_strictWeakOrder.
Qed.

Lemma checkDuplicated_sorted es i j a b :
  es !! i = Some a -> es !! j = Some b -> i <> j -> expectedKey a = expectedKey b ->
  exists c t,
    checkDuplicated (sort_Sort _ expectedFieldElementSlice_Less es)
    = Some (SyntaxError (MsgDuplicatedTag c t)).
Proof.
  intros Hi Hj Hij Hk.
  destruct (sorted_expected es) as [Hp Hs].
  destruct (checkDuplicated _) as [err|] eqn:Hc.
  - destruct (checkDuplicated_error _ _ Hc) as (c & t & ->). eauto.
  - exfalso. apply checkDuplicated_None_NoDup in Hc; [|exact Hs].
    rewrite <- Hp in Hc. apply Hij.
    apply (proj1 (NoDup_alt _) Hc i j (expectedKey a)); rewrite list_lookup_fmap.
    + now rewrite Hi.
    + now rewrite Hj, Hk.
Qed.

(** C6, as amended.  When two expected elements of a SET have the same
    (class, tag), [decodeStructAsSet] fails whatever the input bytes,
    and the error is a [SyntaxError] ("Duplicated tag"). *)
Theorem decodeStructAsSet_duplicated ctx data value es i j a b :
  getExpectedFieldElements ctx value = Ok es ->
  es !! i = Some a -> es !! j = Some b -> i <> j ->
  expectedKey a = expectedKey b ->
  exists c t,
    decodeStructAsSet decodeRawValue sort_Sort call ctx data value
    = Err (SyntaxError (MsgDuplicatedTag c t)).
Proof.
  intros Hes Hi Hj Hij Hk. unfold decodeStructAsSet. rewrite Hes. simpl.
  destruct (checkDuplicated_sorted es i j a b Hi Hj Hij Hk) as (c & t & ->).
  eauto.
Qed.

End SetDuplicates.

(** ** SEQUENCE and SET matching *)

Lemma getExpectedElement_decoder ctx raw elemType opts elem :
  getExpectedElement ctx raw elemType opts = Ok elem -> decoder elem <> None.
Proof.
  unfold getExpectedElement.
  destruct (getUniversalTag elemType opts) as [u|]; simpl; [|discriminate].
  destruct (explicit opts).
  - intros H; inversion H; subst; simpl; discriminate.
  - match goal with |- bind ?r _ = _ -> _ => destruct r as [x|] end; simpl; [|discriminate].
    destruct (decoder x) eqn:Hd; simpl; intros H; inversion H; subst. congruence.
Qed.

Lemma expandChoice_live ctx i f opts entries : forall acc es,
  Forall live acc -> expandChoice ctx i f opts entries acc = Ok es -> Forall live es.
Proof.
  induction entries as [|entry entries IH]; simpl; intros acc es Hacc H.
  - inversion H; subst; exact Hacc.
  - destruct (getExpectedElement _ _ _ _) as [elem|] eqn:He; simpl in H; [|discriminate].
    eapply IH; [|exact H]. apply Forall_app; split; [exact Hacc|].
    constructor; [|constructor]. unfold live; simpl.
    eapply getExpectedElement_decoder; eauto.
Qed.

Lemma fieldLoop_live ctx value fields : forall i acc es,
  Forall live acc -> fieldLoop ctx value i fields acc = Ok es -> Forall live es.
Proof.
  induction fields as [|f fields IH]; simpl; intros i acc es Hacc H.
  - inversion H; subst; exact Hacc.
  - destruct (CanSet value); [|eapply IH; eauto].
    destruct (parseOptions (asn1Tag f)) as [opts|]; simpl in H; [|discriminate].
    destruct (choice opts) as [name|].
    + destruct (getChoices ctx name) as [entries|]; simpl in H; [|discriminate].
      destruct (expandChoice _ _ _ _ _ _) as [acc'|] eqn:Hx; simpl in H; [|discriminate].
      eapply IH; [|exact H]. eapply expandChoice_live; eauto.
    + destruct (getExpectedElement _ _ _ _) as [elem|] eqn:He; simpl in H; [|discriminate].
      eapply IH; [|exact H]. apply Forall_app; split; [exact Hacc|].
      constructor; [|constructor]. unfold live; simpl.
      eapply getExpectedElement_decoder; eauto.
Qed.

Lemma getExpectedFieldElements_live ctx value es :
  getExpectedFieldElements ctx value = Ok es -> Forall live es.
Proof. unfold getExpectedFieldElements. apply fieldLoop_live. constructor. Qed.

Lemma StronglySorted_fmap {A B : Type} (R : B -> B -> Prop) (f : A -> B) l :
  StronglySorted R (f <$> l) <-> StronglySorted (fun x y => R (f x) (f y)) l.
Proof.
  induction l as [|x l IH]; simpl.
  - split; constructor.
  - rewrite !StronglySorted_cons, IH, Forall_fmap. reflexivity.
Qed.

Lemma expectedAscending_keys l : expectedAscending l <-> StronglySorted keyLe (expectedKey <$> l).
Proof. rewrite StronglySorted_fmap. reflexivity. Qed.

Lemma rawAscending_keys l : rawAscending l <-> StronglySorted keyLe (rawKey <$> l).
Proof. rewrite StronglySorted_fmap. reflexivity. Qed.

Section Matching.

Variable decodeRawValue : list Byte.byte -> result (RawValue * list Byte.byte).
Variable sort_Sort : forall A : Type, (A -> A -> bool) -> list A -> list A.
Variable call : decoderFunction -> list Byte.byte -> reflectValue -> result Value.

Lemma rawLoop_length n : forall reader acc rs,
  rawLoop decodeRawValue n reader acc = Ok rs -> (length rs <= length acc + n)%nat.
Proof.
  induction n as [|n IH]; simpl; intros reader acc rs H; [discriminate|].
  destruct (decodeRawValue reader) as [[raw reader']|]; simpl in H; [|discriminate].
  destruct (length reader' =? 0)%nat.
  - inversion H; subst. rewrite length_app. simpl. lia.
  - apply IH in H. rewrite length_app in H. simpl in H. lia.
Qed.

Lemma getRawValuesFromBytes_length data max rs :
  getRawValuesFromBytes decodeRawValue data max = Ok rs -> (length rs <= max)%nat.
Proof. intros H. apply rawLoop_length in H. simpl in H. lia. Qed.

(** When every element from [eIndex] on is live and required, a successful
    run of the loop has matched them one to one with the raw values from
    [rIndex] on. *)
Lemma matchLoop_required eValues rValues n : forall eIndex rIndex fields fields',
  (forall k e, (eIndex <= k)%nat -> eValues !! k = Some e -> live e /\ required e) ->
  (eIndex + n = length eValues)%nat ->
  matchLoop call n eIndex eValues rValues rIndex fields = Ok fields' ->
  forall k, (k < n)%nat ->
    exists e raw, eValues !! (eIndex + k)%nat = Some e
                  /\ rValues !! (rIndex + k)%nat = Some raw
                  /\ expectedKey e = rawKey raw.
Proof.
  induction n as [|n IH]; intros eIndex rIndex fields fields' Hall Hlen Hrun k Hk; [lia|].
  simpl in Hrun.
  destruct (eValues !! eIndex) as [e|] eqn:He;
    [|apply lookup_ge_None in He; lia].
  destruct (Hall eIndex e (Nat.le_refl _) He) as [Hlive (Hopt & Hch & Hdef)].
  unfold live in Hlive.
  destruct (decoder (element e)) as [d|]; [|congruence].
  rewrite Hopt, Hch, Hdef in Hrun. simpl in Hrun.
  destruct (rValues !! rIndex) as [raw|] eqn:Hr; [|discriminate].
  destruct (Z.eqb_spec (class (element e)) (Class raw)) as [Hc|]; [|discriminate].
  destruct (Z.eqb_spec (etag (element e)) (Tag raw)) as [Ht|]; [|discriminate].
  simpl in Hrun.
  destruct (call d (Content raw) (fieldSlot fields e)) as [v|]; simpl in Hrun; [|discriminate].
  destruct k as [|k].
  - exists e, raw. rewrite !Nat.add_0_r. repeat split; auto.
    unfold expectedKey, rawKey. congruence.
  - replace (eIndex + S k)%nat with (S eIndex + k)%nat by lia.
    replace (rIndex + S k)%nat with (S rIndex + k)%nat by lia.
    eapply IH; [| |exact Hrun|lia].
    + intros k' e' Hk' He'. apply (Hall k' e'); [lia|exact He'].
    + lia.
Qed.

Lemma matchExpectedValues_required eValues rValues fields fields' :
  Forall live eValues -> Forall required eValues ->
  (length rValues <= length eValues)%nat ->
  matchExpectedValues call eValues rValues fields = Ok fields' ->
  rawKey <$> rValues = expectedKey <$> eValues.
Proof.
  intros Hlive Hreq Hlen Hrun. unfold matchExpectedValues in Hrun.
  assert (Hk : forall k, (k < length eValues)%nat ->
            exists e raw, eValues !! k = Some e /\ rValues !! k = Some raw
                          /\ expectedKey e = rawKey raw).
  { intros k Hk.
    apply (matchLoop_required eValues rValues (length eValues) 0 0 fields fields'); auto.
    intros i e _ He. rewrite Forall_forall in Hlive, Hreq.
    apply list_elem_of_lookup_2 in He. auto. }
  apply list_eq. intros k. rewrite !list_lookup_fmap.
  destruct (Nat.lt_ge_cases k (length eValues)) as [Hlt|Hge].
  - destruct (Hk k Hlt) as (e & raw & -> & -> & Hkey). simpl. congruence.
  - rewrite (proj2 (lookup_ge_None eValues k)) by lia.
    rewrite (proj2 (lookup_ge_None rValues k)) by lia. reflexivity.
Qed.

End Matching.

Section SetOrder.

Variable decodeRawValue : list Byte.byte -> result (RawValue * list Byte.byte).
Variable sort_Sort : forall A : Type, (A -> A -> bool) -> list A -> list A.
Variable call : decoderFunction -> list Byte.byte -> reflectValue -> result Value.
Hypothesis Hsort : sortContract sort_Sort.

(** C2, as amended.  For a struct decoded as SET whose expected elements
    pass the duplicate check: the expected elements are matched in
    ascending (class, tag) order; in BER mode the raw values are sorted the
    same way before matching, in DER mode they are matched in the
    transmitted order; and a DER SET whose raw values are not in ascending
    order fails when every expected element is required (neither optional,
    nor defaulted, nor part of a choice). *)
Theorem decodeStructAsSet_order ctx data value es rs :
  getExpectedFieldElements ctx value = Ok es ->
  checkDuplicated (sort_Sort _ expectedFieldElementSlice_Less es) = None ->
  getRawValuesFromBytes decodeRawValue data (length es) = Ok rs ->
  (Permutation es (sort_Sort _ expectedFieldElementSlice_Less es)
   /\ expectedAscending (sort_Sort _ expectedFieldElementSlice_Less es))
  /\ (decoding (der ctx) = false ->
      Permutation rs (sort_Sort _ rawValueSlice_Less rs)
      /\ rawAscending (sort_Sort _ rawValueSlice_Less rs)
      /\ decodeStructAsSet decodeRawValue sort_Sort call ctx data value
         = (do fields <- matchExpectedValues call
                           (sort_Sort _ expectedFieldElementSlice_Less es)
                           (sort_Sort _ rawValueSlice_Less rs)
                           (fieldValues (rvalue value));
            Ok (VStruct fields)))
  /\ (decoding (der ctx) = true ->
      decodeStructAsSet decodeRawValue sort_Sort call ctx data value
      = (do fields <- matchExpectedValues call
                        (sort_Sort _ expectedFieldElementSlice_Less es) rs
                        (fieldValues (rvalue value));
         Ok (VStruct fields))
      /\ (Forall required es -> ~ rawAscending rs ->
          exists err,
            decodeStructAsSet decodeRawValue sort_Sort call ctx data value = Err err)).
Proof.
  intros Hes Hdup Hraw.
  destruct (sorted_expected sort_Sort Hsort es) as [Hp Hs].
  assert (Hrun : forall b, decoding (der ctx) = b ->
            decodeStructAsSet decodeRawValue sort_Sort call ctx data value
            = (do fields <- matchExpectedValues call
                              (sort_Sort _ expectedFieldElementSlice_Less es)
                              (if negb b then sort_Sort _ rawValueSlice_Less rs else rs)
                              (fieldValues (rvalue value));
               Ok (VStruct fields))).
  { intros b Hb. unfold decodeStructAsSet. rewrite Hes. simpl. rewrite Hdup.
    rewrite <- (Permutation_length Hp), Hraw. simpl. rewrite Hb. reflexivity. }
  split; [split; assumption|]. split.
  - intros Hber. destruct (sorted_raw sort_Sort Hsort rs) as [Hpr Hsr].
    repeat split; auto. exact (Hrun false Hber).
  - intros Hder. split; [exact (Hrun true Hder)|].
    intros Hreq Hout. rewrite (Hrun true Hder). simpl.
    destruct (matchExpectedValues _ _ _ _) as [fields'|err] eqn:Hm; simpl; [|eauto].
    exfalso. apply Hout.
    apply matchExpectedValues_required in Hm.
    + apply rawAscending_keys. rewrite Hm. now apply expectedAscending_keys.
    + rewrite <- Hp. eapply getExpectedFieldElements_live; eauto.
    + now rewrite <- Hp.
    + rewrite <- (Permutation_length Hp).
      eapply getRawValuesFromBytes_length; eauto.
Qed.

End SetOrder.

Lemma stringThenInt_not_ascending :
  ~ rawAscending [Examples.rawString; Examples.rawInt].
Proof.
  intros H. apply StronglySorted_inv in H as [_ H].
  apply Forall_cons in H as [H _]. vm_compute in H. discriminate.
Qed.

(** A DER SET with an optional field whose TLVs come in descending tag
    order is accepted: the octet string is decoded, the integer that
    follows it is left unmatched. *)
Lemma decodeStructAsSet_order_counterexample :
  decoding (der Examples.derContext) = true
  /\ getRawValuesFromBytes Reference.decodeRawValue Examples.stringThenInt 2
     = Ok [Examples.rawString; Examples.rawInt]
  /\ ~ rawAscending [Examples.rawString; Examples.rawInt]
  /\ decodeStructAsSet Reference.decodeRawValue Reference.sort_Sort
       (Examples.run 3 Examples.derContext) Examples.derContext
       Examples.stringThenInt Examples.recordOptAB
     = Ok (VStruct [VInt 0; VString [Byte.x61]])
  /\ Context_DecodeWithOptions Reference.decodeRawValue Reference.primitive Reference.sort_Sort
       4 Examples.derContext
       (Byte.x31 :: Byte.x06 :: Examples.stringThenInt) Examples.recordOptAB "set"
     = Ok (VStruct [VInt 0; VString [Byte.x61]], []).
Proof.
  split; [reflexivity|]. split; [vm_compute; reflexivity|].
  split; [exact stringThenInt_not_ascending|].
  split; vm_compute; reflexivity.
Qed.

(** The same bytes for a SET whose two fields are both required: the
    amended statement applies and the decoding fails. *)
Lemma decodeStructAsSet_order_witness :
  exists es,
    getExpectedFieldElements Examples.derContext Examples.recordAB = Ok es
    /\ checkDuplicated (Reference.sort_Sort _ expectedFieldElementSlice_Less es) = None
    /\ getRawValuesFromBytes Reference.decodeRawValue Examples.stringThenInt (length es)
       = Ok [Examples.rawString; Examples.rawInt]
    /\ expectedAscending (Reference.sort_Sort _ expectedFieldElementSlice_Less es)
    /\ exists err,
         decodeStructAsSet Reference.decodeRawValue Reference.sort_Sort
           (Examples.run 3 Examples.derContext) Examples.derContext
           Examples.stringThenInt Examples.recordAB = Err err.
Proof.
  eexists. split; [vm_compute; reflexivity|].
  split; [vm_compute; reflexivity|]. split; [vm_compute; reflexivity|].
  edestruct (decodeStructAsSet_order Reference.decodeRawValue Reference.sort_Sort
               (Examples.run 3 Examples.derContext) Reference_sortContract
               Examples.derContext Examples.stringThenInt Examples.recordAB)
    as [[_ Hasc] [_ Hder]].
  - vm_compute. reflexivity.
  - vm_compute. reflexivity.
  - vm_compute. reflexivity.
  - split; [exact Hasc|].
    apply (Hder eq_refl).
    + repeat constructor.
    + exact stringThenInt_not_ascending.
Defined.

(** A SET with two INTEGER fields: the failure is a [SyntaxError], not a
    [ParseError]. *)
Lemma decodeStructAsSet_duplicated_counterexample :
  exists err,
    Context_DecodeWithOptions Reference.decodeRawValue Reference.primitive Reference.sort_Sort
      4 NewContext [Byte.x31; Byte.x06; Byte.x02; Byte.x01; Byte.x01; Byte.x02; Byte.x01; Byte.x02]
      Examples.recordII "set" = Err err
    /\ err = SyntaxError (MsgDuplicatedTag ClassUniversal TagInteger)
    /\ isParseError err = false.
Proof. eexists. split; [vm_compute; reflexivity|]. split; reflexivity. Qed.

Lemma decodeStructAsSet_duplicated_witness :
  exists es a b,
    getExpectedFieldElements NewContext Examples.recordII = Ok es
    /\ es !! 0%nat = Some a /\ es !! 1%nat = Some b /\ expectedKey a = expectedKey b
    /\ exists c t,
         decodeStructAsSet Reference.decodeRawValue Reference.sort_Sort
           (Examples.run 3 NewContext) NewContext [] Examples.recordII
         = Err (SyntaxError (MsgDuplicatedTag c t)).
Proof.
  eexists; eexists; eexists.
  split; [vm_compute; reflexivity|]. split; [reflexivity|]. split; [reflexivity|].
  split; [reflexivity|].
  eapply (decodeStructAsSet_duplicated Reference.decodeRawValue Reference.sort_Sort
            (Examples.run 3 NewContext) Reference_sortContract
            NewContext [] Examples.recordII _ 0%nat 1%nat).
  - vm_compute. reflexivity.
  - reflexivity.
  - reflexivity.
  - discriminate.
  - reflexivity.
Defined.

(** ** SEQUENCE matching, one element at a time *)

Lemma invalidateLoop_lookup n : forall i name eValues k,
  invalidateLoop n i name eValues !! k
  = (fun x => if (i <=? k)%nat && (k <? i + n)%nat && sameChoice name x
              then clearDecoder x else x) <$> eValues !! k.
Proof.
  induction n as [|n IH]; intros i name eValues k; simpl.
  - destruct (eValues !! k) as [x|]; simpl; [|reflexivity].
    destruct (Nat.leb_spec i k), (Nat.ltb_spec k (i + 0)); simpl; try reflexivity; lia.
  - rewrite IH. destruct (Nat.eq_dec k i) as [->|Hne].
    + assert (Hi : ((S i <=? i)%nat && (i <? S i + n)%nat) = false)
        by (destruct (Nat.leb_spec (S i) i); [lia|reflexivity]).
      assert (Hi' : ((i <=? i)%nat && (i <? i + S n)%nat) = true)
        by (destruct (Nat.leb_spec i i), (Nat.ltb_spec i (i + S n)); simpl; lia).
      rewrite Hi', Hi. simpl.
      destruct (eValues !! i) as [c|] eqn:Hc; simpl.
      * destruct (sameChoice name c) eqn:Hs.
        -- rewrite list_lookup_insert_eq by (now apply lookup_lt_Some with c).
           reflexivity.
        -- rewrite Hc. reflexivity.
      * rewrite Hc. reflexivity.
    + assert (Hk : ((S i <=? k)%nat && (k <? S i + n)%nat)
                   = ((i <=? k)%nat && (k <? i + S n)%nat)).
      { destruct (Nat.leb_spec (S i) k), (Nat.ltb_spec k (S i + n)),
          (Nat.leb_spec i k), (Nat.ltb_spec k (i + S n)); simpl; try reflexivity; lia. }
      rewrite Hk.
      destruct (eValues !! i) as [c|]; [|reflexivity].
      destruct (sameChoice name c); [|reflexivity].
      rewrite list_lookup_insert_ne by auto. reflexivity.
Qed.

(** After the invalidation, every element behind [eIndex] that belongs to
    the same choice has a nil decoder; nothing else changes. *)
Lemma invalidateSiblings_lookup eIndex name eValues k :
  invalidateSiblings eIndex name eValues !! k
  = invalidated eIndex (Some name) k <$> eValues !! k.
Proof.
  unfold invalidateSiblings, invalidated. rewrite invalidateLoop_lookup.
  destruct (eValues !! k) as [x|] eqn:Hx; simpl; [|reflexivity].
  apply lookup_lt_Some in Hx.
  replace ((eIndex + 1 <=? k)%nat && (k <? eIndex + 1 + (length eValues - (eIndex + 1)))%nat)
    with (eIndex <? k)%nat; [reflexivity|].
  destruct (Nat.ltb_spec eIndex k), (Nat.leb_spec (eIndex + 1) k),
    (Nat.ltb_spec k (eIndex + 1 + (length eValues - (eIndex + 1)))); simpl;
    try reflexivity; lia.
Qed.

Section Step.

Variable call : decoderFunction -> list Byte.byte -> reflectValue -> result Value.

Lemma matchLoop_skip n eIndex eValues rValues rIndex fields e :
  eValues !! eIndex = Some e -> decoder (element e) = None ->
  matchLoop call (S n) eIndex eValues rValues rIndex fields
  = matchLoop call n (S eIndex) eValues rValues rIndex fields.
Proof. intros He Hd. simpl. rewrite He, Hd. reflexivity. Qed.

Lemma matchLoop_matched n eIndex eValues rValues rIndex fields e d raw :
  eValues !! eIndex = Some e -> decoder (element e) = Some d ->
  matches e rValues rIndex raw ->
  matchLoop call (S n) eIndex eValues rValues rIndex fields
  = (do v <- call d (Content raw) (fieldSlot fields e);
     matchLoop call n (S eIndex)
       (match choice (fopts e) with
        | Some name => invalidateSiblings eIndex name eValues
        | None => eValues
        end) rValues (S rIndex) (<[fieldIndex e := v]> fields)).
Proof.
  intros He Hd (Hr & Hc & Ht). simpl.
  rewrite He, Hd, Hr, Hc, Ht, !Z.eqb_refl. reflexivity.
Qed.

Lemma matchLoop_missing n eIndex eValues rValues rIndex fields e d :
  eValues !! eIndex = Some e -> decoder (element e) = Some d ->
  missing e rValues rIndex ->
  matchLoop call (S n) eIndex eValues rValues rIndex fields
  = if optional (fopts e) || negb (isNil (choice (fopts e))) then
      matchLoop call n (S eIndex) eValues rValues rIndex fields
    else if negb (isNil (defaultValue (fopts e))) then
      (do v <- setDefaultValue (fieldSlot fields e) (fopts e);
       matchLoop call n (S eIndex) eValues rValues rIndex (<[fieldIndex e := v]> fields))
    else Err (ParseError (MsgMissingValue (class (element e)) (etag (element e)))).
Proof.
  intros He Hd Hmiss. simpl. rewrite He, Hd.
  destruct (rValues !! rIndex) as [raw|] eqn:Hr; [|reflexivity].
  destruct (Z.eqb_spec (class (element e)) (Class raw)) as [Hc|]; [|reflexivity].
  destruct (Z.eqb_spec (etag (element e)) (Tag raw)) as [Ht|]; [|reflexivity].
  exfalso. apply (Hmiss raw). repeat split; assumption.
Qed.


(** C7, as amended.  For a field that is not of an integer kind and whose
    annotation sets a default, the SyntaxError "Default value is only
    allowed to integers" is raised by the matching loop, and only when the
    default has to be assigned: the field is missing from the input and is
    neither optional nor part of a choice.  When its TLV is present the
    codec is run and the default plays no part. *)
Theorem matchLoop_default_non_integer n eIndex eValues rValues rIndex fields e d dv :
  eValues !! eIndex = Some e ->
  decoder (element e) = Some d ->
  defaultValue (fopts e) = Some dv ->
  (forall k, fieldType e <> TInt k) -> (forall k, fieldType e <> TUint k) ->
  (missing e rValues rIndex ->
   optional (fopts e) = false -> choice (fopts e) = None ->
   matchLoop call (S n) eIndex eValues rValues rIndex fields
   = Err (SyntaxError MsgDefaultOnlyIntegers))
  /\ (missing e rValues rIndex ->
      optional (fopts e) = true \/ choice (fopts e) <> None ->
      matchLoop call (S n) eIndex eValues rValues rIndex fields
      = matchLoop call n (S eIndex) eValues rValues rIndex fields)
  /\ (forall raw, matches e rValues rIndex raw ->
      matchLoop call (S n) eIndex eValues rValues rIndex fields
      = (do v <- call d (Content raw) (fieldSlot fields e);
         matchLoop call n (S eIndex)
           (match choice (fopts e) with
            | Some name => invalidateSiblings eIndex name eValues
            | None => eValues
            end) rValues (S rIndex) (<[fieldIndex e := v]> fields))).
Proof.
  intros He Hd Hdv Hint Huint. split; [|split].
  - intros Hm Hopt Hch. rewrite (matchLoop_missing _ _ _ _ _ _ _ d He Hd Hm).
    rewrite Hopt, Hch, Hdv. simpl.
    unfold setDefaultValue, fieldSlot. simpl.
    destruct (fieldType e) as [| |k|k| | | | | | | |]; try reflexivity.
    + now destruct (Hint k).
    + now destruct (Huint k).
  - intros Hm Hskip. rewrite (matchLoop_missing _ _ _ _ _ _ _ d He Hd Hm).
    destruct Hskip as [->|Hch]; [reflexivity|].
    destruct (choice (fopts e)); [|congruence].
    simpl. now rewrite orb_true_r.
  - intros raw Hm. now apply matchLoop_matched.
Qed.

End Step.

(** ** The constructed bit *)

Lemma getExpectedElement_sameButConstructed ctx raw1 raw2 elemType opts :
  sameButConstructed raw1 raw2 ->
  getExpectedElement ctx raw1 elemType opts = getExpectedElement ctx raw2 elemType opts.
Proof.
  intros (Hc & Ht & _ & _). unfold getExpectedElement. now rewrite Hc, Ht.
Qed.

Section Constructed.

Variable decodeRawValue : list Byte.byte -> result (RawValue * list Byte.byte).
Variable call : decoderFunction -> list Byte.byte -> reflectValue -> result Value.

Lemma matchLoop_sameButConstructed rValues1 rValues2 n :
  Forall2 sameButConstructed rValues1 rValues2 ->
  forall eIndex eValues rIndex fields,
    matchLoop call n eIndex eValues rValues1 rIndex fields
    = matchLoop call n eIndex eValues rValues2 rIndex fields.
Proof.
  intros Hrs. induction n as [|n IH]; intros eIndex eValues rIndex fields; simpl; [reflexivity|].
  destruct (eValues !! eIndex) as [e|]; [|reflexivity].
  destruct (decoder (element e)) as [d|]; [|apply IH].
  destruct (rValues1 !! rIndex) as [raw1|] eqn:H1.
  - destruct (Forall2_lookup_l _ _ _ _ _ Hrs H1) as (raw2 & -> & Hc & Ht & _ & Hco).
    rewrite Hc, Ht.
    destruct ((_ =? _) && (_ =? _)).
    + rewrite Hco.
      destruct (call d (Content raw2) (fieldSlot fields e)); simpl; [apply IH|reflexivity].
    + repeat match goal with |- context [if ?c then _ else _] => destruct c end;
        try apply IH; try reflexivity.
      destruct (setDefaultValue _ _); simpl; [apply IH|reflexivity].
  - assert (H2 : rValues2 !! rIndex = None).
    { apply lookup_ge_None. apply lookup_ge_None in H1.
      now rewrite <- (Forall2_length _ _ _ Hrs). }
    rewrite H2.
    repeat match goal with |- context [if ?c then _ else _] => destruct c end;
      try apply IH; try reflexivity.
    destruct (setDefaultValue _ _); simpl; [apply IH|reflexivity].
Qed.

(** C8.  The decoder does not look at the constructed bit: when the reader
    returns, for two inputs, raw values that differ at most in their
    [Constructed] flag (and leaves the same rest), [decode] has the same
    outcome on both, value or error; and the matching of a SEQUENCE has the
    same outcome on two lists of raw values that differ at most in those
    flags. *)
Theorem decode_ignores_constructed ctx value opts reader1 reader2 raw1 raw2 rest :
  decodeRawValue reader1 = Ok (raw1, rest) ->
  decodeRawValue reader2 = Ok (raw2, rest) ->
  sameButConstructed raw1 raw2 ->
  decode decodeRawValue call ctx reader1 value opts
  = decode decodeRawValue call ctx reader2 value opts
  /\ (forall eValues rValues1 rValues2 fields,
        Forall2 sameButConstructed rValues1 rValues2 ->
        matchExpectedValues call eValues rValues1 fields
        = matchExpectedValues call eValues rValues2 fields).
Proof.
  intros H1 H2 Hsame. split.
  - unfold decode. rewrite H1, H2. simpl.
    rewrite (getExpectedElement_sameButConstructed ctx raw1 raw2 _ _ Hsame).
    destruct Hsame as (Hc & Ht & Hi & Hco). now rewrite Hc, Ht, Hi, Hco.
  - intros eValues rValues1 rValues2 fields Hrs. unfold matchExpectedValues.
    now apply matchLoop_sameButConstructed.
Qed.

End Constructed.

(** ** Empty content *)

Section EmptyContent.

Variable decodeRawValue : list Byte.byte -> result (RawValue * list Byte.byte).
Variable sort_Sort : forall A : Type, (A -> A -> bool) -> list A -> list A.
Variable call : decoderFunction -> list Byte.byte -> reflectValue -> result Value.

Lemma getRawValuesFromBytes_empty e0 max :
  decodeRawValue [] = Err e0 ->
  getRawValuesFromBytes decodeRawValue [] max
  = Err (if (max =? 0)%nat then ParseError MsgTooManyItems else e0).
Proof.
  intros H0. unfold getRawValuesFromBytes. destruct max as [|max]; simpl; [reflexivity|].
  now rewrite H0.
Qed.

(** C9.  Provided the reader fails on an empty input with some error
    [e0], decoding a SEQUENCE or a SET from empty content octets always
    fails: the raw-value extraction returns ParseError "Too many items"
    when no element is expected and [e0] when at least one is, whatever the
    options of the fields; before that, only an error of the schema itself
    (from the enumeration of the expected elements, or from the duplicate
    check of a SET) can be returned. *)
Theorem decodeStruct_empty ctx value e0 :
  decodeRawValue [] = Err e0 ->
  getRawValuesFromBytes decodeRawValue [] 0 = Err (ParseError MsgTooManyItems)
  /\ (forall max, (0 < max)%nat -> getRawValuesFromBytes decodeRawValue [] max = Err e0)
  /\ (forall es, getExpectedFieldElements ctx value = Ok es ->
        decodeStruct decodeRawValue call ctx [] value
        = Err (if (length es =? 0)%nat then ParseError MsgTooManyItems else e0))
  /\ (forall es, getExpectedFieldElements ctx value = Ok es ->
        checkDuplicated (sort_Sort _ expectedFieldElementSlice_Less es) = None ->
        decodeStructAsSet decodeRawValue sort_Sort call ctx [] value
        = Err (if (length (sort_Sort _ expectedFieldElementSlice_Less es) =? 0)%nat
               then ParseError MsgTooManyItems else e0))
  /\ (exists err, decodeStruct decodeRawValue call ctx [] value = Err err)
  /\ (exists err, decodeStructAsSet decodeRawValue sort_Sort call ctx [] value = Err err).
Proof.
  intros H0.
  assert (Hseq : forall es, getExpectedFieldElements ctx value = Ok es ->
            decodeStruct decodeRawValue call ctx [] value
            = Err (if (length es =? 0)%nat then ParseError MsgTooManyItems else e0)).
  { intros es Hes. unfold decodeStruct. rewrite Hes. simpl.
    now rewrite (getRawValuesFromBytes_empty e0). }
  assert (Hset : forall es, getExpectedFieldElements ctx value = Ok es ->
            checkDuplicated (sort_Sort _ expectedFieldElementSlice_Less es) = None ->
            decodeStructAsSet decodeRawValue sort_Sort call ctx [] value
            = Err (if (length (sort_Sort _ expectedFieldElementSlice_Less es) =? 0)%nat
                   then ParseError MsgTooManyItems else e0)).
  { intros es Hes Hdup. unfold decodeStructAsSet. rewrite Hes. simpl. rewrite Hdup.
    now rewrite (getRawValuesFromBytes_empty e0). }
  split; [reflexivity|]. split.
  { intros max Hmax. rewrite (getRawValuesFromBytes_empty e0) by assumption.
    destruct max; [lia|reflexivity]. }
  split; [exact Hseq|]. split; [exact Hset|]. split.
  - destruct (getExpectedFieldElements ctx value) as [es|err] eqn:Hes.
    + rewrite (Hseq es eq_refl). eauto.
    + unfold decodeStruct. rewrite Hes. simpl. eauto.
  - destruct (getExpectedFieldElements ctx value) as [es|err] eqn:Hes.
    + destruct (checkDuplicated (sort_Sort _ expectedFieldElementSlice_Less es)) as [err|] eqn:Hd.
      * unfold decodeStructAsSet. rewrite Hes. simpl. rewrite Hd. eauto.
      * rewrite (Hset es eq_refl Hd). eauto.
    + unfold decodeStructAsSet. rewrite Hes. simpl. eauto.
Qed.

End EmptyContent.

(** ** The default context ([context.go], [asn1.go]) *)

Lemma addChoiceEntry_der this name entry : der (fst (addChoiceEntry this name entry)) = der this.
Proof. unfold addChoiceEntry. now destruct (find _ _). Qed.

Lemma AddChoice_der name entries : forall ctx, der (fst (AddChoice ctx name entries)) = der ctx.
Proof.
  induction entries as [|e entries IH]; intros ctx; simpl; [reflexivity|].
  destruct (parseOptions (Options e)) as [opts|]; [|reflexivity].
  destruct (choice opts); [reflexivity|].
  destruct (getExpectedElement _ _ _ _) as [elem|]; [|reflexivity].
  pose proof (addChoiceEntry_der ctx name (mkChoiceEntry elem (ChoiceType e) opts)) as Hd.
  destruct (addChoiceEntry _ _ _) as [ctx' [err|]]; simpl in *; [exact Hd|].
  now rewrite IH.
Qed.

Section DefaultContext.

Variable decodeRawValue : list Byte.byte -> result (RawValue * list Byte.byte).
Variable primitive : primitiveCodec -> Context -> list Byte.byte -> reflectValue -> result Value.
Variable sort_Sort : forall A : Type, (A -> A -> bool) -> list A -> list A.
Variable Context_EncodeWithOptions : Context -> GoType * Value -> string -> result (list Byte.byte).
Variable call : decoderFunction -> list Byte.byte -> reflectValue -> result Value.

Lemma decode_ber ctx reader raw rest value opts :
  decoding (der ctx) = false ->
  decodeRawValue reader = Ok (raw, rest) ->
  decode decodeRawValue call ctx reader value opts
  = (do elem <- getExpectedElement ctx raw (rtype value) opts;
     if negb (Class raw =? class elem) || negb (Tag raw =? etag elem) then
       Err (parseError (MsgExpectedTag (class elem) (etag elem) (Class raw) (Tag raw)))
     else
       match decoder elem with
       | Some d => do v <- call d (Content raw) value; Ok (v, rest)
       | None => Err (Panic (MsgOther "call of nil function"))
       end).
Proof. intros Hber Hraw. unfold decode. rewrite Hraw. simpl. now rewrite Hber. Qed.

(** C10.  A context made by [NewContext] has DER switched on for encoding
    and off for decoding; [SetDer] is what changes the flags ([AddChoice]
    leaves them alone); the package-level functions run the methods of a
    new default context; and with DER off for decoding, [decode] does not
    reject the indefinite form: its outcome on a raw value is the same
    whether the raw value is marked indefinite or not, whereas with DER on
    an indefinite raw value is a ParseError. *)
Theorem NewContext_der :
  (encoding (der NewContext) = true /\ decoding (der NewContext) = false)
  /\ (forall ctx e d, encoding (der (SetDer ctx e d)) = e /\ decoding (der (SetDer ctx e d)) = d)
  /\ (forall name entries, der (fst (AddChoice NewContext name entries)) = der NewContext)
  /\ (forall fuel data obj options,
        Decode decodeRawValue primitive sort_Sort fuel data obj
        = Context_DecodeWithOptions decodeRawValue primitive sort_Sort fuel NewContext data obj ""
        /\ DecodeWithOptions decodeRawValue primitive sort_Sort fuel data obj options
           = Context_DecodeWithOptions decodeRawValue primitive sort_Sort fuel NewContext
               data obj options)
  /\ (forall obj options,
        Encode Context_EncodeWithOptions obj = Context_EncodeWithOptions NewContext obj ""
        /\ EncodeWithOptions Context_EncodeWithOptions obj options
           = Context_EncodeWithOptions NewContext obj options)
  /\ (forall ctx reader1 reader2 raw1 raw2 rest value opts,
        decoding (der ctx) = false ->
        decodeRawValue reader1 = Ok (raw1, rest) ->
        decodeRawValue reader2 = Ok (raw2, rest) ->
        Class raw1 = Class raw2 -> Tag raw1 = Tag raw2 -> Content raw1 = Content raw2 ->
        Indefinite raw1 = true -> Indefinite raw2 = false ->
        decode decodeRawValue call ctx reader1 value opts
        = decode decodeRawValue call ctx reader2 value opts)
  /\ (forall ctx reader raw rest value opts,
        decoding (der ctx) = true ->
        decodeRawValue reader = Ok (raw, rest) -> Indefinite raw = true ->
        decode decodeRawValue call ctx reader value opts
        = Err (ParseError MsgIndefiniteInDer)).
Proof.
  split; [split; reflexivity|]. split; [intros; split; reflexivity|].
  split; [intros; apply AddChoice_der|].
  split; [intros; split; reflexivity|]. split; [intros; split; reflexivity|]. split.
  - intros ctx reader1 reader2 raw1 raw2 rest value opts Hber H1 H2 Hc Ht Hco _ _.
    rewrite (decode_ber ctx reader1 raw1 rest value opts Hber H1).
    rewrite (decode_ber ctx reader2 raw2 rest value opts Hber H2).
    assert (Hg : getExpectedElement ctx raw1 (rtype value) opts
                 = getExpectedElement ctx raw2 (rtype value) opts)
      by (unfold getExpectedElement; now rewrite Hc, Ht).
    now rewrite Hg, Hc, Ht, Hco.
  - intros ctx reader raw rest value opts Hder Hraw Hind.
    unfold decode. rewrite Hraw. simpl. now rewrite Hder, Hind.
Qed.

End DefaultContext.

(** ** The theorems at concrete inputs *)


(** A string field with a default whose TLV is present: the record is
    decoded, no SyntaxError is raised at any time. *)
Lemma default_non_integer_counterexample :
  (exists opts, parseOptions "default:5" = Ok opts /\ defaultValue opts = Some 5)
  /\ Decode Reference.decodeRawValue Reference.primitive Reference.sort_Sort 3
       [Byte.x30; Byte.x03; Byte.x04; Byte.x01; Byte.x61] Examples.recordS
     = Ok (VStruct [VString [Byte.x61]], []).
Proof. split; [eexists; split; reflexivity|vm_compute; reflexivity]. Qed.

Lemma matchLoop_default_non_integer_witness :
  getExpectedFieldElements NewContext Examples.recordSB = Ok Examples.expectedSB
  /\ exists e,
      Examples.expectedSB !! 0%nat = Some e
      /\ fieldType e = TString /\ defaultValue (fopts e) = Some 5
      /\ missing e [Examples.rawInt] 0
      /\ matchLoop (Examples.run 1 NewContext) 2 0 Examples.expectedSB [Examples.rawInt] 0
           [VString []; VInt 0]
         = Err (SyntaxError MsgDefaultOnlyIntegers).
Proof.
  split; [vm_compute; reflexivity|].
  eexists. split; [reflexivity|]. split; [reflexivity|]. split; [reflexivity|].
  assert (Hmiss : forall e, Examples.expectedSB !! 0%nat = Some e ->
                            missing e [Examples.rawInt] 0).
  { intros e He raw (Hr & _ & Ht). inversion He; subst. inversion Hr; subst.
    discriminate Ht. }
  split; [exact (Hmiss _ eq_refl)|].
  apply (matchLoop_default_non_integer (Examples.run 1 NewContext) 1 0 Examples.expectedSB
           [Examples.rawInt] 0 [VString []; VInt 0] _ (PrimitiveDecoder decodeString) 5
           eq_refl eq_refl eq_refl);
    try discriminate; try reflexivity; exact (Hmiss _ eq_refl).
Defined.

Lemma decode_ignores_constructed_witness :
  Reference.decodeRawValue [Byte.x02; Byte.x01; Byte.x2a]
  = Ok (mkRawValue ClassUniversal TagInteger false false [Byte.x2a], [])
  /\ Reference.decodeRawValue [Byte.x22; Byte.x01; Byte.x2a]
     = Ok (mkRawValue ClassUniversal TagInteger true false [Byte.x2a], [])
  /\ decode Reference.decodeRawValue (Examples.run 1 NewContext) NewContext
       [Byte.x02; Byte.x01; Byte.x2a] (newValue (TInt Int)) zeroOptions
     = decode Reference.decodeRawValue (Examples.run 1 NewContext) NewContext
         [Byte.x22; Byte.x01; Byte.x2a] (newValue (TInt Int)) zeroOptions.
Proof.
  split; [vm_compute; reflexivity|]. split; [vm_compute; reflexivity|].
  apply (decode_ignores_constructed Reference.decodeRawValue (Examples.run 1 NewContext)
           NewContext (newValue (TInt Int)) zeroOptions
           [Byte.x02; Byte.x01; Byte.x2a] [Byte.x22; Byte.x01; Byte.x2a]
           (mkRawValue ClassUniversal TagInteger false false [Byte.x2a])
           (mkRawValue ClassUniversal TagInteger true false [Byte.x2a]) []).
  - vm_compute. reflexivity.
  - vm_compute. reflexivity.
  - repeat split.
Defined.

Lemma decodeStruct_empty_witness :
  Reference.decodeRawValue [] = Err (ParseError (MsgOther "unexpected end of input"))
  /\ decodeStruct Reference.decodeRawValue (Examples.run 1 NewContext) NewContext []
       Examples.recordOptDef
     = Err (ParseError (MsgOther "unexpected end of input"))
  /\ decodeStruct Reference.decodeRawValue (Examples.run 1 NewContext) NewContext []
       Examples.recordEmpty
     = Err (ParseError MsgTooManyItems).
Proof.
  split; [reflexivity|]. split.
  - destruct (decodeStruct_empty Reference.decodeRawValue Reference.sort_Sort
                (Examples.run 1 NewContext) NewContext Examples.recordOptDef
                (ParseError (MsgOther "unexpected end of input")) eq_refl)
      as (_ & _ & Hseq & _).
    exact (Hseq _ eq_refl).
  - destruct (decodeStruct_empty Reference.decodeRawValue Reference.sort_Sort
                (Examples.run 1 NewContext) NewContext Examples.recordEmpty
                (ParseError (MsgOther "unexpected end of input")) eq_refl)
      as (_ & _ & Hseq & _).
    exact (Hseq [] eq_refl).
Defined.

(** An indefinite-length SEQUENCE is decoded by the default context as its
    definite-length form is. *)
Lemma NewContext_der_witness :
  decode Reference.decodeRawValue (Examples.run 2 NewContext) NewContext
    [Byte.x30; Byte.x80; Byte.x02; Byte.x01; Byte.x07; Byte.x00; Byte.x00]
    Examples.recordABC zeroOptions
  = decode Reference.decodeRawValue (Examples.run 2 NewContext) NewContext
      [Byte.x30; Byte.x03; Byte.x02; Byte.x01; Byte.x07]
      Examples.recordABC zeroOptions.
Proof.
  destruct (NewContext_der Reference.decodeRawValue Reference.primitive Reference.sort_Sort
              Reference.Context_EncodeWithOptions (Examples.run 2 NewContext))
    as (_ & _ & _ & _ & _ & Hber & _).
  apply (Hber NewContext _ _
           (mkRawValue ClassUniversal TagSequence true true [Byte.x02; Byte.x01; Byte.x07])
           (mkRawValue ClassUniversal TagSequence true false [Byte.x02; Byte.x01; Byte.x07])
           []); reflexivity.
Defined.

Lemma Decode_indefinite_example :
  Decode Reference.decodeRawValue Reference.primitive Reference.sort_Sort 3
    [Byte.x30; Byte.x80; Byte.x02; Byte.x01; Byte.x07; Byte.x00; Byte.x00] Examples.recordABC
  = Ok (VStruct [VInt 7; VInt 0; VInt 5], [])
  /\ Context_Decode Reference.decodeRawValue Reference.primitive Reference.sort_Sort 3
       Examples.derContext
       [Byte.x30; Byte.x80; Byte.x02; Byte.x01; Byte.x07; Byte.x00; Byte.x00] Examples.recordABC
     = Err (ParseError MsgIndefiniteInDer).
Proof. split; vm_compute; reflexivity. Qed.

(** ** The matching loop against the matching procedure of the spec *)

Lemma invalidateLoop_length n : forall i name eValues,
  length (invalidateLoop n i name eValues) = length eValues.
Proof.
  induction n as [|n IH]; intros i name eValues; simpl; [reflexivity|].
  rewrite IH. destruct (eValues !! i) as [c|]; [|reflexivity].
  destruct (sameChoice name c); [apply length_insert|reflexivity].
Qed.

Lemma invalidateGroups_cons i k name groups x :
  (i < k)%nat ->
  invalidated i (Some name) k (invalidateGroups groups x) = invalidateGroups (name :: groups) x.
Proof.
  intros Hik. unfold invalidated, invalidateGroups, inGroups, sameChoice.
  apply Nat.ltb_lt in Hik. rewrite Hik.
  destruct x as [el j t c o]; simpl. destruct (choice o) as [c'|] eqn:Hc; simpl.
  - destruct (existsb (String.eqb c') groups); simpl; rewrite ?Hc; simpl;
      destruct (String.eqb c' name); reflexivity.
  - rewrite Hc. reflexivity.
Qed.

Lemma invalidateSiblings_drop eIndex name groups eValues rest :
  drop (S eIndex) eValues = invalidateGroups groups <$> rest ->
  drop (S eIndex) (invalidateSiblings eIndex name eValues)
  = invalidateGroups (name :: groups) <$> rest.
Proof.
  intros Hd. apply list_eq. intros k.
  rewrite list_lookup_fmap, lookup_drop, invalidateSiblings_lookup.
  rewrite <- lookup_drop, Hd, list_lookup_fmap.
  destruct (rest !! k) as [x|]; simpl; [|reflexivity].
  f_equal. apply invalidateGroups_cons. lia.
Qed.

Section Refinement.

Variable call : decoderFunction -> list Byte.byte -> reflectValue -> result Value.

Lemma matchLoop_sequenceMatching n : forall eIndex eValues rest groups rValues rIndex fields,
  (eIndex + n = length eValues)%nat ->
  drop eIndex eValues = invalidateGroups groups <$> rest ->
  matchLoop call n eIndex eValues rValues rIndex fields
  = sequenceMatching call rest groups rValues rIndex fields.
Proof.
  induction n as [|n IH]; intros eIndex eValues rest groups rValues rIndex fields Hlen Hd.
  - rewrite drop_ge in Hd by lia. symmetry in Hd. apply fmap_nil_inv in Hd as ->. reflexivity.
  - destruct (eValues !! eIndex) as [e|] eqn:He;
      [|apply lookup_ge_None in He; lia].
    rewrite (drop_S _ _ _ He) in Hd.
    destruct rest as [|e0 rest0]; [discriminate|].
    rewrite fmap_cons in Hd. inversion Hd as [[Hee Hd']]. clear Hd.
    simpl. rewrite He, Hee.
    assert (Hdec : decoder (element (invalidateGroups groups e0))
                   = if inGroups groups e0 then None else decoder (element e0))
      by (unfold invalidateGroups; now destruct (inGroups groups e0)).
    assert (Hsame : class (element (invalidateGroups groups e0)) = class (element e0)
                    /\ etag (element (invalidateGroups groups e0)) = etag (element e0)
                    /\ fopts (invalidateGroups groups e0) = fopts e0
                    /\ fieldIndex (invalidateGroups groups e0) = fieldIndex e0
                    /\ forall fs, fieldSlot fs (invalidateGroups groups e0) = fieldSlot fs e0)
      by (unfold invalidateGroups; destruct (inGroups groups e0); repeat split).
    destruct Hsame as (Hc & Ht & Ho & Hi & Hs).
    rewrite Hdec, Hc, Ht, Ho, Hi, Hs.
    destruct (if inGroups groups e0 then None else decoder (element e0)) as [d|];
      [|apply IH; [lia|exact Hd']].
    destruct (match rValues !! rIndex with
              | Some raw =>
                  if (class (element e0) =? Class raw) && (etag (element e0) =? Tag raw)
                  then Some raw else None
              | None => None
              end) as [raw|].
    + destruct (call d (Content raw) (fieldSlot fields e0)) as [v|]; simpl; [|reflexivity].
      destruct (choice (fopts e0)) as [name|].
      * apply IH.
        -- unfold invalidateSiblings. rewrite invalidateLoop_length. lia.
        -- now apply invalidateSiblings_drop.
      * apply IH; [lia|exact Hd'].
    + destruct (optional (fopts e0) || negb (isNil (choice (fopts e0))));
        [apply IH; [lia|exact Hd']|].
      destruct (negb (isNil (defaultValue (fopts e0)))); [|reflexivity].
      destruct (setDefaultValue _ _); simpl; [apply IH; [lia|exact Hd']|reflexivity].
Qed.

(** The loop of the source, with its two indices and the decoders it
    clears in place, computes what the matching procedure of the spec
    describes. *)
Lemma matchExpectedValues_sequenceMatching eValues rValues fields :
  matchExpectedValues call eValues rValues fields
  = sequenceMatching call eValues [] rValues 0 fields.
Proof.
  unfold matchExpectedValues. apply matchLoop_sequenceMatching; [reflexivity|].
  simpl. induction eValues as [|x l IH]; [reflexivity|].
  rewrite fmap_cons, <- IH. f_equal.
  unfold invalidateGroups, inGroups. now destruct (choice (fopts x)).
Qed.

End Refinement.

(** ** Expected elements and the fields they come from *)

Lemma expandChoice_fromField ctx all i f opts entries : forall acc es,
  all !! i = Some f -> parseOptions (asn1Tag f) = Ok opts ->
  Forall (fromField all) acc ->
  expandChoice ctx i f opts entries acc = Ok es -> Forall (fromField all) es.
Proof.
  induction entries as [|entry entries IH]; simpl; intros acc es Hi Hp Hacc H.
  - inversion H; subst; exact Hacc.
  - destruct (getExpectedElement _ _ _ _) as [elem|]; simpl in H; [|discriminate].
    eapply (IH _ es Hi Hp); [|exact H]. apply Forall_app; split; [exact Hacc|].
    constructor; [|constructor]. exists f. simpl. auto.
Qed.

Lemma fieldLoop_fromField ctx value all fields : forall i acc es,
  drop i all = fields ->
  Forall (fromField all) acc ->
  fieldLoop ctx value i fields acc = Ok es -> Forall (fromField all) es.
Proof.
  induction fields as [|f fields IH]; simpl; intros i acc es Hd Hacc H.
  - inversion H; subst; exact Hacc.
  - assert (Hi : all !! i = Some f).
    { rewrite <- (Nat.add_0_r i), <- lookup_drop, Hd. reflexivity. }
    assert (Hd' : drop (S i) all = fields).
    { rewrite (drop_S _ _ _ Hi) in Hd. now inversion Hd. }
    destruct (CanSet value); [|eapply IH; eauto].
    destruct (parseOptions (asn1Tag f)) as [opts|] eqn:Hp; simpl in H; [|discriminate].
    destruct (choice opts) as [name|].
    + destruct (getChoices ctx name) as [entries|]; simpl in H; [|discriminate].
      destruct (expandChoice _ _ _ _ _ _) as [acc'|] eqn:Hx; simpl in H; [|discriminate].
      eapply IH; [exact Hd'| |exact H]. eapply expandChoice_fromField; eauto.
    + destruct (getExpectedElement _ _ _ _) as [elem|]; simpl in H; [|discriminate].
      eapply IH; [exact Hd'| |exact H]. apply Forall_app; split; [exact Hacc|].
      constructor; [|constructor]. exists f. simpl. auto.
Qed.

(** Every expected element of a record stands for one of its fields. *)
Lemma getExpectedFieldElements_fromField ctx value es :
  getExpectedFieldElements ctx value = Ok es ->
  Forall (fromField (structFields (rtype value))) es.
Proof.
  unfold getExpectedFieldElements. intros H.
  eapply fieldLoop_fromField; [|constructor|exact H]. reflexivity.
Qed.

(** A SEQUENCE with no content, all of whose fields may be absent, is
    still rejected; so is an empty SEQUENCE for a struct without fields. *)
Lemma Decode_empty_example :
  Decode Reference.decodeRawValue Reference.primitive Reference.sort_Sort 3
    [Byte.x30; Byte.x00] Examples.recordOptDef
  = Err (ParseError (MsgOther "unexpected end of input"))
  /\ Decode Reference.decodeRawValue Reference.primitive Reference.sort_Sort 3
       [Byte.x30; Byte.x00] Examples.recordEmpty
     = Err (ParseError MsgTooManyItems).
Proof. split; vm_compute; reflexivity. Qed.

(** A string field with a default and a missing TLV: the SyntaxError comes
    out of the matching. *)
Lemma Decode_default_string_example :
  Decode Reference.decodeRawValue Reference.primitive Reference.sort_Sort 3
    [Byte.x30; Byte.x03; Byte.x02; Byte.x01; Byte.x07] Examples.recordSB
  = Err (SyntaxError MsgDefaultOnlyIntegers).
Proof. vm_compute. reflexivity. Qed.

(** * Further properties of the code *)

(** ** Annotations ([options.go]) *)

Lemma Split_allOf (P : ascii -> bool) sep s :
  allOf (fun c => Ascii.eqb c sep || P c) s = true ->
  Forall (fun piece => allOf P piece = true) (GoStrings.Split s sep).
Proof.
  induction s as [|c s IH]; simpl; intros H.
  - repeat constructor.
  - apply andb_true_iff in H as [Hc Hs]. specialize (IH Hs).
    destruct (Ascii.eqb c sep); simpl in Hc.
    + constructor; [reflexivity|exact IH].
    + destruct (GoStrings.Split s sep) as [|piece pieces].
      * repeat constructor. simpl. now rewrite Hc.
      * apply Forall_cons in IH as [Hp Hps].
        constructor; [|exact Hps]. simpl. now rewrite Hc, Hp.
Qed.

Lemma TrimSpace_spaces s : allOf GoStrings.isSpace s = true -> GoStrings.TrimSpace s = "".
Proof.
  unfold GoStrings.TrimSpace. induction s as [|c s IH]; simpl; [reflexivity|].
  intros H. apply andb_true_iff in H as [Hc Hs]. rewrite Hc. now apply IH.
Qed.

Lemma parseTokens_spaces tokens : forall opts,
  Forall (fun token => allOf GoStrings.isSpace token = true) tokens ->
  parseTokens opts tokens = Ok opts.
Proof.
  induction tokens as [|token tokens IH]; intros opts H; simpl; [reflexivity|].
  apply Forall_cons in H as [Ht Hts].
  rewrite (TrimSpace_spaces _ Ht). simpl. now apply IH.
Qed.

(** X1.  An annotation that holds nothing but commas and white space (the
    empty annotation among them) sets no option: [parseOptions] returns the
    zero record. *)
Theorem parseOptions_blank (s : string) :
  blank s = true -> parseOptions s = Ok zeroOptions.
Proof.
  intros H. unfold parseOptions.
  rewrite parseTokens_spaces; [reflexivity|].
  now apply Split_allOf.
Qed.

Lemma parseOptions_blank_witness :
  blank " , ,," = true /\ parseOptions " , ,," = Ok zeroOptions.
Proof.
  split; [reflexivity|]. apply (parseOptions_blank " , ,,"). reflexivity.
Defined.

Lemma keeps_refl opts : keeps opts opts.
Proof. unfold keeps. tauto. Qed.

Lemma keeps_trans a b c : keeps a b -> keeps b c -> keeps a c.
Proof. unfold keeps. tauto. Qed.

Lemma parseBoolOption_true args b : parseBoolOption args = Ok b -> b = true.
Proof.
  unfold parseBoolOption. destruct (1 <? length args)%nat; [discriminate|].
  now intros H; inversion H.
Qed.

Lemma parseStringOption_some args r : parseStringOption args = Ok r -> r <> None.
Proof.
  unfold parseStringOption.
  destruct args as [|name [|value [|? ?]]]; try discriminate.
  intros H; inversion H; discriminate.
Qed.

Lemma parseOption_keeps opts args opts' :
  parseOption opts args = Ok opts' -> keeps opts opts'.
Proof.
  unfold parseOption.
  repeat match goal with
         | |- context [if ?c then _ else _] => destruct c
         end;
    try (intros H; inversion H; subst; apply keeps_refl);
    try discriminate;
    match goal with
    | |- bind ?r _ = _ -> _ => destruct r as [x|] eqn:Hr; simpl; [|discriminate]
    end;
    intros H; inversion H; subst; unfold keeps; simpl;
    try (apply parseBoolOption_true in Hr; subst);
    try (apply parseIntOption_some in Hr as [t ->]);
    try (apply parseStringOption_some in Hr);
    repeat split; auto; try discriminate.
Qed.

Lemma parseTokens_keeps tokens : forall opts opts',
  parseTokens opts tokens = Ok opts' -> keeps opts opts'.
Proof.
  induction tokens as [|token tokens IH]; simpl; intros opts opts' H.
  - inversion H; subst. apply keeps_refl.
  - destruct (parseOption opts _) as [o|] eqn:Ho; simpl in H; [|discriminate].
    eapply keeps_trans; [eapply parseOption_keeps; eauto|now apply IH].
Qed.

Lemma Split_not_nil s sep : GoStrings.Split s sep <> [].
Proof.
  destruct s as [|c s]; simpl; [discriminate|].
  destruct (Ascii.eqb c sep); [discriminate|].
  destruct (GoStrings.Split s sep); discriminate.
Qed.

Lemma Split_app s1 s2 sep :
  GoStrings.Split (s1 ++ String sep s2) sep
  = (GoStrings.Split s1 sep ++ GoStrings.Split s2 sep)%list.
Proof.
  induction s1 as [|c s1 IH]; simpl.
  - now rewrite Ascii.eqb_refl.
  - destruct (Ascii.eqb c sep); [now rewrite IH|].
    rewrite IH. pose proof (Split_not_nil s1 sep) as Hne.
    destruct (GoStrings.Split s1 sep); [contradiction|reflexivity].
Qed.

Lemma parseTokens_app tokens1 tokens2 : forall opts,
  parseTokens opts (tokens1 ++ tokens2)
  = (do opts1 <- parseTokens opts tokens1; parseTokens opts1 tokens2).
Proof.
  induction tokens1 as [|token tokens1 IH]; intros opts; simpl; [reflexivity|].
  destruct (parseOption opts _) as [o|]; simpl; [apply IH|reflexivity].
Qed.

(** X2.  No token unsets an option.  When an annotation is accepted, what the
    tokens before any of its commas have set is still set in the record
    that is returned: a flag stays true, and a tag, a default or a choice
    stays present (a later token may replace its value). *)
Theorem parseOptions_keeps (s1 s2 : string) (opts : fieldOptions) :
  parseOptions (s1 ++ String "," s2) = Ok opts ->
  exists opts1,
    parseTokens zeroOptions (GoStrings.Split s1 ",") = Ok opts1 /\ keeps opts1 opts.
Proof.
  unfold parseOptions. rewrite Split_app, parseTokens_app.
  destruct (parseTokens zeroOptions (GoStrings.Split s1 ",")) as [opts1|];
    simpl; [|discriminate].
  destruct (parseTokens opts1 _) as [o|] eqn:H2; simpl; [|discriminate].
  destruct (validate o); intros H; inversion H; subst.
  exists opts1. split; [reflexivity|]. now apply parseTokens_keeps with (GoStrings.Split s2 ",").
Qed.

Lemma parseOptions_keeps_witness :
  exists opts opts1,
    parseOptions ("universal,tag:1" ++ String "," "tag:2") = Ok opts
    /\ parseTokens zeroOptions (GoStrings.Split "universal,tag:1" ",") = Ok opts1
    /\ tag opts1 = Some 1 /\ tag opts = Some 2 /\ keeps opts1 opts.
Proof.
  destruct (parseOptions_keeps "universal,tag:1" "tag:2"
              (mkFieldOptions true false false false false false (Some 2) None None) eq_refl)
    as (opts1 & H1 & Hk).
  eexists; exists opts1. split; [reflexivity|]. split; [exact H1|].
  split; [|split; [reflexivity|exact Hk]].
  vm_compute in H1. now inversion H1.
Defined.

Lemma parseOption_unknown opts args :
  knownOption (hd "" args) = false ->
  parseOption opts args = Err (syntaxError (MsgInvalidOption (hd "" args))).
Proof.
  unfold knownOption, parseOption. simpl. intros H.
  repeat (apply orb_false_iff in H as [-> H]). reflexivity.
Qed.



Lemma validate_complete opts : validOptions opts -> validate opts = None.
Proof.
  unfold validate, validOptions. intros (Hu & Ha & Ht & Hc).
  destruct (universal opts), (application opts), (tag opts) as [t|], (choice opts) as [c|];
    simpl;
    try (exfalso; apply Hu; reflexivity); try (exfalso; apply Ha; reflexivity);
    try (specialize (Ht t eq_refl); destruct (Z.ltb_spec t 0); [lia|]);
    try (specialize (Hc c eq_refl); destruct (String.eqb_spec c ""); [contradiction|]);
    reflexivity.
Qed.

(** [parseOptions] accepts exactly the records its tokens build that
    satisfy the four invariants of [validate]: a record with these
    invariants is never rejected by the validation, and no other check is
    made after the tokens are parsed. *)
Theorem parseOptions_accepts (s : string) (opts : fieldOptions) :
  parseOptions s = Ok opts
  <-> parseTokens zeroOptions (GoStrings.Split s ",") = Ok opts /\ validOptions opts.
Proof.
  unfold parseOptions. split.
  - destruct (parseTokens zeroOptions _) as [o|]; simpl; [|discriminate].
    destruct (validate o) eqn:Hv; intros H; inversion H; subst.
    split; [reflexivity|now apply validate_valid].
  - intros [-> Hv]. simpl. now rewrite (validate_complete _ Hv).
Qed.

(** ** The choice registry, continued ([context.go]) *)

Lemma find_app_None {A : Type} (f : A -> bool) l x :
  List.find f l = None -> List.find f (l ++ [x]) = if f x then Some x else None.
Proof.
  induction l as [|y l IH]; simpl; [reflexivity|].
  destruct (f y); [discriminate|exact IH].
Qed.

Lemma find_app_Some {A : Type} (f : A -> bool) l l' y :
  List.find f l = Some y -> List.find f (l ++ l') = Some y.
Proof.
  induction l as [|z l IH]; simpl; [discriminate|].
  destruct (f z); [trivial|exact IH].
Qed.

Lemma addChoiceEntry_None this name entry ctx' :
  addChoiceEntry this name entry = (ctx', None) ->
  List.find (sameTag (class (entryElement entry)) (etag (entryElement entry)))
    (default [] (choices this !! name)) = None
  /\ ctx' = mkContext (<[name := (default [] (choices this !! name) ++ [entry])%list]>
                         (choices this)) (der this).
Proof.
  unfold addChoiceEntry.
  destruct (List.find _ _) eqn:Hf; intros H; inversion H; subst. split; reflexivity.
Qed.

Lemma addChoiceEntry_getChoices this name entry ctx' :
  addChoiceEntry this name entry = (ctx', None) ->
  getChoices ctx' name = Ok (default [] (choices this !! name) ++ [entry])%list
  /\ (forall other, other <> name -> getChoices ctx' other = getChoices this other).
Proof.
  intros H. apply addChoiceEntry_None in H as [_ ->]. unfold getChoices. simpl. split.
  - now rewrite lookup_insert_eq.
  - intros other Hne. now rewrite lookup_insert_ne by auto.
Qed.

(** X5.  Registration and lookup agree.  After [addChoiceEntry] has accepted
    an entry under a name, [getChoiceByTag] returns that very entry for its
    class and tag, [getChoices] returns the former list with the entry at
    its end, every lookup by tag that succeeded before returns the same
    entry as before, and the lists of the other names are untouched. *)
Theorem addChoiceEntry_lookup (this : Context) (name : string) (entry : choiceEntry)
    (ctx' : Context) :
  addChoiceEntry this name entry = (ctx', None) ->
  getChoiceByTag ctx' name (class (entryElement entry)) (etag (entryElement entry)) = Ok entry
  /\ getChoices ctx' name = Ok (default [] (choices this !! name) ++ [entry])%list
  /\ (forall cls tg e,
        getChoiceByTag this name cls tg = Ok e -> getChoiceByTag ctx' name cls tg = Ok e)
  /\ (forall other, other <> name -> getChoices ctx' other = getChoices this other).
Proof.
  intros H. destruct (addChoiceEntry_getChoices _ _ _ _ H) as [Hget Hother].
  apply addChoiceEntry_None in H as [Hfind _].
  split; [|split; [exact Hget|split; [|exact Hother]]].
  - unfold getChoiceByTag. rewrite Hget. simpl.
    rewrite (find_app_None _ _ _ Hfind). unfold sameTag. now rewrite !Z.eqb_refl.
  - intros cls tg e. unfold getChoiceByTag at 1. unfold getChoices at 1.
    destruct (choices this !! name) as [entries|] eqn:Hreg; simpl in *; [|discriminate].
    destruct (List.find (sameTag cls tg) entries) as [found|] eqn:Hf; [|discriminate].
    intros He; inversion He; subst.
    unfold getChoiceByTag. rewrite Hget. simpl.
    now rewrite (find_app_Some _ _ _ _ Hf).
Qed.

Lemma addChoiceEntry_lookup_witness :
  exists ctx',
    addChoiceEntry intChoiceX "X" (mkChoiceEntry
       (mkExpectedElement ClassUniversal TagBoolean (Some (PrimitiveDecoder decodeBool)))
       TBool zeroOptions) = (ctx', None)
    /\ getChoices ctx' "X"
       = Ok [intEntry (TInt Int);
             mkChoiceEntry
               (mkExpectedElement ClassUniversal TagBoolean (Some (PrimitiveDecoder decodeBool)))
               TBool zeroOptions].
Proof.
  eexists. split; [reflexivity|].
  apply (addChoiceEntry_lookup intChoiceX "X"
           (mkChoiceEntry
              (mkExpectedElement ClassUniversal TagBoolean (Some (PrimitiveDecoder decodeBool)))
              TBool zeroOptions) _ eq_refl).
Defined.

(** X6.  Registering a list of choices is registering its parts one after
    the other, on the same context: when the first part fails, its error is
    the result and what it had registered before failing stays registered;
    otherwise the second part goes on from the context the first one
    left. *)
Theorem AddChoice_app (name : string) (entries1 entries2 : list Choice) : forall ctx,
  AddChoice ctx name (entries1 ++ entries2)
  = match AddChoice ctx name entries1 with
    | (ctx1, None) => AddChoice ctx1 name entries2
    | (ctx1, Some err) => (ctx1, Some err)
    end.
Proof.
  induction entries1 as [|e entries1 IH]; intros ctx; simpl; [reflexivity|].
  destruct (parseOptions (Options e)) as [opts|]; [|reflexivity].
  destruct (choice opts); [reflexivity|].
  destruct (getExpectedElement _ _ _ _) as [elem|]; [|reflexivity].
  destruct (addChoiceEntry _ _ _) as [ctx1 [err|]]; [reflexivity|apply IH].
Qed.

Lemma getUniversalTag_plain objType opts elem :
  getUniversalTag objType opts = Ok elem ->
  forall d, decoder elem = Some d -> plainDecoder d = true.
Proof.
  unfold getUniversalTag.
  destruct objType as [| |k|k|fs|len e|e| | | | |n]; simpl;
    repeat match goal with
           | |- context [if ?c then _ else _] => destruct c; simpl
           end;
    try discriminate;
    intros H; inversion H; subst; simpl; intros d Hd; inversion Hd; reflexivity.
Qed.

Lemma getExpectedElement_plain ctx raw elemType opts elem :
  choice opts = None ->
  getExpectedElement ctx raw elemType opts = Ok elem ->
  exists d, decoder elem = Some d /\ plainDecoder d = true.
Proof.
  intros Hc. unfold getExpectedElement. rewrite Hc.
  destruct (getUniversalTag elemType opts) as [u|] eqn:Hu; simpl; [|discriminate].
  pose proof (getUniversalTag_plain _ _ _ Hu) as Hplain.
  destruct (explicit opts).
  - intros H; inversion H; subst; simpl; eauto.
  - destruct (tag opts), (universal opts), (application opts); simpl;
      destruct (decoder u) as [d|] eqn:Hd; simpl; try discriminate;
      intros H; inversion H; subst; simpl; eauto.
Qed.

Lemma addChoiceEntry_registryOk this name entry ctx' :
  registryOk this -> plainEntry entry ->
  addChoiceEntry this name entry = (ctx', None) -> registryOk ctx'.
Proof.
  intros Hok Hentry H. apply addChoiceEntry_None in H as [Hfind ->].
  intros n entries. simpl. destruct (decide (n = name)) as [->|Hne].
  - rewrite lookup_insert_eq. intros Hl; inversion Hl; subst. clear Hl.
    assert (Hold : NoDup (entryKey <$> default [] (choices this !! name))
                   /\ Forall plainEntry (default [] (choices this !! name))).
    { destruct (choices this !! name) as [old|] eqn:Hreg; simpl.
      - destruct (Hok name old Hreg) as (_ & Hnd & Hall). auto.
      - split; constructor. }
    destruct Hold as [Hnd Hall].
    split; [|split].
    + now destruct (default [] (choices this !! name)).
    + rewrite fmap_app. apply NoDup_app. split; [exact Hnd|]. split.
      * intros k Hk Hk'. simpl in Hk'. apply list_elem_of_singleton in Hk'. subst k.
        apply list_elem_of_fmap in Hk as (y & Hy & Hin).
        apply list_elem_of_In in Hin.
        pose proof (find_none _ _ Hfind y Hin) as Hnone.
        unfold entryKey in Hy. inversion Hy as [[Hc Ht]].
        unfold sameTag in Hnone. rewrite <- Hc, <- Ht, !Z.eqb_refl in Hnone. discriminate.
      * simpl. apply NoDup_singleton.
    + apply Forall_app. split; [exact Hall|]. now constructor.
  - rewrite lookup_insert_ne by auto. apply Hok.
Qed.

(** X7.  [AddChoice] keeps the registry well formed, whether it succeeds or
    stops at an error: no name is bound to an empty list, the entries
    registered under one name have pairwise distinct (class, tag) pairs, and
    every entry has a decoder, which is never the closure of a choice
    (nested choices are refused). *)
Theorem AddChoice_registryOk (name : string) (entries : list Choice) : forall ctx,
  registryOk ctx -> registryOk (fst (AddChoice ctx name entries)).
Proof.
  induction entries as [|e entries IH]; intros ctx Hok; simpl; [exact Hok|].
  destruct (parseOptions (Options e)) as [opts|]; [|exact Hok].
  destruct (choice opts) eqn:Hc; [exact Hok|].
  destruct (getExpectedElement _ _ _ _) as [elem|] eqn:He; [|exact Hok].
  destruct (addChoiceEntry _ _ _) as [ctx1 [err|]] eqn:Ha; simpl.
  - unfold addChoiceEntry in Ha.
    destruct (List.find _ _); inversion Ha; subst. exact Hok.
  - apply IH. eapply addChoiceEntry_registryOk; [exact Hok| |exact Ha].
    split; [exact Hc|]. simpl. eapply getExpectedElement_plain; eauto.
Qed.

Lemma NewContext_registryOk : registryOk NewContext.
Proof. intros name entries H. simpl in H. rewrite lookup_empty in H. discriminate. Qed.

Lemma AddChoice_registryOk_witness :
  registryOk NewContext
  /\ registryOk (fst (AddChoice NewContext "X" [mkChoice (TInt Int) ""; mkChoice TBool "tag:1"])).
Proof.
  split; [exact NewContext_registryOk|].
  apply (AddChoice_registryOk "X" [mkChoice (TInt Int) ""; mkChoice TBool "tag:1"] NewContext).
  exact NewContext_registryOk.
Defined.

(** X8.  What a successful [AddChoice] registers: one entry per [Choice], in
    the order given, appended to the list of the name, each with the type of
    its [Choice] and the options its annotation parses to.  Nothing else
    changes: the other names and the DER flags are as before, and with an
    empty list of choices the context is returned as it was (the name is
    not even bound). *)
Theorem AddChoice_registered (name : string) (entries : list Choice) : forall ctx ctx',
  AddChoice ctx name entries = (ctx', None) ->
  exists added,
    typ <$> added = ChoiceType <$> entries
    /\ Forall2 (fun entry c => parseOptions (Options c) = Ok (entryOpts entry)) added entries
    /\ (entries = [] -> ctx' = ctx)
    /\ (entries <> [] ->
        getChoices ctx' name = Ok (default [] (choices ctx !! name) ++ added)%list)
    /\ (forall other, other <> name -> getChoices ctx' other = getChoices ctx other)
    /\ der ctx' = der ctx.
Proof.
  induction entries as [|e entries IH]; intros ctx ctx' H; simpl in H.
  - inversion H; subst. exists []. repeat split; auto. congruence.
  - destruct (parseOptions (Options e)) as [opts|] eqn:Hp; [|discriminate].
    destruct (choice opts); [discriminate|].
    destruct (getExpectedElement _ _ _ _) as [elem|]; [|discriminate].
    destruct (addChoiceEntry _ _ _) as [ctx1 [err|]] eqn:Ha; [discriminate|].
    destruct (IH _ _ H) as (added & Htyp & Hopts & Hnil & Hcons & Hother & Hder).
    destruct (addChoiceEntry_getChoices _ _ _ _ Ha) as [Hget1 Hother1].
    apply addChoiceEntry_None in Ha as [_ Hctx1].
    exists (mkChoiceEntry elem (ChoiceType e) opts :: added).
    split; [rewrite !fmap_cons, Htyp; reflexivity|]. split; [constructor; [exact Hp|exact Hopts]|].
    split; [discriminate|]. split; [|split].
    + intros _. destruct entries as [|e' entries'].
      * rewrite (Hnil eq_refl). apply Forall2_nil_inv_r in Hopts. subst added. exact Hget1.
      * rewrite Hcons by discriminate.
        unfold getChoices in Hget1.
        destruct (choices ctx1 !! name) as [l|]; inversion Hget1; subst. simpl.
        now rewrite <- app_assoc.
    + intros other Hne. rewrite Hother by exact Hne. now apply Hother1.
    + rewrite Hder, Hctx1. reflexivity.
Qed.

Lemma AddChoice_registered_witness :
  exists ctx' added,
    AddChoice NewContext "X" [mkChoice (TInt Int) ""; mkChoice TBool "tag:1"] = (ctx', None)
    /\ typ <$> added = [TInt Int; TBool]
    /\ getChoices ctx' "X" = Ok added.
Proof.
  destruct (AddChoice_registered "X" [mkChoice (TInt Int) ""; mkChoice TBool "tag:1"]
              NewContext _ eq_refl) as (added & Htyp & _ & _ & Hget & _).
  eexists; exists added. split; [reflexivity|]. split; [exact Htyp|].
  apply Hget. discriminate.
Defined.

Lemma IntKind_eqb_eq a b : IntKind_eqb a b = true <-> a = b.
Proof. destruct a, b; simpl; split; intros H; try reflexivity; discriminate. Qed.

Lemma UintKind_eqb_eq a b : UintKind_eqb a b = true <-> a = b.
Proof. destruct a, b; simpl; split; intros H; try reflexivity; discriminate. Qed.

(** The identity test on types decides equality. *)
Lemma GoType_eqb_eq : forall a b, GoType_eqb a b = true <-> a = b.
Proof.
  fix IH 1. intros a b.
  destruct a as [| |k|k|fs|len e|e| | | | |n]; destruct b as [| |k'|k'|fs'|len' e'|e'| | | | |n'];
    simpl; try (split; [discriminate|intros H; discriminate H]);
    try (split; reflexivity).
  - rewrite IntKind_eqb_eq. split; congruence.
  - rewrite UintKind_eqb_eq. split; congruence.
  - assert (Hfs : (fix fields_eqb (l l' : list (StructField GoType)) : bool :=
                     match l, l' with
                     | [], [] => true
                     | f :: r, f' :: r' =>
                         String.eqb (Name f) (Name f') && Bool.eqb (Exported f) (Exported f')
                         && GoType_eqb (FieldType f) (FieldType f')
                         && String.eqb (asn1Tag f) (asn1Tag f') && fields_eqb r r'
                     | _, _ => false
                     end) fs fs' = true <-> fs = fs').
    { revert fs'. induction fs as [|f r IHr]; intros [|f' r']; simpl;
        try (split; [discriminate|intros H; discriminate H]);
        try (split; reflexivity).
      rewrite !andb_true_iff, IHr, !String.eqb_eq, Bool.eqb_true_iff.
      destruct f as [n x t g], f' as [n' x' t' g']; simpl.
      rewrite (IH t t'). split.
      - intros [[[[-> ->] ->] ->] ->]. reflexivity.
      - intros H; inversion H; subst. auto. }
    rewrite Hfs. split; congruence.
  - rewrite andb_true_iff, Nat.eqb_eq, (IH e e'). split; [intros [-> ->]; reflexivity|].
    intros H; inversion H; auto.
  - rewrite (IH e e'). split; congruence.
  - rewrite String.eqb_eq. split; congruence.
Qed.


(** ** Default values ([asn1.go]) *)

Lemma wrapSigned_range bits z :
  0 < bits -> - 2 ^ (bits - 1) <= wrapSigned bits z < 2 ^ (bits - 1).
Proof.
  intros Hb. unfold wrapSigned.
  assert (Hpow : 2 ^ bits = 2 * 2 ^ (bits - 1)).
  { rewrite <- Z.pow_succ_r by lia. f_equal. lia. }
  assert (Hpos : 0 < 2 ^ (bits - 1)) by (apply Z.pow_pos_nonneg; lia).
  pose proof (Z.mod_pos_bound (z + 2 ^ (bits - 1)) (2 ^ bits)) as Hm. lia.
Qed.

Lemma wrapSigned_mod bits z :
  0 < bits -> wrapSigned bits z mod 2 ^ bits = z mod 2 ^ bits.
Proof.
  intros Hb. unfold wrapSigned.
  rewrite Zminus_mod_idemp_l. f_equal. lia.
Qed.

Lemma wrapSigned_small bits z :
  0 < bits -> - 2 ^ (bits - 1) <= z < 2 ^ (bits - 1) -> wrapSigned bits z = z.
Proof.
  intros Hb Hz. unfold wrapSigned.
  assert (Hpow : 2 ^ bits = 2 * 2 ^ (bits - 1)).
  { rewrite <- Z.pow_succ_r by lia. f_equal. lia. }
  rewrite Z.mod_small by lia. lia.
Qed.

Lemma intBits_divide k : 0 < intBits k /\ (2 ^ intBits k | 2 ^ 64).
Proof.
  split; [destruct k; simpl; lia|].
  exists (2 ^ (64 - intBits k)). rewrite <- Z.pow_add_r by (destruct k; simpl; lia).
  f_equal. lia.
Qed.

Lemma uintBits_divide k : 0 < uintBits k /\ (2 ^ uintBits k | 2 ^ 64).
Proof.
  split; [destruct k; simpl; lia|].
  exists (2 ^ (64 - uintBits k)). rewrite <- Z.pow_add_r by (destruct k; simpl; lia).
  f_equal. lia.
Qed.

(** X10.  The default of an annotation is stored truncated to the width of
    the field, the way a Go conversion does it, and never rejected for its
    size.  For a settable field of a signed kind the stored value is in the
    range of the kind and congruent to the default modulo 2^bits; it is the
    default itself when the default fits.  The same holds for the unsigned
    kinds, so that a negative default wraps around ([default:-1] on a
    [uint8] stores 255). *)
Theorem setDefaultValue_truncates (opts : fieldOptions) (d : Z) (v : Value) :
  defaultValue opts = Some d ->
  (forall k, exists n,
      setDefaultValue (mkReflectValue (TInt k) v true) opts = Ok (VInt n)
      /\ inIntRange k n /\ n mod 2 ^ intBits k = d mod 2 ^ intBits k
      /\ (inIntRange k d -> n = d))
  /\ (forall k, exists n,
        setDefaultValue (mkReflectValue (TUint k) v true) opts = Ok (VUint n)
        /\ inUintRange k n /\ n mod 2 ^ uintBits k = d mod 2 ^ uintBits k
        /\ (inUintRange k d -> n = d)).
Proof.
  intros Hd. split; intros k; eexists; unfold setDefaultValue; simpl; rewrite Hd;
    (split; [reflexivity|]).
  - destruct (intBits_divide k) as [Hpos Hdiv].
    assert (Hmod : wrapSigned (intBits k) (wrapSigned 64 d) mod 2 ^ intBits k
                   = d mod 2 ^ intBits k).
    { rewrite wrapSigned_mod by exact Hpos.
      rewrite <- (Z.mod_mod_divide (wrapSigned 64 d) (2 ^ 64) (2 ^ intBits k)) by exact Hdiv.
      rewrite wrapSigned_mod by lia.
      now apply Z.mod_mod_divide. }
    split; [now apply wrapSigned_range|]. split; [exact Hmod|].
    intros Hfit. unfold inIntRange in Hfit.
    pose proof (wrapSigned_range (intBits k) (wrapSigned 64 d) Hpos) as Hr.
    assert (Hpow : 2 ^ intBits k = 2 * 2 ^ (intBits k - 1)).
    { rewrite <- Z.pow_succ_r by lia. f_equal. lia. }
    assert (Hshift : (wrapSigned (intBits k) (wrapSigned 64 d) + 2 ^ (intBits k - 1))
                       mod 2 ^ intBits k
                     = (d + 2 ^ (intBits k - 1)) mod 2 ^ intBits k).
    { rewrite <- Zplus_mod_idemp_l, Hmod, Zplus_mod_idemp_l. reflexivity. }
    rewrite !Z.mod_small in Hshift by lia. lia.
  - destruct (uintBits_divide k) as [Hpos Hdiv].
    assert (Hmod : wrapUnsigned (uintBits k) (wrapUnsigned 64 d) = d mod 2 ^ uintBits k).
    { unfold wrapUnsigned. now apply Z.mod_mod_divide. }
    rewrite Hmod. unfold inUintRange.
    assert (H2 : 0 < 2 ^ uintBits k) by (apply Z.pow_pos_nonneg; lia).
    split; [apply Z.mod_pos_bound; lia|]. split; [apply Z.mod_mod; lia|].
    intros Hfit. apply Z.mod_small. exact Hfit.
Qed.

Lemma setDefaultValue_truncates_witness :
  parseOptions "default:-1"
  = Ok (mkFieldOptions false false false false false false None (Some (-1)) None)
  /\ exists n,
      setDefaultValue (mkReflectValue (TUint Uint8) (VUint 0) true)
        (mkFieldOptions false false false false false false None (Some (-1)) None)
      = Ok (VUint n)
      /\ inUintRange Uint8 n /\ n mod 2 ^ uintBits Uint8 = (-1) mod 2 ^ uintBits Uint8
      /\ (inUintRange Uint8 (-1) -> n = -1).
Proof.
  split; [reflexivity|].
  apply (setDefaultValue_truncates
           (mkFieldOptions false false false false false false None (Some (-1)) None)
           (-1) (VUint 0) eq_refl).
Defined.

(** X11.  [newDefaultValue] never panics.  It returns a settable value of
    the type asked for; its error is nil unless a default is set for a type
    that is not of an integer kind, in which case the error is the
    SyntaxError of [setDefaultValue] and the value returned next to it is
    the zero value; without a default, or with the default 0, the value is
    the zero value of the type. *)
Theorem newDefaultValue_result (objType : GoType) (opts : fieldOptions) :
  rtype (fst (newDefaultValue objType opts)) = objType
  /\ CanSet (fst (newDefaultValue objType opts)) = true
  /\ (snd (newDefaultValue objType opts) = None
      <-> defaultValue opts = None \/ isIntegerType objType = true)
  /\ (forall err, snd (newDefaultValue objType opts) = Some err ->
        err = SyntaxError MsgDefaultOnlyIntegers
        /\ rvalue (fst (newDefaultValue objType opts)) = zeroValue objType)
  /\ (defaultValue opts = None \/ defaultValue opts = Some 0 ->
      rvalue (fst (newDefaultValue objType opts)) = zeroValue objType).
Proof.
  unfold newDefaultValue, setDefaultValue.
  destruct (defaultValue opts) as [d|] eqn:Hd; simpl.
  - destruct objType as [| |k|k|fs|len e|e| | | | |n]; simpl;
      repeat split; try reflexivity; try discriminate; auto;
      try (intros [H|H]; discriminate H);
      try (intros err H; now inversion H);
      try (intros [H|H]; inversion H; subst; destruct k; reflexivity);
      try (unfold syntaxError in *; congruence).
  - repeat split; auto; discriminate.
Qed.

(** ** The resolver, continued ([decode.go]) *)

(** X12.  The raw value is only a hint for choices, and so is the registry:
    unless a choice is dispatched (a choice option without [explicit]), the
    expected element of a type and an option record is the same for every
    raw value and every context. *)
Theorem getExpectedElement_raw_hint (ctx ctx' : Context) (raw raw' : RawValue)
    (elemType : GoType) (opts : fieldOptions) :
  explicit opts = true \/ choice opts = None ->
  getExpectedElement ctx raw elemType opts = getExpectedElement ctx' raw' elemType opts.
Proof.
  intros H. unfold getExpectedElement.
  destruct (getUniversalTag elemType opts) as [u|]; simpl; [|reflexivity].
  destruct H as [->| ->]; [reflexivity|].
  destruct (explicit opts); reflexivity.
Qed.

Lemma getExpectedElement_raw_hint_witness :
  getExpectedElement intChoiceX Examples.rawString (TInt Int) zeroOptions
  = getExpectedElement NewContext Examples.rawInt (TInt Int) zeroOptions.
Proof.
  apply (getExpectedElement_raw_hint intChoiceX NewContext Examples.rawString Examples.rawInt
           (TInt Int) zeroOptions).
  right. reflexivity.
Defined.

(** X13.  The [set] flag is accepted for the types that map to SEQUENCE and
    for no other: a struct, and an array or a slice whose elements are not
    bytes.  The expected element is then universal with the tag of SET, and
    the decoder is the one of the type ([decodeStructAsSet] for a struct,
    [decodeArray] and [decodeSlice] unchanged).  For every other type the
    flag is a SyntaxError. *)
Theorem getUniversalTag_set (objType : GoType) (opts : fieldOptions) :
  set opts = true ->
  match getUniversalTag objType opts with
  | Ok elem =>
      class elem = ClassUniversal /\ etag elem = TagSet
      /\ ((exists fields, objType = TStruct fields /\ decoder elem = Some StructAsSetDecoder)
          \/ (exists len e, objType = TArray len e /\ isUint8 e = false
                            /\ decoder elem = Some ArrayDecoder)
          \/ (exists e, objType = TSlice e /\ isUint8 e = false
                        /\ decoder elem = Some SliceDecoder))
  | Err err =>
      err = SyntaxError MsgSetNotApplicable
      /\ (forall fields, objType <> TStruct fields)
      /\ (forall len e, objType = TArray len e -> isUint8 e = true)
      /\ (forall e, objType = TSlice e -> isUint8 e = true)
  end.
Proof.
  intros Hset. unfold getUniversalTag. rewrite Hset.
  destruct objType as [| |k|k|fs|len e|e| | | | |n]; simpl;
    try (repeat split; [discriminate|discriminate|discriminate]).
  - repeat split. left. eauto.
  - destruct (isUint8 e) eqn:He; simpl.
    + repeat split; try discriminate. intros len' e' H; inversion H; subst; exact He.
    + repeat split. right; left. eauto.
  - destruct (isUint8 e) eqn:He; simpl.
    + repeat split; try discriminate. intros e' H; inversion H; subst; exact He.
    + repeat split. right; right. eauto.
Qed.

Lemma getUniversalTag_set_witness :
  exists elem,
    getUniversalTag (TSlice (TInt Int))
      (mkFieldOptions false false false false false true None None None) = Ok elem
    /\ etag elem = TagSet.
Proof.
  pose proof (getUniversalTag_set (TSlice (TInt Int))
                (mkFieldOptions false false false false false true None None None) eq_refl) as H.
  eexists. split; [reflexivity|]. exact (proj1 (proj2 H)).
Defined.

(** ** The engine, continued ([decode.go]) *)

Lemma fieldLoop_unsettable ctx value fields : forall i acc,
  CanSet value = false -> fieldLoop ctx value i fields acc = Ok acc.
Proof.
  induction fields as [|f fields IH]; intros i acc Hc; simpl; [reflexivity|].
  rewrite Hc. now apply IH.
Qed.

Lemma StronglySorted_snoc_le (l : list nat) (x : nat) :
  StronglySorted Nat.le l -> Forall (fun y => (y <= x)%nat) l ->
  StronglySorted Nat.le (l ++ [x]).
Proof.
  intros Hs Hall. apply StronglySorted_app_2; [|exact Hs|repeat constructor].
  intros a b Ha Hb. apply list_elem_of_singleton in Hb as ->.
  rewrite Forall_forall in Hall. now apply Hall.
Qed.

Lemma expandChoice_order ctx i f opts entries : forall acc es,
  StronglySorted Nat.le (fieldIndex <$> acc) ->
  Forall (fun e => (fieldIndex e <= i)%nat) acc ->
  expandChoice ctx i f opts entries acc = Ok es ->
  StronglySorted Nat.le (fieldIndex <$> es) /\ Forall (fun e => (fieldIndex e <= i)%nat) es.
Proof.
  induction entries as [|entry entries IH]; simpl; intros acc es Hs Hall H.
  - inversion H; subst. auto.
  - destruct (getExpectedElement _ _ _ _) as [elem|]; simpl in H; [|discriminate].
    eapply IH; [| |exact H].
    + rewrite fmap_app. apply StronglySorted_snoc_le; [exact Hs|].
      now rewrite Forall_fmap.
    + apply Forall_app. split; [exact Hall|]. repeat constructor.
Qed.

Lemma fieldLoop_order ctx value fields : forall i acc es,
  StronglySorted Nat.le (fieldIndex <$> acc) ->
  Forall (fun e => (fieldIndex e <= i)%nat) acc ->
  fieldLoop ctx value i fields acc = Ok es ->
  StronglySorted Nat.le (fieldIndex <$> es).
Proof.
  induction fields as [|f fields IH]; simpl; intros i acc es Hs Hall H.
  - inversion H; subst. exact Hs.
  - assert (Hnext : forall l, Forall (fun e => (fieldIndex e <= i)%nat) l ->
                              Forall (fun e => (fieldIndex e <= S i)%nat) l).
    { intros l Hl. eapply Forall_impl; [exact Hl|]. intros e He. simpl in He. lia. }
    destruct (CanSet value); [|eapply IH; [exact Hs|apply Hnext, Hall|exact H]].
    destruct (parseOptions (asn1Tag f)) as [opts|]; simpl in H; [|discriminate].
    destruct (choice opts) as [name|].
    + destruct (getChoices ctx name) as [entries|]; simpl in H; [|discriminate].
      destruct (expandChoice _ _ _ _ _ _) as [acc'|] eqn:Hx; simpl in H; [|discriminate].
      destruct (expandChoice_order _ _ _ _ _ _ _ Hs Hall Hx) as [Hs' Hall'].
      eapply IH; [exact Hs'|apply Hnext, Hall'|exact H].
    + destruct (getExpectedElement _ _ _ _) as [elem|]; simpl in H; [|discriminate].
      eapply IH; [| |exact H].
      * rewrite fmap_app. apply StronglySorted_snoc_le; [exact Hs|].
        now rewrite Forall_fmap.
      * apply Hnext. apply Forall_app. split; [exact Hall|]. repeat constructor.
Qed.

Lemma fieldLoop_one_each ctx value fields : forall i acc es,
  CanSet value = true ->
  (forall f opts, In f fields -> parseOptions (asn1Tag f) = Ok opts -> choice opts = None) ->
  fieldLoop ctx value i fields acc = Ok es ->
  fieldIndex <$> es = ((fieldIndex <$> acc) ++ seq i (length fields))%list.
Proof.
  induction fields as [|f fields IH]; simpl; intros i acc es Hc Hno H.
  - inversion H; subst. now rewrite app_nil_r.
  - rewrite Hc in H.
    destruct (parseOptions (asn1Tag f)) as [opts|] eqn:Hp; simpl in H; [|discriminate].
    rewrite (Hno f opts (or_introl eq_refl) Hp) in H.
    destruct (getExpectedElement _ _ _ _) as [elem|]; simpl in H; [|discriminate].
    rewrite (IH _ _ _ Hc (fun f' o Hin => Hno f' o (or_intror Hin)) H).
    rewrite fmap_app, <- app_assoc. reflexivity.
Qed.

(** X14.  The expected elements of a record come in the order of its
    fields: the field positions they carry never decrease (the alternatives
    a choice expands into sit side by side).  A record that cannot be set
    has no expected element at all; and when no field is a choice there is
    exactly one expected element per field, the k-th one for field k. *)
Theorem getExpectedFieldElements_order (ctx : Context) (value : reflectValue)
    (es : list expectedFieldElement) :
  getExpectedFieldElements ctx value = Ok es ->
  StronglySorted Nat.le (fieldIndex <$> es)
  /\ (CanSet value = false -> es = [])
  /\ (CanSet value = true ->
      (forall f opts, In f (structFields (rtype value)) ->
                      parseOptions (asn1Tag f) = Ok opts -> choice opts = None) ->
      fieldIndex <$> es = seq 0 (length (structFields (rtype value)))).
Proof.
  unfold getExpectedFieldElements. intros H. split; [|split].
  - eapply fieldLoop_order; [| |exact H]; constructor.
  - intros Hc. rewrite fieldLoop_unsettable in H by exact Hc. now inversion H.
  - intros Hc Hno. now rewrite (fieldLoop_one_each _ _ _ _ _ _ Hc Hno H).
Qed.

Lemma getExpectedFieldElements_order_witness :
  getExpectedFieldElements NewContext Examples.recordABC = Ok Examples.expectedABC
  /\ StronglySorted Nat.le (fieldIndex <$> Examples.expectedABC)
  /\ (CanSet Examples.recordABC = false -> Examples.expectedABC = [])
  /\ (CanSet Examples.recordABC = true ->
      (forall f opts, In f (structFields (rtype Examples.recordABC)) ->
                      parseOptions (asn1Tag f) = Ok opts -> choice opts = None) ->
      fieldIndex <$> Examples.expectedABC
      = seq 0 (length (structFields (rtype Examples.recordABC)))).
Proof.
  split; [vm_compute; reflexivity|].
  apply (getExpectedFieldElements_order NewContext Examples.recordABC Examples.expectedABC).
  vm_compute. reflexivity.
Defined.

Section EngineEdges.

Variable decodeRawValue : list Byte.byte -> result (RawValue * list Byte.byte).
Variable primitive : primitiveCodec -> Context -> list Byte.byte -> reflectValue -> result Value.
Variable sort_Sort : forall A : Type, (A -> A -> bool) -> list A -> list A.
Variable call : decoderFunction -> list Byte.byte -> reflectValue -> result Value.

(** X15.  A Go type the resolver has no universal type for (a bare
    interface, a float, a map, a pointer, ...) is a ParseError "Go type not
    supported", raised when the element is resolved.  With [explicit] the
    resolution itself succeeds, since the decoder is by then the closure of
    the wrapper, and the same ParseError comes out when the closure decodes
    the inner element.  (No [set] flag and no choice here.) *)
Theorem getExpectedElement_unmapped (ctx : Context) (raw : RawValue) (elemType : GoType)
    (opts : fieldOptions) :
  unmapped elemType = true -> set opts = false -> choice opts = None ->
  (explicit opts = false ->
   getExpectedElement ctx raw elemType opts = Err (ParseError MsgTypeNotSupported))
  /\ (explicit opts = true ->
      (exists elem, getExpectedElement ctx raw elemType opts = Ok elem
                    /\ decoder elem = Some (ExplicitDecoder opts))
      /\ forall fuel data value raw' rest,
           rtype value = elemType ->
           decodeRawValue data = Ok (raw', rest) ->
           decoding (der ctx) && Indefinite raw' = false ->
           applyDecoder decodeRawValue primitive sort_Sort (S fuel) ctx
             (ExplicitDecoder opts) data value
           = Err (ParseError MsgTypeNotSupported)).
Proof.
  intros Hun Hset Hch.
  assert (Hu : getUniversalTag elemType opts = Ok (mkExpectedElement ClassUniversal 0 None)
               /\ getUniversalTag elemType (unsetExplicit opts)
                  = Ok (mkExpectedElement ClassUniversal 0 None)).
  { unfold getUniversalTag. simpl. rewrite Hset.
    destruct elemType; try discriminate; split; reflexivity. }
  destruct Hu as [Hu Hu']. split.
  - intros He. unfold getExpectedElement. rewrite Hu. simpl. rewrite He, Hch.
    destruct (tag opts), (universal opts), (application opts); reflexivity.
  - intros He. split.
    + unfold getExpectedElement. rewrite Hu. simpl. rewrite He. eauto.
    + intros fuel data value raw' rest Ht Hraw Hind. simpl.
      unfold decode. rewrite Hraw. simpl. rewrite Hind, Ht.
      unfold getExpectedElement. rewrite Hu'. simpl. rewrite Hch.
      destruct (universal opts); reflexivity.
Qed.

(** X16.  A struct for which nothing is expected, because it has no field
    or because it cannot be set, is never decoded: whatever the content
    octets, [decodeStruct] fails with ParseError "Too many items", and so
    does [decodeStructAsSet] (for a [sort.Sort] that returns a
    permutation). *)
Theorem decodeStruct_nothing_expected (ctx : Context) (data : list Byte.byte)
    (value : reflectValue) :
  structFields (rtype value) = [] \/ CanSet value = false ->
  decodeStruct decodeRawValue call ctx data value = Err (ParseError MsgTooManyItems)
  /\ (sortContract sort_Sort ->
      decodeStructAsSet decodeRawValue sort_Sort call ctx data value
      = Err (ParseError MsgTooManyItems)).
Proof.
  intros H.
  assert (Hes : getExpectedFieldElements ctx value = Ok []).
  { unfold getExpectedFieldElements. destruct H as [->|Hc]; [reflexivity|].
    now apply fieldLoop_unsettable. }
  split.
  - unfold decodeStruct. now rewrite Hes.
  - intros Hsort. unfold decodeStructAsSet. rewrite Hes. simpl.
    destruct (Hsort _ expectedFieldElementSlice_Less []) as [Hp _].
    apply Permutation_nil in Hp. rewrite Hp. reflexivity.
Qed.

Lemma rawLoop_reads n : forall data acc rs,
  rawLoop decodeRawValue n data acc = Ok rs
  <-> exists rs', rs = (acc ++ rs')%list /\ readsAs decodeRawValue data rs'
                  /\ (length rs' <= n)%nat.
Proof.
  induction n as [|n IH]; intros data acc rs; simpl.
  - split; [discriminate|]. intros (rs' & _ & Hr & Hl).
    destruct rs'; [destruct Hr|simpl in Hl; lia].
  - destruct (decodeRawValue data) as [[raw rest]|e] eqn:Hd; simpl.
    + destruct rest as [|b rest]; simpl.
      * split.
        -- intros H; inversion H; subst. exists [raw]. repeat split; [|simpl; lia].
           simpl. rewrite Hd. eauto.
        -- intros (rs' & -> & Hr & _). destruct rs' as [|raw' rs']; [destruct Hr|].
           simpl in Hr. destruct Hr as (rest' & Hd' & Hrest). rewrite Hd in Hd'.
           inversion Hd'; subst. destruct rs' as [|raw'' rs'']; [reflexivity|].
           now destruct Hrest as [Hne _].
      * rewrite IH. split.
        -- intros (rs' & -> & Hr & Hl). exists (raw :: rs').
           rewrite <- app_assoc. split; [reflexivity|]. split; [|simpl; lia].
           simpl. rewrite Hd. exists (b :: rest). split; [reflexivity|].
           destruct rs'; [destruct Hr|]. split; [discriminate|exact Hr].
        -- intros (rs' & -> & Hr & Hl). destruct rs' as [|raw' rs']; [destruct Hr|].
           simpl in Hr. destruct Hr as (rest' & Hd' & Hrest). rewrite Hd in Hd'.
           inversion Hd'; subst. destruct rs' as [|raw'' rs'']; [discriminate|].
           destruct Hrest as [_ Hr]. exists (raw'' :: rs'').
           rewrite <- app_assoc. split; [reflexivity|]. split; [exact Hr|simpl in *; lia].
    + split; [discriminate|]. intros (rs' & _ & Hr & _).
      destruct rs' as [|raw' rs']; [destruct Hr|].
      simpl in Hr. destruct Hr as (rest' & Hd' & _). rewrite Hd in Hd'. discriminate.
Qed.

Lemma rawLoop_too_many n : forall data acc rs,
  readsAs decodeRawValue data rs -> (n < length rs)%nat ->
  rawLoop decodeRawValue n data acc = Err (ParseError MsgTooManyItems).
Proof.
  induction n as [|n IH]; intros data acc rs Hr Hl; simpl; [reflexivity|].
  destruct rs as [|raw rs]; [destruct Hr|].
  simpl in Hr. destruct Hr as (rest & -> & Hrest). simpl.
  destruct rs as [|raw' rs']; [simpl in Hl; lia|].
  destruct Hrest as [Hne Hr].
  destruct rest as [|b rest]; [contradiction|]. simpl.
  apply (IH _ _ (raw' :: rs') Hr). simpl in *. lia.
Qed.

(** X17.  [getRawValuesFromBytes] returns the raw values of the content,
    all of them and in their order, when there are at most [max] of them;
    when there are more it fails with ParseError "Too many items".  It
    never returns an empty list, and never stops before the content is
    used up. *)
Theorem getRawValuesFromBytes_reads (data : list Byte.byte) (max : nat) (rs : list RawValue) :
  (getRawValuesFromBytes decodeRawValue data max = Ok rs
   <-> readsAs decodeRawValue data rs /\ (length rs <= max)%nat)
  /\ (readsAs decodeRawValue data rs -> (max < length rs)%nat ->
      getRawValuesFromBytes decodeRawValue data max = Err (ParseError MsgTooManyItems)).
Proof.
  unfold getRawValuesFromBytes. split.
  - rewrite rawLoop_reads. simpl. split.
    + intros (rs' & -> & Hr & Hl). auto.
    + intros [Hr Hl]. eauto.
  - apply rawLoop_too_many.
Qed.

(** X18.  A SEQUENCE that holds more TLVs than the record has expected
    elements is rejected with ParseError "Too many items" before any field
    is decoded, whether or not the leading TLVs match the fields. *)
Theorem decodeStruct_too_many (ctx : Context) (data : list Byte.byte) (value : reflectValue)
    (es : list expectedFieldElement) (rs : list RawValue) :
  getExpectedFieldElements ctx value = Ok es ->
  readsAs decodeRawValue data rs ->
  (length es < length rs)%nat ->
  decodeStruct decodeRawValue call ctx data value = Err (ParseError MsgTooManyItems).
Proof.
  intros Hes Hr Hl. unfold decodeStruct. rewrite Hes. simpl.
  unfold getRawValuesFromBytes. now rewrite (rawLoop_too_many _ _ _ rs Hr Hl).
Qed.

End EngineEdges.

(** ** What the matching loop leaves alone ([decode.go]) *)

Lemma invalidated_fieldIndex eIndex name k x :
  fieldIndex (invalidated eIndex name k x) = fieldIndex x.
Proof.
  unfold invalidated. destruct name as [c|]; [|reflexivity].
  now destruct ((eIndex <? k)%nat && sameChoice c x).
Qed.

Lemma invalidated_fopts eIndex name k x :
  fopts (invalidated eIndex name k x) = fopts x.
Proof.
  unfold invalidated. destruct name as [c|]; [|reflexivity].
  now destruct ((eIndex <? k)%nat && sameChoice c x).
Qed.

Lemma invalidated_key eIndex name k x :
  expectedKey (invalidated eIndex name k x) = expectedKey x.
Proof.
  unfold invalidated. destruct name as [c|]; [|reflexivity].
  now destruct ((eIndex <? k)%nat && sameChoice c x).
Qed.

Section MatchingFrame.

Variable call : decoderFunction -> list Byte.byte -> reflectValue -> result Value.

Lemma matchLoop_length n : forall eIndex eValues rValues rIndex fields fields',
  matchLoop call n eIndex eValues rValues rIndex fields = Ok fields' ->
  length fields' = length fields.
Proof.
  induction n as [|n IH]; intros eIndex eValues rValues rIndex fields fields' H; simpl in H.
  - now inversion H.
  - destruct (eValues !! eIndex) as [e|]; [|now inversion H].
    destruct (decoder (element e)) as [d|]; [|eapply IH; eauto].
    match type of H with
    | match ?found with _ => _ end = _ => destruct found as [raw|]
    end.
    + destruct (call d (Content raw) (fieldSlot fields e)) as [v|]; simpl in H; [|discriminate].
      apply IH in H. now rewrite length_insert in H.
    + destruct (optional (fopts e) || negb (isNil (choice (fopts e)))); [eapply IH; eauto|].
      destruct (negb (isNil (defaultValue (fopts e)))); [|discriminate].
      destruct (setDefaultValue _ _) as [v|]; simpl in H; [|discriminate].
      apply IH in H. now rewrite length_insert in H.
Qed.

Lemma matchLoop_frame n : forall eIndex eValues rValues rIndex fields fields' k,
  (forall j e, eValues !! j = Some e -> fieldIndex e <> k) ->
  matchLoop call n eIndex eValues rValues rIndex fields = Ok fields' ->
  fields' !! k = fields !! k.
Proof.
  induction n as [|n IH]; intros eIndex eValues rValues rIndex fields fields' k Hk H; simpl in H.
  - now inversion H.
  - destruct (eValues !! eIndex) as [e|] eqn:He; [|now inversion H].
    pose proof (Hk _ _ He) as Hne.
    destruct (decoder (element e)) as [d|]; [|eapply IH; eauto].
    match type of H with
    | match ?found with _ => _ end = _ => destruct found as [raw|]
    end.
    + destruct (call d (Content raw) (fieldSlot fields e)) as [v|]; simpl in H; [|discriminate].
      apply IH with (k := k) in H.
      * now rewrite list_lookup_insert_ne in H by exact Hne.
      * intros j x Hx. destruct (choice (fopts e)) as [name|]; [|eapply Hk; eauto].
        rewrite invalidateSiblings_lookup in Hx.
        destruct (eValues !! j) as [y|] eqn:Hy; [|discriminate].
        assert (Hfx : fieldIndex x = fieldIndex y).
        { simpl in Hx. injection Hx as <-.
          exact (invalidated_fieldIndex eIndex (Some name) j y). }
        rewrite Hfx. eapply Hk; eauto.
    + destruct (optional (fopts e) || negb (isNil (choice (fopts e)))); [eapply IH; eauto|].
      destruct (negb (isNil (defaultValue (fopts e)))); [|discriminate].
      destruct (setDefaultValue _ _) as [v|]; simpl in H; [|discriminate].
      apply IH with (k := k) in H; [|exact Hk].
      now rewrite list_lookup_insert_ne in H by exact Hne.
Qed.

(** X19.  Matching writes to the fields of its expected elements and to
    nothing else: after a successful [matchExpectedValues] the record has
    as many fields as before, and a field that is the position of no
    expected element holds what it held. *)
Theorem matchExpectedValues_frame (eValues : list expectedFieldElement)
    (rValues : list RawValue) (fields fields' : list Value) (k : nat) :
  matchExpectedValues call eValues rValues fields = Ok fields' ->
  length fields' = length fields
  /\ ((forall e, In e eValues -> fieldIndex e <> k) -> fields' !! k = fields !! k).
Proof.
  intros H. unfold matchExpectedValues in H. split.
  - eapply matchLoop_length; eauto.
  - intros Hk. eapply matchLoop_frame; [|exact H].
    intros j e He. apply Hk. apply list_elem_of_In. eapply list_elem_of_lookup_2; eauto.
Qed.

Lemma matchLoop_unmatched n : forall eIndex eValues rValues fields,
  (forall j e, eValues !! j = Some e ->
     optional (fopts e) = true \/ choice (fopts e) <> None) ->
  (forall j e raw, eValues !! j = Some e -> rValues !! 0%nat = Some raw ->
     expectedKey e <> rawKey raw) ->
  matchLoop call n eIndex eValues rValues 0 fields = Ok fields.
Proof.
  induction n as [|n IH]; intros eIndex eValues rValues fields Hopt Hkey; simpl; [reflexivity|].
  destruct (eValues !! eIndex) as [e|] eqn:He; [|reflexivity].
  destruct (decoder (element e)) as [d|]; [|now apply IH].
  assert (Hmiss : match rValues !! 0%nat with
                  | Some raw =>
                      if (class (element e) =? Class raw) && (etag (element e) =? Tag raw)
                      then Some raw else None
                  | None => None
                  end = None).
  { destruct (rValues !! 0%nat) as [raw|] eqn:Hr; [|reflexivity].
    destruct (Z.eqb_spec (class (element e)) (Class raw)) as [Hc|]; [|reflexivity].
    destruct (Z.eqb_spec (etag (element e)) (Tag raw)) as [Ht|]; [|reflexivity].
    exfalso. apply (Hkey _ _ _ He eq_refl). unfold expectedKey, rawKey. congruence. }
  rewrite Hmiss.
  destruct (Hopt _ _ He) as [->|Hc]; simpl.
  - now apply IH.
  - destruct (choice (fopts e)); [|congruence]. rewrite orb_true_r. now apply IH.
Qed.

(** X20.  Content that matches nothing is passed over in silence.  When every
    expected element is optional or part of a choice, and the first raw
    value has the class and tag of none of them, [matchExpectedValues]
    succeeds without decoding anything and without a look at the raw values
    that follow: the record is returned as it was. *)
Theorem matchExpectedValues_unmatched (eValues : list expectedFieldElement)
    (rValues : list RawValue) (fields : list Value) :
  (forall e, In e eValues -> optional (fopts e) = true \/ choice (fopts e) <> None) ->
  (forall e raw, In e eValues -> head rValues = Some raw -> expectedKey e <> rawKey raw) ->
  matchExpectedValues call eValues rValues fields = Ok fields.
Proof.
  intros Hopt Hkey. unfold matchExpectedValues. apply matchLoop_unmatched.
  - intros j e He. apply Hopt. apply list_elem_of_In. eapply list_elem_of_lookup_2; eauto.
  - intros j e raw He Hr. apply Hkey.
    + apply list_elem_of_In. eapply list_elem_of_lookup_2; eauto.
    + destruct rValues; [discriminate|exact Hr].
Qed.

(** X21.  The matching never reports raw values that are left over.  Each
    expected element uses up at most one raw value, so the raw values
    behind the first [length eValues] ones play no part in the outcome,
    value or error. *)
Theorem matchExpectedValues_take (eValues : list expectedFieldElement)
    (rValues : list RawValue) (fields : list Value) :
  matchExpectedValues call eValues rValues fields
  = matchExpectedValues call eValues (take (length eValues) rValues) fields.
Proof.
  unfold matchExpectedValues.
  assert (Hloop : forall n eIndex eV rIndex fs m,
            (rIndex + n <= m)%nat ->
            matchLoop call n eIndex eV rValues rIndex fs
            = matchLoop call n eIndex eV (take m rValues) rIndex fs).
  { induction n as [|n IH]; intros eIndex eV rIndex fs m Hm; simpl; [reflexivity|].
    destruct (eV !! eIndex) as [e|]; [|reflexivity].
    destruct (decoder (element e)) as [d|]; [|apply IH; lia].
    rewrite (lookup_take_lt rValues m rIndex) by lia.
    match goal with
    | |- match ?found with _ => _ end = _ => destruct found as [raw|]
    end.
    - destruct (call d (Content raw) (fieldSlot fs e)) as [v|]; simpl; [|reflexivity].
      apply IH. lia.
    - destruct (optional (fopts e) || negb (isNil (choice (fopts e)))); [apply IH; lia|].
      destruct (negb (isNil (defaultValue (fopts e)))); [|reflexivity].
      destruct (setDefaultValue _ _) as [v|]; simpl; [apply IH; lia|reflexivity]. }
  apply Hloop. lia.
Qed.

End MatchingFrame.

(** ** SET decoding, continued ([decode.go]) *)

Lemma checkDuplicated_NoDup l :
  NoDup (expectedKey <$> l) -> checkDuplicated l = None.
Proof.
  induction l as [|prev [|curr rest] IH]; intros Hnd; try reflexivity.
  rewrite !fmap_cons in Hnd. apply NoDup_cons in Hnd as [Hprev Hnd].
  change (checkDuplicated (prev :: curr :: rest))
    with (if (class (element curr) =? class (element prev))
             && (etag (element curr) =? etag (element prev))
          then Some (syntaxError (MsgDuplicatedTag (class (element curr)) (etag (element curr))))
          else checkDuplicated (curr :: rest)).
  destruct (Z.eqb_spec (class (element curr)) (class (element prev))) as [Hc|];
    [|now apply IH].
  destruct (Z.eqb_spec (etag (element curr)) (etag (element prev))) as [Ht|];
    [|now apply IH].
  exfalso. apply Hprev. apply elem_of_cons. left. unfold expectedKey. congruence.
Qed.

Lemma rawLess_false a b :
  rawValueSlice_Less b a = false <->
  Class a < Class b \/ (Class a = Class b /\ Tag a <= Tag b).
Proof. unfold rawValueSlice_Less. rewrite tagLess_false. lia. Qed.

Lemma NoDup_fmap_inj {A B : Type} (f : A -> B) (l : list A) x y :
  NoDup (f <$> l) -> x ∈ l -> y ∈ l -> f x = f y -> x = y.
Proof.
  intros Hnd Hx Hy Hf.
  apply list_elem_of_lookup in Hx as [i Hi]. apply list_elem_of_lookup in Hy as [j Hj].
  assert (Hij : i = j).
  { apply (proj1 (NoDup_alt _) Hnd i j (f x)); rewrite list_lookup_fmap.
    - now rewrite Hi.
    - now rewrite Hj, Hf. }
  subst j. congruence.
Qed.

(** Two ascending lists of raw values with the same elements, no two of
    which have the same (class, tag), are the same list. *)
Lemma rawAscending_unique l1 : forall l2,
  Permutation l1 l2 -> NoDup (rawKey <$> l1) ->
  rawAscending l1 -> rawAscending l2 -> l1 = l2.
Proof.
  unfold rawAscending.
  induction l1 as [|x l1 IH]; intros l2 Hp Hnd H1 H2.
  - now apply Permutation_nil in Hp.
  - destruct l2 as [|y l2]; [now apply Permutation_sym, Permutation_nil in Hp|].
    assert (Hxy : x = y).
    { destruct (decide (rawKey x = rawKey y)) as [Hk|Hk].
      - apply (NoDup_fmap_inj rawKey (x :: l1)); auto; [left|].
        rewrite Hp. left.
      - exfalso. apply Hk.
        assert (Hx : x ∈ l2).
        { assert (Hx : x ∈ y :: l2) by (rewrite <- Hp; left).
          apply elem_of_cons in Hx as [->|Hx]; [congruence|exact Hx]. }
        assert (Hy : y ∈ l1).
        { assert (Hy : y ∈ x :: l1) by (rewrite Hp; left).
          apply elem_of_cons in Hy as [->|Hy]; [congruence|exact Hy]. }
        apply StronglySorted_inv in H1 as [_ H1]. apply StronglySorted_inv in H2 as [_ H2].
        rewrite Forall_forall in H1, H2.
        pose proof (proj1 (rawLess_false _ _) (H1 _ Hy)) as Hle1.
        pose proof (proj1 (rawLess_false _ _) (H2 _ Hx)) as Hle2.
        unfold rawKey. f_equal; lia. }
    subst y. f_equal. apply IH.
    + now apply Permutation_cons_inv in Hp.
    + rewrite fmap_cons in Hnd. now apply NoDup_cons in Hnd.
    + now apply StronglySorted_inv in H1.
    + now apply StronglySorted_inv in H2.
Qed.

Section SetContinued.

Variable decodeRawValue : list Byte.byte -> result (RawValue * list Byte.byte).
Variable sort_Sort : forall A : Type, (A -> A -> bool) -> list A -> list A.
Variable call : decoderFunction -> list Byte.byte -> reflectValue -> result Value.
Hypothesis Hsort : sortContract sort_Sort.

(** X22.  The duplicate check of a SET has no false alarm: for a [sort.Sort]
    that keeps its contract, the check on the sorted expected elements
    passes exactly when no two expected elements of the record have the
    same (class, tag). *)
Theorem checkDuplicated_exact (es : list expectedFieldElement) :
  checkDuplicated (sort_Sort _ expectedFieldElementSlice_Less es) = None
  <-> NoDup (expectedKey <$> es).
Proof.
  destruct (sorted_expected sort_Sort Hsort es) as [Hp Hs]. split.
  - intros Hc. rewrite Hp. now apply checkDuplicated_None_NoDup.
  - intros Hnd. apply checkDuplicated_NoDup. now rewrite <- Hp.
Qed.

(** X23.  With DER off for decoding, the outcome of decoding a SET does not
    depend on the order in which its TLVs are transmitted, as long as no two
    of them have the same (class, tag): two contents whose raw values are
    the same up to their order decode to the same value or fail with the
    same error. *)
Theorem decodeStructAsSet_ber_order (ctx : Context) (value : reflectValue)
    (data1 data2 : list Byte.byte) (es : list expectedFieldElement)
    (rs1 rs2 : list RawValue) :
  decoding (der ctx) = false ->
  getExpectedFieldElements ctx value = Ok es ->
  getRawValuesFromBytes decodeRawValue data1 (length es) = Ok rs1 ->
  getRawValuesFromBytes decodeRawValue data2 (length es) = Ok rs2 ->
  Permutation rs1 rs2 ->
  NoDup (rawKey <$> rs1) ->
  decodeStructAsSet decodeRawValue sort_Sort call ctx data1 value
  = decodeStructAsSet decodeRawValue sort_Sort call ctx data2 value.
Proof.
  intros Hber Hes H1 H2 Hp Hnd. unfold decodeStructAsSet. rewrite Hes. simpl.
  destruct (checkDuplicated _); [reflexivity|].
  destruct (sorted_expected sort_Sort Hsort es) as [Hpe _].
  rewrite <- (Permutation_length Hpe), H1, H2. simpl. rewrite Hber. simpl.
  destruct (sorted_raw sort_Sort Hsort rs1) as [Hp1 Hs1].
  destruct (sorted_raw sort_Sort Hsort rs2) as [Hp2 Hs2].
  rewrite (rawAscending_unique (sort_Sort _ rawValueSlice_Less rs1)
             (sort_Sort _ rawValueSlice_Less rs2)); auto.
  - now rewrite <- Hp1, <- Hp2.
  - now rewrite <- Hp1.
Qed.

End SetContinued.

(** ** Arrays, slices and the two closures ([decode.go]) *)

Lemma getUniversalTag_class objType opts elem :
  getUniversalTag objType opts = Ok elem -> class elem = ClassUniversal.
Proof.
  unfold getUniversalTag.
  destruct objType as [| |k|k|fs|len e|e| | | | |n]; simpl;
    repeat match goal with
           | |- context [if ?c then _ else _] => destruct c; simpl
           end;
    try discriminate; intros H; inversion H; reflexivity.
Qed.

Section Closures.

Variable decodeRawValue : list Byte.byte -> result (RawValue * list Byte.byte).
Variable primitive : primitiveCodec -> Context -> list Byte.byte -> reflectValue -> result Value.
Variable sort_Sort : forall A : Type, (A -> A -> bool) -> list A -> list A.


(** X25.  The closure of [explicit] decodes one inner TLV and never looks
    at what follows it inside the wrapper: two contents that start with the
    same TLV have the same outcome.  Without a choice, the inner TLV is
    expected under the universal class and tag of the Go type, whatever
    class and tag the annotation gave to the wrapper. *)
Theorem explicit_inner (fuel : nat) (ctx : Context) (opts : fieldOptions)
    (data1 data2 : list Byte.byte) (value : reflectValue) (raw : RawValue)
    (rest1 rest2 : list Byte.byte) :
  decodeRawValue data1 = Ok (raw, rest1) ->
  decodeRawValue data2 = Ok (raw, rest2) ->
  applyDecoder decodeRawValue primitive sort_Sort (S fuel) ctx (ExplicitDecoder opts) data1 value
  = applyDecoder decodeRawValue primitive sort_Sort (S fuel) ctx (ExplicitDecoder opts) data2 value
  /\ (choice opts = None ->
      getExpectedElement ctx raw (rtype value) (unsetExplicit opts)
      = (do u <- getUniversalTag (rtype value) opts;
         if isNil (decoder u) then Err (parseError MsgTypeNotSupported) else Ok u)).
Proof.
  intros H1 H2. split.
  - simpl. unfold decode. rewrite H1, H2. simpl.
    destruct (decoding (der ctx) && Indefinite raw); [reflexivity|].
    destruct (getExpectedElement _ _ _ _) as [elem|]; simpl; [|reflexivity].
    destruct (negb (Class raw =? class elem) || negb (Tag raw =? etag elem)); [reflexivity|].
    destruct (decoder elem) as [d|]; [|reflexivity].
    now destruct (applyDecoder _ _ _ fuel ctx d (Content raw) value).
  - intros Hc. unfold getExpectedElement.
    assert (Hu : getUniversalTag (rtype value) (unsetExplicit opts)
                 = getUniversalTag (rtype value) opts) by reflexivity.
    rewrite Hu. destruct (getUniversalTag (rtype value) opts) as [u|] eqn:Hut; [|reflexivity].
    apply getUniversalTag_class in Hut. simpl. rewrite Hc.
    destruct u as [c t d]. simpl in *. subst c. now destruct (universal opts).
Qed.

End Closures.

Section ArraysAndSlices.

Variable decodeRawValue : list Byte.byte -> result (RawValue * list Byte.byte).
Variable call : decoderFunction -> list Byte.byte -> reflectValue -> result Value.

(** The reader uses up at least one byte. *)
Hypothesis Hprogress : forall data raw rest,
  decodeRawValue data = Ok (raw, rest) -> (length rest < length data)%nat.

Lemma decodeWithOptions_progress ctx data obj options v rest :
  decodeWithOptions decodeRawValue call ctx data obj options = Ok (v, rest) ->
  (length rest < length data)%nat.
Proof.
  unfold decodeWithOptions, decode.
  destruct (parseOptions options) as [opts|]; simpl; [|discriminate].
  destruct (negb (CanSet obj)); [discriminate|].
  destruct (decodeRawValue data) as [[raw reader']|] eqn:Hr; simpl; [|discriminate].
  destruct (decoding (der ctx) && Indefinite raw); [discriminate|].
  destruct (getExpectedElement _ _ _ _) as [elem|]; simpl; [|discriminate].
  destruct (negb (Class raw =? class elem) || negb (Tag raw =? etag elem)); [discriminate|].
  destruct (decoder elem) as [d|]; [|discriminate].
  destruct (call d (Content raw) obj); simpl; [|discriminate].
  intros H; inversion H; subst. eapply Hprogress; eauto.
Qed.

Lemma arrayLoop_before ctx value t n : forall i data elems elems' data',
  arrayLoop decodeRawValue call n i ctx value t data elems = Ok (elems', data') ->
  length elems' = length elems /\ forall k, (k < i)%nat -> elems' !! k = elems !! k.
Proof.
  induction n as [|n IH]; intros i data elems elems' data' H; simpl in H.
  - inversion H; subst. auto.
  - destruct (length data =? 0)%nat; [discriminate|].
    destruct (decodeWithOptions _ _ _ _ _ _) as [[e d1]|]; simpl in H; [|discriminate].
    destruct (CanSet value); [|discriminate].
    apply IH in H as [Hl Hk]. rewrite length_insert in Hl. split; [exact Hl|].
    intros k Hlt. rewrite Hk by lia. apply list_lookup_insert_ne. lia.
Qed.

Lemma arrayLoop_slice ctx value t n : forall i data elems elems' fuel acc,
  arrayLoop decodeRawValue call n i ctx value t data elems = Ok (elems', []) ->
  (i + n <= length elems)%nat -> (length data <= fuel)%nat ->
  sliceLoop decodeRawValue call fuel ctx t data acc = Ok (acc ++ take n (drop i elems'))%list.
Proof.
  induction n as [|n IH]; intros i data elems elems' fuel acc H Hi Hf; simpl in H.
  - inversion H; subst. destruct fuel; simpl; now rewrite app_nil_r.
  - destruct data as [|b data]; [discriminate|]. simpl in H.
    destruct fuel as [|fuel]; [simpl in Hf; lia|]. simpl.
    destruct (decodeWithOptions _ _ _ _ _ _) as [[e d1]|] eqn:Hd; simpl in *; [|discriminate].
    destruct (CanSet value); [|discriminate].
    pose proof (decodeWithOptions_progress _ _ _ _ _ _ Hd) as Hlt. simpl in Hlt.
    destruct (arrayLoop_before _ _ _ _ _ _ _ _ _ H) as [Hlen Hk].
    rewrite length_insert in Hlen.
    rewrite (IH (S i) d1 (<[i:=e]> elems) elems' fuel (acc ++ [e])%list H)
      by (rewrite ?length_insert; lia).
    rewrite <- app_assoc. f_equal. simpl.
    assert (He : elems' !! i = Some e).
    { rewrite Hk by lia. apply list_lookup_insert_eq. lia. }
    now rewrite (drop_S _ _ _ He).
Qed.

Lemma sliceLoop_array ctx value t fuel : forall data acc l,
  CanSet value = true ->
  sliceLoop decodeRawValue call fuel ctx t data acc = Ok l ->
  exists es,
    l = (acc ++ es)%list
    /\ forall i elems, (i + length es <= length elems)%nat ->
         arrayLoop decodeRawValue call (length es) i ctx value t data elems
         = Ok ((take i elems ++ es ++ drop (i + length es) elems)%list, []).
Proof.
  intros data acc l Hc. revert data acc l.
  induction fuel as [|fuel IH]; intros data acc l H.
  - destruct data; [|discriminate]. simpl in H. inversion H; subst.
    exists []. rewrite app_nil_r. split; [reflexivity|].
    intros i elems _. simpl. now rewrite Nat.add_0_r, take_drop.
  - destruct data as [|b data].
    + simpl in H. inversion H; subst.
      exists []. rewrite app_nil_r. split; [reflexivity|].
      intros i elems _. simpl. now rewrite Nat.add_0_r, take_drop.
    + simpl in H.
      destruct (decodeWithOptions _ _ _ _ _ _) as [[e d1]|] eqn:Hd; simpl in H; [|discriminate].
      destruct (IH _ _ _ H) as (es & -> & Harr).
      exists (e :: es). rewrite <- app_assoc. split; [reflexivity|].
      intros i elems Hi. simpl in Hi. simpl. rewrite Hd. simpl. rewrite Hc.
      rewrite Harr by (rewrite length_insert; lia). f_equal. f_equal.
      rewrite (take_S_r (<[i:=e]> elems) i e) by (apply list_lookup_insert_eq; lia).
      rewrite take_insert_ge by lia.
      rewrite drop_insert_lt by lia.
      replace (i + S (length es))%nat with (S i + length es)%nat by lia.
      now rewrite <- app_assoc.
Qed.

(** X26.  An array is a slice of known length.  For a settable array of [len]
    elements and a settable slice of the same element type, [decodeArray]
    succeeds with the elements [l] exactly when [decodeSlice] does on the
    same content and [l] has [len] elements; the rounds of [decodeSlice]
    never outnumber the bytes of the content, since the reader uses up at
    least one byte each time. *)
Theorem decodeArray_decodeSlice (ctx : Context) (data : list Byte.byte)
    (len : nat) (t : GoType) (l0 : list Value) (previous : Value) (l : list Value) :
  length l0 = len ->
  decodeArray decodeRawValue call ctx data (mkReflectValue (TArray len t) (VList l0) true)
  = Ok (VList l)
  <-> decodeSlice decodeRawValue call ctx data (mkReflectValue (TSlice t) previous true)
      = Ok (VList l)
      /\ length l = len.
Proof.
  intros Hl0. unfold decodeArray, decodeSlice. simpl. split.
  - destruct (arrayLoop _ _ _ _ _ _ _ _ _) as [[elems' data']|] eqn:Ha; simpl; [|discriminate].
    destruct data' as [|b data']; [|discriminate]. simpl.
    intros H; inversion H; subst.
    destruct (arrayLoop_before _ _ _ _ _ _ _ _ _ Ha) as [Hlen _].
    rewrite (arrayLoop_slice _ _ _ _ _ _ _ _ (length data) [] Ha) by lia.
    simpl. rewrite drop_0, take_ge by lia. auto.
  - destruct (sliceLoop _ _ _ _ _ _ _) as [slice|] eqn:Hs; simpl; [|intros [H _]; discriminate].
    intros [H Hlen]. inversion H; subst slice.
    destruct (sliceLoop_array ctx (mkReflectValue (TArray len t) (VList l0) true)
                t _ _ _ _ eq_refl Hs) as (es & Hes & Harr).
    simpl in Hes. subst es. rewrite Hlen in Harr.
    rewrite (Harr 0%nat l0) by lia. simpl.
    now rewrite drop_ge, app_nil_r by lia.
Qed.

End ArraysAndSlices.

(** ** The step counter of the interpreter of decoder functions *)

Lemma refines_refl {A : Type} (r : result A) : refines r r.
Proof. now right. Qed.

Lemma bind_refines {A B : Type} (r r' : result A) (k k' : A -> result B) :
  refines r r' -> (forall a, refines (k a) (k' a)) -> refines (bind r k) (bind r' k').
Proof.
  intros [->| ->] Hk; [now left|].
  destruct r' as [a|e]; simpl; [apply Hk|apply refines_refl].
Qed.

Section CallRefines.

Variable decodeRawValue : list Byte.byte -> result (RawValue * list Byte.byte).
Variable sort_Sort : forall A : Type, (A -> A -> bool) -> list A -> list A.
Variables call call' : decoderFunction -> list Byte.byte -> reflectValue -> result Value.
Hypothesis Hcall : forall d data value, refines (call d data value) (call' d data value).

Lemma matchLoop_refines n : forall eIndex eValues rValues rIndex fields,
  refines (matchLoop call n eIndex eValues rValues rIndex fields)
          (matchLoop call' n eIndex eValues rValues rIndex fields).
Proof.
  induction n as [|n IH]; intros eIndex eValues rValues rIndex fields; simpl;
    [apply refines_refl|].
  destruct (eValues !! eIndex) as [e|]; [|apply refines_refl].
  destruct (decoder (element e)) as [d|]; [|apply IH].
  match goal with
  | |- refines (match ?found with _ => _ end) _ => destruct found as [raw|]
  end.
  - apply bind_refines; [apply Hcall|intros v; apply IH].
  - destruct (optional (fopts e) || negb (isNil (choice (fopts e)))); [apply IH|].
    destruct (negb (isNil (defaultValue (fopts e)))); [|apply refines_refl].
    apply bind_refines; [apply refines_refl|intros v; apply IH].
Qed.

Lemma decodeStruct_refines ctx data value :
  refines (decodeStruct decodeRawValue call ctx data value)
          (decodeStruct decodeRawValue call' ctx data value).
Proof.
  unfold decodeStruct.
  apply bind_refines; [apply refines_refl|intros es].
  apply bind_refines; [apply refines_refl|intros rs].
  apply bind_refines; [apply matchLoop_refines|intros fields; apply refines_refl].
Qed.

Lemma decodeStructAsSet_refines ctx data value :
  refines (decodeStructAsSet decodeRawValue sort_Sort call ctx data value)
          (decodeStructAsSet decodeRawValue sort_Sort call' ctx data value).
Proof.
  unfold decodeStructAsSet.
  apply bind_refines; [apply refines_refl|intros es].
  destruct (checkDuplicated _); [apply refines_refl|].
  apply bind_refines; [apply refines_refl|intros rs].
  apply bind_refines; [apply matchLoop_refines|intros fields; apply refines_refl].
Qed.

Lemma decode_refines ctx reader value opts :
  refines (decode decodeRawValue call ctx reader value opts)
          (decode decodeRawValue call' ctx reader value opts).
Proof.
  unfold decode.
  apply bind_refines; [apply refines_refl|intros [raw reader']].
  destruct (decoding (der ctx) && Indefinite raw); [apply refines_refl|].
  apply bind_refines; [apply refines_refl|intros elem].
  destruct (negb (Class raw =? class elem) || negb (Tag raw =? etag elem));
    [apply refines_refl|].
  destruct (decoder elem) as [d|]; [|apply refines_refl].
  apply bind_refines; [apply Hcall|intros v; apply refines_refl].
Qed.

Lemma decodeWithOptions_refines ctx data obj options :
  refines (decodeWithOptions decodeRawValue call ctx data obj options)
          (decodeWithOptions decodeRawValue call' ctx data obj options).
Proof.
  unfold decodeWithOptions.
  apply bind_refines; [apply refines_refl|intros opts].
  destruct (negb (CanSet obj)); [apply refines_refl|apply decode_refines].
Qed.

Lemma sliceLoop_refines ctx t n : forall data slice,
  refines (sliceLoop decodeRawValue call n ctx t data slice)
          (sliceLoop decodeRawValue call' n ctx t data slice).
Proof.
  induction n as [|n IH]; intros data slice; destruct data as [|b data]; simpl;
    try apply refines_refl.
  apply bind_refines; [apply decodeWithOptions_refines|intros [elem data']; apply IH].
Qed.

Lemma decodeSlice_refines ctx data value :
  refines (decodeSlice decodeRawValue call ctx data value)
          (decodeSlice decodeRawValue call' ctx data value).
Proof.
  unfold decodeSlice. destruct (rtype value); try apply refines_refl.
  apply bind_refines; [apply sliceLoop_refines|intros slice; apply refines_refl].
Qed.

Lemma arrayLoop_refines ctx value t n : forall i data elems,
  refines (arrayLoop decodeRawValue call n i ctx value t data elems)
          (arrayLoop decodeRawValue call' n i ctx value t data elems).
Proof.
  induction n as [|n IH]; intros i data elems; simpl; [apply refines_refl|].
  destruct (length data =? 0)%nat; [apply refines_refl|].
  apply bind_refines; [apply decodeWithOptions_refines|intros [elem data']].
  destruct (CanSet value); [apply IH|apply refines_refl].
Qed.

Lemma decodeArray_refines ctx data value :
  refines (decodeArray decodeRawValue call ctx data value)
          (decodeArray decodeRawValue call' ctx data value).
Proof.
  unfold decodeArray. destruct (rtype value); try apply refines_refl.
  apply bind_refines; [apply arrayLoop_refines|intros [elems' data']; apply refines_refl].
Qed.

End CallRefines.

Section Fuel.

Variable decodeRawValue : list Byte.byte -> result (RawValue * list Byte.byte).
Variable primitive : primitiveCodec -> Context -> list Byte.byte -> reflectValue -> result Value.
Variable sort_Sort : forall A : Type, (A -> A -> bool) -> list A -> list A.


End Fuel.

(** ** Termination *)

Lemma bind_completes {A B : Type} (r : result A) (k : A -> result B) :
  completes r -> (forall a, r = Ok a -> completes (k a)) -> completes (bind r k).
Proof.
  unfold completes. destruct r as [a|e]; simpl; intros Hr Hk; [now apply Hk|].
  intros H. apply Hr. congruence.
Qed.

Lemma failsWith_completes {A : Type} (P : error -> bool) (r : result A) :
  P OutOfFuel = false -> failsWith P r -> completes r.
Proof.
  unfold completes. intros HP Hr ->. simpl in Hr. congruence.
Qed.

Lemma parseOptions_completes s : completes (parseOptions s).
Proof.
  unfold parseOptions. apply bind_completes.
  - apply (failsWith_completes isSyntaxError); [reflexivity|apply parseTokens_syntax].
  - intros opts _. destruct (validate opts) as [err|] eqn:Hv; [|discriminate].
    apply validate_syntax in Hv. intros H; inversion H; subst. discriminate.
Qed.

Lemma getChoices_completes ctx name : completes (getChoices ctx name).
Proof. unfold getChoices. destruct (choices ctx !! name); discriminate. Qed.

Lemma getChoiceByTag_completes ctx name cls tg : completes (getChoiceByTag ctx name cls tg).
Proof.
  unfold getChoiceByTag. apply bind_completes; [apply getChoices_completes|].
  intros entries _. destruct (List.find _ entries); discriminate.
Qed.

Lemma getUniversalTag_completes objType opts : completes (getUniversalTag objType opts).
Proof.
  unfold getUniversalTag.
  repeat match goal with
         | |- context [if ?c then _ else _] => destruct c
         end; discriminate.
Qed.

Lemma getExpectedElement_completes ctx raw elemType opts :
  completes (getExpectedElement ctx raw elemType opts).
Proof.
  unfold getExpectedElement. apply bind_completes; [apply getUniversalTag_completes|].
  intros u _. destruct (explicit opts); [discriminate|].
  apply bind_completes.
  - destruct (choice opts) as [name|]; [|discriminate].
    apply bind_completes; [apply getChoiceByTag_completes|discriminate].
  - intros elem _. destruct (isNil (decoder elem)); discriminate.
Qed.

Lemma plainDecoder_flat d : plainDecoder d = true -> flatDecoder d = true.
Proof. destruct d; try reflexivity; discriminate. Qed.

Lemma getChoiceByTag_plain ctx name cls tg entry :
  registryOk ctx -> getChoiceByTag ctx name cls tg = Ok entry -> plainEntry entry.
Proof.
  intros Hreg. unfold getChoiceByTag, getChoices.
  destruct (choices ctx !! name) as [entries|] eqn:Hl; simpl; [|discriminate].
  destruct (List.find _ entries) as [found|] eqn:Hf; [|discriminate].
  intros H; inversion H; subst.
  destruct (Hreg _ _ Hl) as (_ & _ & Hall). rewrite Forall_forall in Hall.
  apply Hall. apply list_elem_of_In. eapply find_some; eauto.
Qed.

Lemma getExpectedElement_flat ctx raw elemType opts elem d :
  registryOk ctx ->
  getExpectedElement ctx raw elemType opts = Ok elem ->
  decoder elem = Some d -> flatDecoder d = true.
Proof.
  intros Hreg. unfold getExpectedElement.
  destruct (getUniversalTag elemType opts) as [u|] eqn:Hu; simpl; [|discriminate].
  pose proof (getUniversalTag_plain _ _ _ Hu) as Hplain.
  destruct (explicit opts).
  { intros H Hd; inversion H; subst. simpl in Hd. now inversion Hd. }
  destruct (choice opts) as [name|].
  - destruct (getChoiceByTag ctx name (Class raw) (Tag raw)) as [entry|] eqn:He; simpl;
      [|discriminate].
    intros H Hd; inversion H; subst. simpl in Hd. inversion Hd; subst. simpl.
    destruct (getChoiceByTag_plain _ _ _ _ _ Hreg He) as (_ & d' & -> & Hp). exact Hp.
  - simpl.
    match goal with
    | |- (if isNil (decoder ?e) then _ else _) = _ -> _ =>
        assert (He : decoder e = decoder u)
          by (destruct (tag opts), (universal opts), (application opts); reflexivity);
        rewrite He; destruct (decoder u) as [du|] eqn:Hdu; simpl; [|discriminate];
        intros H Hd; inversion H; subst; rewrite He in Hd; inversion Hd; subst
    end.
    apply plainDecoder_flat. now apply Hplain.
Qed.

(** An expected element whose decoder, if any, is flat. *)
Lemma setDefaultValue_completes value opts : completes (setDefaultValue value opts).
Proof.
  unfold setDefaultValue.
  destruct (rtype value), (defaultValue opts), (CanSet value); discriminate.
Qed.

Section Termination.

Variable decodeRawValue : list Byte.byte -> result (RawValue * list Byte.byte).
Variable primitive : primitiveCodec -> Context -> list Byte.byte -> reflectValue -> result Value.
Variable sort_Sort : forall A : Type, (A -> A -> bool) -> list A -> list A.

(** The reader returns, and the value it returns was taken from the input:
    content and rest are together shorter than what was read. *)
Hypothesis Hreader : forall data, completes (decodeRawValue data).
Hypothesis Hprogress : forall data raw rest,
  decodeRawValue data = Ok (raw, rest) ->
  (length (Content raw) + length rest < length data)%nat.
Hypothesis Hprimitive : forall p ctx data value, completes (primitive p ctx data value).
Hypothesis Hsort : sortContract sort_Sort.

Variable ctx : Context.
Hypothesis Hregistry : registryOk ctx.

Lemma expandChoice_completes i f opts entries : forall acc,
  completes (expandChoice ctx i f opts entries acc).
Proof.
  induction entries as [|entry entries IH]; intros acc; simpl; [discriminate|].
  apply bind_completes; [apply getExpectedElement_completes|intros elem _; apply IH].
Qed.

Lemma fieldLoop_completes value fields : forall i acc,
  completes (fieldLoop ctx value i fields acc).
Proof.
  induction fields as [|f fields IH]; intros i acc; simpl; [discriminate|].
  destruct (CanSet value); [|apply IH].
  apply bind_completes; [apply parseOptions_completes|intros opts _].
  destruct (choice opts) as [name|].
  - apply bind_completes; [apply getChoices_completes|intros entries _].
    apply bind_completes; [apply expandChoice_completes|intros acc' _; apply IH].
  - apply bind_completes; [apply getExpectedElement_completes|intros elem _; apply IH].
Qed.

Lemma expandChoice_flat i f opts entries : forall acc es,
  Forall (fun e => forall d, decoder (element e) = Some d -> flatDecoder d = true) acc ->
  expandChoice ctx i f opts entries acc = Ok es ->
  Forall (fun e => forall d, decoder (element e) = Some d -> flatDecoder d = true) es.
Proof.
  induction entries as [|entry entries IH]; simpl; intros acc es Hacc H.
  - inversion H; subst; exact Hacc.
  - destruct (getExpectedElement _ _ _ _) as [elem|] eqn:He; simpl in H; [|discriminate].
    eapply IH; [|exact H]. apply Forall_app; split; [exact Hacc|].
    constructor; [|constructor]. simpl. intros d Hd.
    eapply getExpectedElement_flat; eauto.
Qed.

Lemma fieldLoop_flat value fields : forall i acc es,
  Forall (fun e => forall d, decoder (element e) = Some d -> flatDecoder d = true) acc ->
  fieldLoop ctx value i fields acc = Ok es ->
  Forall (fun e => forall d, decoder (element e) = Some d -> flatDecoder d = true) es.
Proof.
  induction fields as [|f fields IH]; simpl; intros i acc es Hacc H.
  - inversion H; subst; exact Hacc.
  - destruct (CanSet value); [|eapply IH; eauto].
    destruct (parseOptions (asn1Tag f)) as [opts|]; simpl in H; [|discriminate].
    destruct (choice opts) as [name|].
    + destruct (getChoices ctx name) as [entries|]; simpl in H; [|discriminate].
      destruct (expandChoice _ _ _ _ _ _) as [acc'|] eqn:Hx; simpl in H; [|discriminate].
      eapply IH; [|exact H]. eapply expandChoice_flat; eauto.
    + destruct (getExpectedElement _ _ _ _) as [elem|] eqn:He; simpl in H; [|discriminate].
      eapply IH; [|exact H]. apply Forall_app; split; [exact Hacc|].
      constructor; [|constructor]. simpl. intros d Hd.
      eapply getExpectedElement_flat; eauto.
Qed.

Lemma rawLoop_completes n : forall data acc, completes (rawLoop decodeRawValue n data acc).
Proof.
  induction n as [|n IH]; intros data acc; simpl; [discriminate|].
  apply bind_completes; [apply Hreader|intros [raw reader'] _].
  destruct (length reader' =? 0)%nat; [discriminate|apply IH].
Qed.

Lemma rawLoop_contents bound n : forall data acc rs,
  (length data <= bound)%nat ->
  Forall (fun raw => (length (Content raw) < bound)%nat) acc ->
  rawLoop decodeRawValue n data acc = Ok rs ->
  Forall (fun raw => (length (Content raw) < bound)%nat) rs.
Proof.
  induction n as [|n IH]; intros data acc rs Hb Hacc H; simpl in H; [discriminate|].
  destruct (decodeRawValue data) as [[raw reader']|] eqn:Hr; simpl in H; [|discriminate].
  apply Hprogress in Hr.
  assert (Hacc' : Forall (fun raw => (length (Content raw) < bound)%nat) (acc ++ [raw])).
  { apply Forall_app. split; [exact Hacc|]. repeat constructor. lia. }
  destruct (length reader' =? 0)%nat.
  - inversion H; subst. exact Hacc'.
  - eapply IH; [|exact Hacc'|exact H]. lia.
Qed.

Section Bounded.

Variable call : decoderFunction -> list Byte.byte -> reflectValue -> result Value.
Variable bound : nat.

(** Every call on an input shorter than [bound] completes. *)
Hypothesis Hcall : forall d data value,
  flatDecoder d = true -> (length data < bound)%nat -> completes (call d data value).

Lemma matchLoop_completes rValues n : forall eIndex eValues rIndex fields,
  Forall (fun raw => (length (Content raw) < bound)%nat) rValues ->
  (forall j e d, eValues !! j = Some e -> decoder (element e) = Some d ->
                 flatDecoder d = true) ->
  completes (matchLoop call n eIndex eValues rValues rIndex fields).
Proof.
  induction n as [|n IH]; intros eIndex eValues rIndex fields Hrs Hes; simpl; [discriminate|].
  destruct (eValues !! eIndex) as [e|] eqn:He; [|discriminate].
  destruct (decoder (element e)) as [d|] eqn:Hd; [|now apply IH].
  destruct (rValues !! rIndex) as [raw|] eqn:Hr.
  - destruct ((class (element e) =? Class raw) && (etag (element e) =? Tag raw)).
    + apply bind_completes.
      * apply Hcall; [eapply Hes; eauto|].
        rewrite Forall_forall in Hrs. apply Hrs. eapply list_elem_of_lookup_2; eauto.
      * intros v _. apply IH; [exact Hrs|].
        destruct (choice (fopts e)) as [name|]; [|exact Hes].
        intros j x dx Hx Hdx. rewrite invalidateSiblings_lookup in Hx.
        destruct (eValues !! j) as [y|] eqn:Hy; [|discriminate].
        simpl in Hx. injection Hx as <-. unfold invalidated in Hdx.
        destruct ((eIndex <? j)%nat && sameChoice name y); [discriminate|].
        eapply Hes; eauto.
    + destruct (optional (fopts e) || negb (isNil (choice (fopts e)))); [now apply IH|].
      destruct (negb (isNil (defaultValue (fopts e)))); [|discriminate].
      apply bind_completes; [apply setDefaultValue_completes|intros v _; now apply IH].
  - destruct (optional (fopts e) || negb (isNil (choice (fopts e)))); [now apply IH|].
    destruct (negb (isNil (defaultValue (fopts e)))); [|discriminate].
    apply bind_completes; [apply setDefaultValue_completes|intros v _; now apply IH].
Qed.

Lemma decodeStruct_completes data value :
  (length data <= bound)%nat ->
  completes (decodeStruct decodeRawValue call ctx data value).
Proof.
  intros Hb. unfold decodeStruct.
  apply bind_completes; [apply fieldLoop_completes|intros es Hes].
  apply bind_completes; [apply rawLoop_completes|intros rs Hrs].
  apply bind_completes; [|discriminate].
  apply matchLoop_completes.
  - eapply rawLoop_contents; [exact Hb|constructor|exact Hrs].
  - apply fieldLoop_flat in Hes; [|constructor]. rewrite Forall_forall in Hes.
    intros j e d He. apply Hes. eapply list_elem_of_lookup_2; eauto.
Qed.

Lemma decodeStructAsSet_completes data value :
  (length data <= bound)%nat ->
  completes (decodeStructAsSet decodeRawValue sort_Sort call ctx data value).
Proof.
  intros Hb. unfold decodeStructAsSet.
  apply bind_completes; [apply fieldLoop_completes|intros es Hes].
  destruct (checkDuplicated _) as [err|] eqn:Hdup.
  { apply checkDuplicated_error in Hdup as (c & t & ->). discriminate. }
  apply bind_completes; [apply rawLoop_completes|intros rs Hrs].
  apply bind_completes; [|discriminate].
  apply matchLoop_completes.
  - assert (Hall : Forall (fun raw => (length (Content raw) < bound)%nat) rs)
      by (eapply rawLoop_contents; [exact Hb|constructor|exact Hrs]).
    destruct (negb (decoding (der ctx))); [|exact Hall].
    destruct (Hsort _ rawValueSlice_Less rs) as [Hp _]. now rewrite <- Hp.
  - apply fieldLoop_flat in Hes; [|constructor].
    destruct (Hsort _ expectedFieldElementSlice_Less es) as [Hp _].
    rewrite Hp, Forall_forall in Hes.
    intros j e d He. apply Hes. eapply list_elem_of_lookup_2; eauto.
Qed.

Lemma decode_completes reader value opts :
  (length reader <= bound)%nat ->
  completes (decode decodeRawValue call ctx reader value opts).
Proof.
  intros Hb. unfold decode.
  apply bind_completes; [apply Hreader|intros [raw reader'] Hr].
  destruct (decoding (der ctx) && Indefinite raw); [discriminate|].
  apply bind_completes; [apply getExpectedElement_completes|intros elem He].
  destruct (negb (Class raw =? class elem) || negb (Tag raw =? etag elem)); [discriminate|].
  destruct (decoder elem) as [d|] eqn:Hd; [|discriminate].
  apply bind_completes; [|discriminate].
  apply Hcall; [eapply getExpectedElement_flat; eauto|].
  apply Hprogress in Hr. lia.
Qed.

Lemma decodeWithOptions_completes data obj options :
  (length data <= bound)%nat ->
  completes (decodeWithOptions decodeRawValue call ctx data obj options).
Proof.
  intros Hb. unfold decodeWithOptions.
  apply bind_completes; [apply parseOptions_completes|intros opts _].
  destruct (negb (CanSet obj)); [discriminate|now apply decode_completes].
Qed.

Lemma decodeWithOptions_rest data obj options v rest :
  decodeWithOptions decodeRawValue call ctx data obj options = Ok (v, rest) ->
  (length rest < length data)%nat.
Proof.
  apply (decodeWithOptions_progress decodeRawValue call).
  intros d raw r Hd. apply Hprogress in Hd. lia.
Qed.

Lemma sliceLoop_completes t n : forall data slice,
  (length data <= bound)%nat -> (length data <= n)%nat ->
  completes (sliceLoop decodeRawValue call n ctx t data slice).
Proof.
  induction n as [|n IH]; intros data slice Hb Hn; destruct data as [|b data]; simpl;
    try discriminate; [simpl in Hn; lia|].
  apply bind_completes; [now apply decodeWithOptions_completes|intros [elem data'] Hd].
  apply decodeWithOptions_rest in Hd. simpl in *. apply IH; lia.
Qed.

Lemma arrayLoop_completes value t n : forall i data elems,
  (length data <= bound)%nat ->
  completes (arrayLoop decodeRawValue call n i ctx value t data elems).
Proof.
  induction n as [|n IH]; intros i data elems Hb; simpl; [discriminate|].
  destruct (length data =? 0)%nat; [discriminate|].
  apply bind_completes; [now apply decodeWithOptions_completes|intros [elem data'] Hd].
  apply decodeWithOptions_rest in Hd.
  destruct (CanSet value); [apply IH; lia|discriminate].
Qed.

End Bounded.

Lemma applyDecoder_completes : forall (fuel : nat) (d : decoderFunction)
    (data : list Byte.byte) (value : reflectValue),
  flatDecoder d = true -> (nesting d data <= fuel)%nat ->
  completes (applyDecoder decodeRawValue primitive sort_Sort fuel ctx d data value).
Proof.
  induction fuel as [|fuel IH]; intros d data value Hflat Hfuel.
  { unfold nesting in Hfuel. destruct (plainDecoder d); lia. }
  assert (Hcall : plainDecoder d = true ->
            forall d' x v, flatDecoder d' = true -> (length x < length data)%nat ->
              completes (applyDecoder decodeRawValue primitive sort_Sort fuel ctx d' x v)).
  { intros Hp d' x v Hf Hx. apply IH; [exact Hf|].
    unfold nesting in *. rewrite Hp in Hfuel. destruct (plainDecoder d'); lia. }
  simpl. destruct d as [p| | | | |opts|entryTyp [d'|]].
  - apply Hprimitive.
  - apply (decodeStruct_completes _ (length data) (Hcall eq_refl)). lia.
  - apply (decodeStructAsSet_completes _ (length data) (Hcall eq_refl)). lia.
  - unfold decodeArray. destruct (rtype value); try discriminate.
    apply bind_completes.
    + apply (arrayLoop_completes _ (length data) (Hcall eq_refl)). lia.
    + intros [elems' data'] _. destruct (0 <? length data')%nat; discriminate.
  - unfold decodeSlice. destruct (rtype value); try discriminate.
    apply bind_completes.
    + apply (sliceLoop_completes _ (length data) (Hcall eq_refl)); lia.
    + intros slice _. destruct (CanSet value); discriminate.
  - apply bind_completes; [|intros [v rest] _; discriminate].
    apply (decode_completes _ (length data) (Hcall eq_refl)). lia.
  - apply bind_completes.
    + apply IH; [now apply plainDecoder_flat|].
      simpl in Hflat. unfold nesting in *. simpl in Hfuel. rewrite Hflat. lia.
    + intros v _. unfold reflectSet.
      destruct (negb (CanSet value)); [discriminate|].
      destruct (rtype value), entryTyp; try discriminate;
        match goal with |- completes (if ?c then _ else _) => destruct c end; discriminate.
  - discriminate.
Qed.

(** X28.  Decoding terminates, whatever the input and the schema: for a
    reader and primitive codecs that return, and a registry in which no
    alternative of a choice is a choice again (the only registries
    [AddChoice] builds), the nesting of the calls of decoder functions made
    by [DecodeWithOptions] never exceeds twice the length of the input.  A
    run with this bound is never cut short. *)
Theorem Context_DecodeWithOptions_terminates (fuel : nat) (data : list Byte.byte)
    (obj : reflectValue) (options : string) :
  (2 * length data <= fuel)%nat ->
  completes (Context_DecodeWithOptions decodeRawValue primitive sort_Sort fuel ctx
               data obj options).
Proof.
  intros Hfuel. unfold Context_DecodeWithOptions.
  apply (decodeWithOptions_completes _ (length data)); [|lia].
  intros d x v Hflat Hx. apply applyDecoder_completes; [exact Hflat|].
  unfold nesting. destruct (plainDecoder d); lia.
Qed.

End Termination.

(** ** The reference reader *)

Lemma longTag_progress data : forall acc tg rest,
  Reference.longTag acc data = Ok (tg, rest) -> (length rest < length data)%nat.
Proof.
  induction data as [|b data IH]; intros acc tg rest H; simpl in H; [discriminate|].
  match type of H with (if ?c then _ else _) = _ => destruct c end.
  - apply IH in H. simpl. lia.
  - inversion H; subst. simpl. lia.
Qed.

Lemma decodeIdentifier_progress data cls tg constructed rest :
  Reference.decodeIdentifier data = Ok (cls, tg, constructed, rest) ->
  (length rest < length data)%nat.
Proof.
  unfold Reference.decodeIdentifier. destruct data as [|b data]; [discriminate|].
  destruct (Z.land (Reference.byteZ b) 31 =? 31).
  - assert (Hlong : forall r, (do (tg0, rest') <- Reference.longTag 0 data;
                               Ok (Z.shiftr (Reference.byteZ b) 6, tg0,
                                   Z.testbit (Reference.byteZ b) 5, rest')) = Ok r ->
                              (length (snd r) < length (b :: data))%nat).
    { intros r. destruct (Reference.longTag 0 data) as [[tg0 rest']|] eqn:Hl; simpl;
        [|discriminate].
      intros H; inversion H; subst. simpl. apply longTag_progress in Hl. lia. }
    destruct data as [|b' data']; [discriminate|].
    destruct b'; try discriminate; intros H; exact (Hlong _ H).
  - intros H; inversion H; subst. simpl. lia.
Qed.

Lemma decodeLength_progress data len indef rest :
  Reference.decodeLength data = Ok (len, indef, rest) -> (length rest < length data)%nat.
Proof.
  unfold Reference.decodeLength. destruct data as [|b data]; [discriminate|].
  repeat match goal with
         | |- context [if ?c then _ else _] => destruct c
         end; try discriminate; intros H; inversion H; subst; simpl;
    rewrite ?length_drop; lia.
Qed.

Lemma endOfContents_match {A : Type} (data : list Byte.byte) (X : list Byte.byte -> A) (Y : A) :
  match data with
  | Byte.x00 :: Byte.x00 :: rest => X rest
  | _ => Y
  end
  = match endOfContents data with
    | Some rest => X rest
    | None => Y
    end.
Proof.
  destruct data as [|b [|b' rest]]; [reflexivity|destruct b; reflexivity|].
  destruct b; try reflexivity. destruct b'; reflexivity.
Qed.

Lemma endOfContents_length data rest :
  endOfContents data = Some rest -> length data = S (S (length rest)).
Proof.
  destruct data as [|b [|b' rest']]; [discriminate|destruct b; discriminate|].
  destruct b; try discriminate. destruct b'; try discriminate.
  intros H; inversion H; reflexivity.
Qed.

Lemma readTLV_children (read : list Byte.byte -> result (RawValue * list Byte.byte)) n :
  forall data content,
    (fix children (n : nat) (data : list Byte.byte) (content : list Byte.byte)
       : result (list Byte.byte * list Byte.byte) :=
       match n with
       | O => Err (Reference.malformed "unexpected end of input")
       | S n' =>
           match data with
           | Byte.x00 :: Byte.x00 :: rest => Ok (content, rest)
           | _ =>
               do (_, rest) <- read data;
               children n' rest (content ++ take (length data - length rest) data)%list
           end
       end) n data content
    = childrenUntilEnd read n data content.
Proof.
  revert n. fix IH 1. intros [|n] data content; [reflexivity|].
  lazymatch goal with
  | |- match data with [] => ?Y | _ => _ end = _ =>
      transitivity
        (match endOfContents data with
         | Some rest => Ok (content, rest)
         | None => Y
         end);
      [exact (endOfContents_match data (fun rest => Ok (content, rest)) Y)|]
  end.
  destruct (endOfContents data) eqn:He; cbn [childrenUntilEnd]; rewrite He; [reflexivity|].
  destruct (read data) as [[raw r]|]; [apply IH|reflexivity].
Qed.

Lemma readTLV_S fuel data :
  Reference.readTLV (S fuel) data
  = (do (cls, tg, constructed, data1) <- Reference.decodeIdentifier data;
     do (len, indef, data2) <- Reference.decodeLength data1;
     if indef then
       if negb constructed
       then Err (Reference.malformed "indefinite length on a primitive value")
       else
         do (content, rest) <-
           childrenUntilEnd (Reference.readTLV fuel) (length data2) data2 [];
         Ok (mkRawValue cls tg constructed true content, rest)
     else if (Z.of_nat (length data2) <? len)
     then Err (Reference.malformed "unexpected end of input")
     else Ok (mkRawValue cls tg constructed false (take (Z.to_nat len) data2),
              drop (Z.to_nat len) data2)).
Proof.
  cbn [Reference.readTLV].
  destruct (Reference.decodeIdentifier data) as [[[[cls tg] constructed] data1]|];
    [|reflexivity].
  cbn [bind].
  destruct (Reference.decodeLength data1) as [[[len indef] data2]|]; [|reflexivity].
  cbn [bind]. destruct indef; [|reflexivity].
  destruct (negb constructed); [reflexivity|].
  now rewrite readTLV_children.
Qed.

Lemma childrenUntilEnd_progress (read : list Byte.byte -> result (RawValue * list Byte.byte)) :
  (forall data raw rest, read data = Ok (raw, rest) -> (length rest < length data)%nat) ->
  forall n data content c r,
    childrenUntilEnd read n data content = Ok (c, r) ->
    (length c + length r < length content + length data)%nat.
Proof.
  intros Hread. induction n as [|n IH]; intros data content c r H; [discriminate|].
  simpl in H. destruct (endOfContents data) as [rest|] eqn:He.
  - inversion H; subst. apply endOfContents_length in He. lia.
  - destruct (read data) as [[raw rest]|] eqn:Hr; simpl in H; [|discriminate].
    apply IH in H. apply Hread in Hr. rewrite length_app, length_take in H. lia.
Qed.

Lemma readTLV_progress fuel : forall data raw rest,
  Reference.readTLV fuel data = Ok (raw, rest) ->
  (length (Content raw) + length rest < length data)%nat.
Proof.
  induction fuel as [|fuel IH]; intros data raw rest H; [discriminate|].
  rewrite readTLV_S in H.
  destruct (Reference.decodeIdentifier data) as [[[[cls tg] constructed] data1]|] eqn:Hid;
    simpl in H; [|discriminate].
  destruct (Reference.decodeLength data1) as [[[len indef] data2]|] eqn:Hlen;
    simpl in H; [|discriminate].
  apply decodeIdentifier_progress in Hid. apply decodeLength_progress in Hlen.
  destruct indef.
  - destruct (negb constructed); [discriminate|].
    destruct (childrenUntilEnd _ _ _ _) as [[content rest']|] eqn:Hc; simpl in H;
      [|discriminate].
    inversion H; subst. simpl.
    apply childrenUntilEnd_progress in Hc; [simpl in Hc; lia|].
    intros d raw0 rest0 Hd. apply IH in Hd. lia.
  - destruct (Z.of_nat (length data2) <? len) eqn:Hlt; [discriminate|].
    inversion H; subst. simpl. rewrite length_take, length_drop. lia.
Qed.

(** The reference reader uses up the bytes of the value it returns: the
    content and what is left are together shorter than the input. *)
Lemma Reference_progress data raw rest :
  Reference.decodeRawValue data = Ok (raw, rest) ->
  (length (Content raw) + length rest < length data)%nat.
Proof. apply readTLV_progress. Qed.

Lemma longTag_fuel data : forall acc, Reference.longTag acc data <> Err OutOfFuel.
Proof.
  induction data as [|b data IH]; intros acc; simpl; [discriminate|].
  match goal with |- (if ?c then _ else _) <> _ => destruct c end;
    [apply IH|discriminate].
Qed.

Lemma decodeIdentifier_fuel data : Reference.decodeIdentifier data <> Err OutOfFuel.
Proof.
  unfold Reference.decodeIdentifier. destruct data as [|b data]; [discriminate|].
  destruct (Z.land (Reference.byteZ b) 31 =? 31); [|discriminate].
  assert (Hlong : (do (tg0, rest') <- Reference.longTag 0 data;
                   Ok (Z.shiftr (Reference.byteZ b) 6, tg0,
                       Z.testbit (Reference.byteZ b) 5, rest')) <> Err OutOfFuel).
  { pose proof (longTag_fuel data 0) as Hl.
    destruct (Reference.longTag 0 data) as [[tg0 rest']|e]; simpl; [discriminate|congruence]. }
  destruct data as [|b' data']; [discriminate|].
  destruct b'; try discriminate; exact Hlong.
Qed.

Lemma decodeLength_fuel data : Reference.decodeLength data <> Err OutOfFuel.
Proof.
  unfold Reference.decodeLength. destruct data as [|b data]; [discriminate|].
  repeat match goal with
         | |- context [if ?c then _ else _] => destruct c
         end; discriminate.
Qed.

Lemma childrenUntilEnd_fuel (read : list Byte.byte -> result (RawValue * list Byte.byte))
    (bound : nat) :
  (forall data raw rest, read data = Ok (raw, rest) -> (length rest < length data)%nat) ->
  (forall data, (length data <= bound)%nat -> read data <> Err OutOfFuel) ->
  forall n data content,
    (length data <= bound)%nat -> childrenUntilEnd read n data content <> Err OutOfFuel.
Proof.
  intros Hread Hfuel. induction n as [|n IH]; intros data content Hb; [discriminate|].
  simpl. destruct (endOfContents data); [discriminate|].
  pose proof (Hfuel data Hb) as Hd.
  destruct (read data) as [[raw rest]|e] eqn:Hr; simpl; [|congruence].
  apply IH. apply Hread in Hr. lia.
Qed.

Lemma readTLV_fuel fuel : forall data,
  (length data < fuel)%nat -> Reference.readTLV fuel data <> Err OutOfFuel.
Proof.
  induction fuel as [|fuel IH]; intros data Hf; [lia|].
  rewrite readTLV_S.
  pose proof (decodeIdentifier_fuel data) as Hi.
  destruct (Reference.decodeIdentifier data) as [[[[cls tg] constructed] data1]|] eqn:Hid;
    simpl; [|congruence].
  pose proof (decodeLength_fuel data1) as Hl.
  destruct (Reference.decodeLength data1) as [[[len indef] data2]|] eqn:Hlen;
    simpl; [|congruence].
  apply decodeIdentifier_progress in Hid. apply decodeLength_progress in Hlen.
  destruct indef.
  - destruct (negb constructed); [discriminate|].
    pose proof (childrenUntilEnd_fuel (Reference.readTLV fuel) (length data2)) as Hc.
    destruct (childrenUntilEnd _ _ _ _) as [[content rest']|e] eqn:Hch; simpl;
      [discriminate|].
    intros He; inversion He; subst.
    eapply Hc; [| |reflexivity|exact Hch].
    + intros d raw0 rest0 Hd. apply readTLV_progress in Hd. lia.
    + intros d Hd. apply IH. lia.
  - destruct (Z.of_nat (length data2) <? len); discriminate.
Qed.

(** The reference reader always returns: the nesting of the values it
    reads is bounded by the length of the input. *)
Lemma Reference_total data : Reference.decodeRawValue data <> Err OutOfFuel.
Proof. apply readTLV_fuel. lia. Qed.

Lemma settable_completes value v : completes (Reference.settable value v).
Proof. unfold Reference.settable. destruct (CanSet value); discriminate. Qed.

Lemma integerContent_completes der data : completes (Reference.integerContent der data).
Proof.
  unfold Reference.integerContent. destruct data; [discriminate|].
  destruct (der && Reference.redundantLead _); discriminate.
Qed.

Lemma arcs_completes n : forall data,
  (length data < n)%nat -> completes (Reference.arcs n data).
Proof.
  induction n as [|n IH]; intros data Hn; [lia|].
  assert (Hstep : completes (do (arc, rest) <- Reference.longTag 0 data;
                             do more <- Reference.arcs n rest; Ok (arc :: more))).
  { apply bind_completes; [apply longTag_fuel|intros [arc rest] Hl].
    apply longTag_progress in Hl.
    apply bind_completes; [apply IH; lia|discriminate]. }
  destruct data as [|b data]; [discriminate|].
  destruct b; try exact Hstep. discriminate.
Qed.

(** The reference codecs of the primitive types always return. *)
Lemma Reference_primitive_completes p ctx data value :
  completes (Reference.primitive p ctx data value).
Proof.
  unfold Reference.primitive. destruct p.
  - apply bind_completes; [apply integerContent_completes|intros n _].
    apply settable_completes.
  - destruct data as [|b data]; [discriminate|].
    apply bind_completes; [apply longTag_fuel|intros [first rest] _].
    apply bind_completes; [apply arcs_completes; lia|intros more _].
    apply settable_completes.
  - destruct data; discriminate.
  - destruct data as [|b [|b' data]]; try discriminate.
    destruct (decoding (der ctx) && negb _); [discriminate|apply settable_completes].
  - apply settable_completes.
  - apply bind_completes; [apply integerContent_completes|intros n _].
    destruct (rtype value); try discriminate.
    destruct ((n <? _) || _); [discriminate|apply settable_completes].
  - apply bind_completes; [apply integerContent_completes|intros n _].
    destruct (rtype value); try discriminate.
    destruct ((n <? 0) || _); [discriminate|apply settable_completes].
  - destruct (rtype value); try apply settable_completes.
    destruct (length data =? _)%nat; [apply settable_completes|discriminate].
Qed.

(** ** Records without optional fields ([decode.go]) *)

Section Positional.

Variable call : decoderFunction -> list Byte.byte -> reflectValue -> result Value.

(** X30.  For a record none of whose fields is optional, defaulted or a
    choice, the matching loop decodes by position: the k-th expected element
    is decoded from the k-th raw value, and the first raw value that has
    another class or tag than its element, or that is not there, ends the
    matching with ParseError "Missing value" for that element. *)
Theorem matchExpectedValues_positional (eValues : list expectedFieldElement)
    (rValues : list RawValue) (fields : list Value) :
  Forall required eValues ->
  matchExpectedValues call eValues rValues fields
  = positionalMatching call eValues rValues fields.
Proof.
  intros Hreq. unfold matchExpectedValues.
  assert (Hloop : forall n eIndex rIndex fs,
            (eIndex + n = length eValues)%nat ->
            matchLoop call n eIndex eValues rValues rIndex fs
            = positionalMatching call (drop eIndex eValues) (drop rIndex rValues) fs).
  { induction n as [|n IH]; intros eIndex rIndex fs Hlen.
    - rewrite drop_ge by lia. reflexivity.
    - destruct (eValues !! eIndex) as [e|] eqn:He; [|apply lookup_ge_None in He; lia].
      rewrite (drop_S _ _ _ He). simpl. rewrite He.
      assert (Hr : required e).
      { rewrite Forall_forall in Hreq. apply Hreq. eapply list_elem_of_lookup_2; eauto. }
      destruct Hr as (Hopt & Hch & Hdef).
      destruct (decoder (element e)) as [d|]; [|apply IH; lia].
      rewrite Hopt, Hch, Hdef. simpl.
      destruct (rValues !! rIndex) as [raw|] eqn:Hraw.
      + rewrite (drop_S _ _ _ Hraw).
        destruct ((class (element e) =? Class raw) && (etag (element e) =? Tag raw));
          [|reflexivity].
        destruct (call d (Content raw) (fieldSlot fs e)) as [v|]; simpl; [|reflexivity].
        apply IH. lia.
      + apply lookup_ge_None in Hraw. rewrite (drop_ge rValues) by lia. reflexivity. }
  now rewrite (Hloop (length eValues) 0%nat 0%nat fields eq_refl).
Qed.

End Positional.

(** ** The two versions of [parseOptions] ([options.go]) *)

Lemma Split_join s sep : join sep (GoStrings.Split s sep) = s.
Proof.
  induction s as [|c s IH]; simpl; [reflexivity|].
  pose proof (Split_not_nil s sep) as Hne.
  destruct (Ascii.eqb_spec c sep) as [->|Hc].
  - simpl. destruct (GoStrings.Split s sep); [contradiction|]. now rewrite IH.
  - destruct (GoStrings.Split s sep) as [|piece pieces]; [contradiction|].
    simpl in *. destruct pieces; simpl in *; now rewrite <- IH.
Qed.

Lemma parseOption_tableDriven opts t opts' :
  parseOption opts (GoStrings.Split t ":") = Ok opts' ->
  (hd "" (GoStrings.Split t ":") = "" -> t = "") ->
  if (String.length t =? 0)%nat then opts' = opts
  else TableDriven.applyDefs TableDriven.defs t opts = Some (Ok opts').
Proof.
  intros H Hnamed.
  pose proof (Split_join t ":") as Hjoin.
  unfold parseOption in H.
  destruct (String.eqb_spec (hd "" (GoStrings.Split t ":")) "") as [He|He].
  { rewrite (Hnamed He). inversion H; subst. reflexivity. }
  assert (Hlen : (String.length t =? 0)%nat = false).
  { destruct t; [|reflexivity]. simpl in He. congruence. }
  rewrite Hlen. clear Hnamed Hlen.
  destruct (GoStrings.Split t ":") as [|nm rest] eqn:Hsplit; [simpl in He; congruence|].
  simpl in H, He.
  assert (Hflag : rest = [] -> t = nm).
  { intros ->. simpl in Hjoin. congruence. }
  assert (Hvalue : forall value, rest = [value] -> t = (nm ++ String ":" value)%string).
  { intros value ->. simpl in Hjoin. congruence. }
  repeat match type of H with
         | (if String.eqb nm ?s then _ else _) = _ =>
             destruct (String.eqb_spec nm s) as [->|?]
         end;
    try discriminate H;
    match type of H with
    | bind ?r _ = _ => destruct r as [x|] eqn:Hr; simpl in H; [|discriminate H]
    end;
    inversion H; subst opts'; clear H.
  1-6: unfold parseBoolOption in Hr; destruct rest; [|discriminate Hr];
    inversion Hr; rewrite (Hflag eq_refl); reflexivity.
  - unfold parseIntOption in Hr. destruct rest as [|value [|? ?]]; try discriminate Hr.
    rewrite (Hvalue value eq_refl). simpl.
    destruct (GoStrings.Atoi value); inversion Hr; reflexivity.
  - unfold parseIntOption in Hr. destruct rest as [|value [|? ?]]; try discriminate Hr.
    rewrite (Hvalue value eq_refl). simpl.
    destruct (GoStrings.Atoi value); inversion Hr; reflexivity.
  - unfold parseStringOption in Hr. destruct rest as [|value [|? ?]]; try discriminate Hr.
    rewrite (Hvalue value eq_refl). simpl. inversion Hr; reflexivity.
Qed.

Lemma parseTokens_tableDriven tokens : forall opts opts',
  Forall named tokens ->
  parseTokens opts tokens = Ok opts' ->
  TableDriven.parseTokens opts tokens = Ok opts'.
Proof.
  induction tokens as [|token tokens IH]; intros opts opts' Hn H; [exact H|].
  apply Forall_cons in Hn as [Hn Hns]. simpl in H.
  destruct (parseOption opts _) as [o|] eqn:Ho; simpl in H; [|discriminate].
  apply parseOption_tableDriven in Ho; [|exact Hn].
  cbn [TableDriven.parseTokens].
  destruct (String.length (GoStrings.TrimSpace token) =? 0)%nat.
  - subst o. now apply IH.
  - rewrite Ho. simpl. now apply IH.
Qed.


Lemma applyDefs_syntax defs token opts :
  Forall (fun opt => typed opt = true) defs ->
  match TableDriven.applyDefs defs token opts with
  | Some r => failsWith isSyntaxError r
  | None => True
  end.
Proof.
  induction 1 as [|opt defs Hopt _ IH]; [exact I|].
  cbn [TableDriven.applyDefs]. unfold typed in Hopt.
  destruct (TableDriven.args opt =? 0)%nat.
  - destruct (String.eqb token (TableDriven.name opt)); [|exact IH].
    destruct (TableDriven.ptr opt); try discriminate Hopt. reflexivity.
  - destruct (TableDriven.cutPrefix _ token) as [value|]; [|exact IH].
    destruct (TableDriven.ptr opt); try discriminate Hopt; [|reflexivity].
    destruct (GoStrings.Atoi value); reflexivity.
Qed.

Lemma tableDriven_parseTokens_syntax tokens : forall opts,
  failsWith isSyntaxError (TableDriven.parseTokens opts tokens).
Proof.
  induction tokens as [|token tokens IH]; intros opts; [reflexivity|].
  cbn [TableDriven.parseTokens].
  destruct (String.length _ =? 0)%nat; [apply IH|].
  assert (Hd := applyDefs_syntax TableDriven.defs (GoStrings.TrimSpace token) opts).
  specialize (Hd ltac:(repeat constructor)).
  destruct (TableDriven.applyDefs _ _ _) as [r|]; [|reflexivity].
  apply bind_failsWith; [exact Hd|intros; apply IH].
Qed.

(** X29.  The table-driven [parseOptions] never panics: the type switches of
    its loop always meet the pointer type they expect.  It fails with a
    [SyntaxError] only, and a record it returns has a tag whenever
    [universal] or [application] is set. *)
Theorem tableDriven_parseOptions_checked (s : string) :
  match TableDriven.parseOptions s with
  | Err e => isSyntaxError e = true
  | Ok opts =>
      (universal opts = true -> tag opts <> None)
      /\ (application opts = true -> tag opts <> None)
  end.
Proof.
  unfold TableDriven.parseOptions.
  pose proof (tableDriven_parseTokens_syntax (GoStrings.Split s ",") zeroOptions) as Htok.
  destruct (TableDriven.parseTokens zeroOptions _) as [opts|e]; simpl in *; [|exact Htok].
  destruct (universal opts) eqn:Hu, (application opts) eqn:Ha, (tag opts) eqn:Ht;
    simpl; try reflexivity; split; intros; congruence.
Qed.

(** ** The further properties at concrete inputs *)

Lemma getExpectedElement_unmapped_witness :
  getExpectedElement NewContext zeroRawValue TInterface zeroOptions
  = Err (ParseError MsgTypeNotSupported).
Proof.
  apply (getExpectedElement_unmapped Reference.decodeRawValue Reference.primitive
           Reference.sort_Sort NewContext zeroRawValue TInterface zeroOptions
           eq_refl eq_refl eq_refl).
  reflexivity.
Defined.

Lemma decodeStruct_nothing_expected_witness :
  decodeStruct Reference.decodeRawValue (Examples.run 1 NewContext) NewContext
    Examples.stringThenInt Examples.recordEmpty
  = Err (ParseError MsgTooManyItems).
Proof.
  exact (proj1 (decodeStruct_nothing_expected Reference.decodeRawValue Reference.sort_Sort
                  (Examples.run 1 NewContext) NewContext Examples.stringThenInt
                  Examples.recordEmpty (or_introl eq_refl))).
Defined.

Lemma stringThenInt_readsAs :
  readsAs Reference.decodeRawValue Examples.stringThenInt [Examples.rawString; Examples.rawInt].
Proof.
  simpl. eexists. split; [vm_compute; reflexivity|]. split; [discriminate|].
  eexists. split; [vm_compute; reflexivity|reflexivity].
Qed.

Lemma decodeStruct_too_many_witness :
  getExpectedFieldElements NewContext Examples.recordS
  = Ok (Examples.expected NewContext Examples.recordS)
  /\ decodeStruct Reference.decodeRawValue (Examples.run 1 NewContext) NewContext
       Examples.stringThenInt Examples.recordS
     = Err (ParseError MsgTooManyItems).
Proof.
  split; [vm_compute; reflexivity|].
  apply (decodeStruct_too_many Reference.decodeRawValue (Examples.run 1 NewContext) NewContext
           Examples.stringThenInt Examples.recordS
           (Examples.expected NewContext Examples.recordS)
           [Examples.rawString; Examples.rawInt]).
  - vm_compute. reflexivity.
  - exact stringThenInt_readsAs.
  - vm_compute. lia.
Defined.

Lemma matchExpectedValues_frame_witness :
  matchExpectedValues (Examples.run 1 NewContext) Examples.expectedABC [Examples.rawInt]
    [VInt 0; VInt 0; VInt 0; VBool true]
  = Ok [VInt 7; VInt 0; VInt 5; VBool true]
  /\ length [VInt 7; VInt 0; VInt 5; VBool true] = length [VInt 0; VInt 0; VInt 0; VBool true]
  /\ ((forall e, In e Examples.expectedABC -> fieldIndex e <> 3%nat) ->
      [VInt 7; VInt 0; VInt 5; VBool true] !! 3%nat
      = [VInt 0; VInt 0; VInt 0; VBool true] !! 3%nat).
Proof.
  split; [vm_compute; reflexivity|].
  apply (matchExpectedValues_frame (Examples.run 1 NewContext) Examples.expectedABC
           [Examples.rawInt] [VInt 0; VInt 0; VInt 0; VBool true]).
  vm_compute. reflexivity.
Defined.

Lemma matchExpectedValues_unmatched_witness :
  getExpectedFieldElements NewContext Inputs.recordOptional = Ok Inputs.expectedOptional
  /\ matchExpectedValues (Examples.run 1 NewContext) Inputs.expectedOptional
       [Inputs.rawBool; Examples.rawInt; Examples.rawString] [VInt 0; VString []]
     = Ok [VInt 0; VString []].
Proof.
  split; [vm_compute; reflexivity|].
  apply (matchExpectedValues_unmatched (Examples.run 1 NewContext) Inputs.expectedOptional
           [Inputs.rawBool; Examples.rawInt; Examples.rawString] [VInt 0; VString []]).
  - intros e [<-|[<-|[]]]; left; reflexivity.
  - intros e raw [<-|[<-|[]]] Hr; inversion Hr; subst; discriminate.
Defined.

Lemma checkDuplicated_exact_witness :
  checkDuplicated (Reference.sort_Sort _ expectedFieldElementSlice_Less Examples.expectedSB)
  = None
  <-> NoDup (expectedKey <$> Examples.expectedSB).
Proof.
  apply (checkDuplicated_exact Reference.sort_Sort Reference_sortContract Examples.expectedSB).
Defined.

Lemma decodeStructAsSet_ber_order_witness :
  getRawValuesFromBytes Reference.decodeRawValue Examples.stringThenInt 2
  = Ok [Examples.rawString; Examples.rawInt]
  /\ getRawValuesFromBytes Reference.decodeRawValue Inputs.intThenString 2
     = Ok [Examples.rawInt; Examples.rawString]
  /\ decodeStructAsSet Reference.decodeRawValue Reference.sort_Sort
       (Examples.run 1 NewContext) NewContext Examples.stringThenInt Examples.recordAB
     = decodeStructAsSet Reference.decodeRawValue Reference.sort_Sort
         (Examples.run 1 NewContext) NewContext Inputs.intThenString Examples.recordAB.
Proof.
  split; [vm_compute; reflexivity|]. split; [vm_compute; reflexivity|].
  apply (decodeStructAsSet_ber_order Reference.decodeRawValue Reference.sort_Sort
           (Examples.run 1 NewContext) Reference_sortContract NewContext Examples.recordAB
           Examples.stringThenInt Inputs.intThenString Inputs.expectedAB
           [Examples.rawString; Examples.rawInt] [Examples.rawInt; Examples.rawString]).
  - reflexivity.
  - vm_compute. reflexivity.
  - vm_compute. reflexivity.
  - vm_compute. reflexivity.
  - apply perm_swap.
  - apply NoDup_cons. split; [|apply NoDup_singleton].
    intros H. apply list_elem_of_singleton in H. discriminate.
Defined.


Lemma explicit_inner_witness :
  Examples.run 2 NewContext (ExplicitDecoder zeroOptions) [Byte.x02; Byte.x01; Byte.x07]
    (newValue (TInt Int))
  = Examples.run 2 NewContext (ExplicitDecoder zeroOptions)
      [Byte.x02; Byte.x01; Byte.x07; Byte.xff; Byte.xff] (newValue (TInt Int)).
Proof.
  apply (explicit_inner Reference.decodeRawValue Reference.primitive Reference.sort_Sort
           1 NewContext zeroOptions [Byte.x02; Byte.x01; Byte.x07]
           [Byte.x02; Byte.x01; Byte.x07; Byte.xff; Byte.xff] (newValue (TInt Int))
           Examples.rawInt [] [Byte.xff; Byte.xff]).
  - vm_compute. reflexivity.
  - vm_compute. reflexivity.
Defined.

Lemma Reference_uses_bytes data raw rest :
  Reference.decodeRawValue data = Ok (raw, rest) -> (length rest < length data)%nat.
Proof. intros H. apply Reference_progress in H. lia. Qed.

Lemma decodeArray_decodeSlice_witness :
  decodeArray Reference.decodeRawValue (Examples.run 1 NewContext) NewContext Inputs.twoInts
    (mkReflectValue (TArray 2 (TInt Int)) (VList [VInt 0; VInt 0]) true)
  = Ok (VList [VInt 1; VInt 2])
  <-> decodeSlice Reference.decodeRawValue (Examples.run 1 NewContext) NewContext Inputs.twoInts
        (mkReflectValue (TSlice (TInt Int)) (VList []) true)
      = Ok (VList [VInt 1; VInt 2])
      /\ length [VInt 1; VInt 2] = 2%nat.
Proof.
  apply (decodeArray_decodeSlice Reference.decodeRawValue (Examples.run 1 NewContext)
           Reference_uses_bytes NewContext Inputs.twoInts 2 (TInt Int) [VInt 0; VInt 0]
           (VList []) [VInt 1; VInt 2]).
  reflexivity.
Defined.

Lemma Context_DecodeWithOptions_terminates_witness :
  completes
    (Context_DecodeWithOptions Reference.decodeRawValue Reference.primitive Reference.sort_Sort
       14 NewContext
       [Byte.x30; Byte.x80; Byte.x02; Byte.x01; Byte.x07; Byte.x00; Byte.x00]
       Examples.recordABC "").
Proof.
  apply (Context_DecodeWithOptions_terminates Reference.decodeRawValue Reference.primitive
           Reference.sort_Sort Reference_total Reference_progress
           Reference_primitive_completes Reference_sortContract NewContext
           NewContext_registryOk).
  simpl. lia.
Defined.

Lemma matchExpectedValues_positional_witness :
  getExpectedFieldElements NewContext Examples.recordAB = Ok Inputs.expectedAB
  /\ matchExpectedValues (Examples.run 1 NewContext) Inputs.expectedAB
       [Examples.rawString; Examples.rawInt] [VString []; VInt 0]
     = positionalMatching (Examples.run 1 NewContext) Inputs.expectedAB
         [Examples.rawString; Examples.rawInt] [VString []; VInt 0]
  /\ positionalMatching (Examples.run 1 NewContext) Inputs.expectedAB
       [Examples.rawString; Examples.rawInt] [VString []; VInt 0]
     = Ok [VString [Byte.x61]; VInt 7].
Proof.
  split; [vm_compute; reflexivity|]. split; [|vm_compute; reflexivity].
  apply (matchExpectedValues_positional (Examples.run 1 NewContext) Inputs.expectedAB
           [Examples.rawString; Examples.rawInt] [VString []; VInt 0]).
  repeat constructor.
Defined.


(** What the version without [validate] lets through. *)
Lemma tableDriven_unvalidated_example :
  (exists opts, TableDriven.parseOptions "tag:-1" = Ok opts /\ tag opts = Some (-1))
  /\ (exists opts, TableDriven.parseOptions "choice:" = Ok opts /\ choice opts = Some "")
  /\ (exists m, parseOptions "tag:-1" = Err (SyntaxError m))
  /\ (exists m, parseOptions "choice:" = Err (SyntaxError m))
  /\ (exists opts, parseOptions ":x" = Ok opts)
  /\ (exists m, TableDriven.parseOptions ":x" = Err (SyntaxError m)).
Proof.
  repeat split; eexists; try split; reflexivity.
Qed.
